(** * uthreads: a cooperative user-level threading library for xv6

    A shallow embedding of [src/uthreads.c] and [src/uthreads.h]: the thread
    table and its round-robin scheduler, the lifecycle calls, and the
    mutex, semaphore, condition variable and bounded channel built on them.

    Conventions of the embedding.

    - A C [int] is a [Z]; [x++] and [x--] go through [int_wrap], the
      two's-complement wrap-around of the x86 build.
    - A pointer-sized value ([void *], a function pointer) is a [Z]; the
      null pointer is [0].
    - An array is a list.  A store outside the array is dropped and a load
      outside it reads the default element: C gives neither a meaning, and
      every statement below that depends on such an access carries the
      bound that keeps it inside.
    - A [struct thread *] into the table is the index of the slot.
    - [thread_switch] is the assembly context switch, which [uthreads.h]
      declares and which is not among the sources: it is modelled from
      the specification.  Its calls are recorded, in order, in the ghost
      field [switch_log] of the runtime, and the stack pointer it saves in
      [old->sp], a value of the processor and not of the C program, is
      kept as the number of the call that saved it.
    - A library call that can reach [thread_schedule] is cut at that call:
      the embedding of the call runs the C code up to and including
      [thread_schedule] and reports where the thread resumes.  The thread
      resumes there when it is next switched in, or at once when the
      scheduler returned without switching. *)

From stdpp Require Import list relations.
From Stdlib Require Import ZArith Lia.

(** ** Machine integers *)

Definition INT_MIN : Z := (- 2 ^ 31)%Z.
Definition INT_MAX : Z := (2 ^ 31 - 1)%Z.

Definition int_wrap (x : Z) : Z := ((x + 2 ^ 31) mod 2 ^ 32 - 2 ^ 31)%Z.

(** ** Configuration constants ([uthreads.h]) *)

Definition MAX_THREADS : nat := 16.
Definition STACK_SIZE : Z := 8192.
(** [sizeof(void * )] on the 32-bit x86 target. *)
Definition SIZEOF_PTR : Z := 4.

(** ** Thread states *)

Inductive tstate : Type :=
  | T_UNUSED | T_RUNNABLE | T_RUNNING | T_SLEEPING | T_ZOMBIE.

#[global] Instance tstate_eq_dec : EqDecision tstate.
Proof. solve_decision. Defined.

(** The value each state has as a [#define]. *)
Definition state_code (s : tstate) : Z :=
  match s with
  | T_UNUSED => 0 | T_RUNNABLE => 1 | T_RUNNING => 2
  | T_SLEEPING => 3 | T_ZOMBIE => 4
  end%Z.

(** ** The thread structure

    [stack] is left out: no library function reads or writes its bytes
    except the frame [thread_create] builds. *)

(** What the field [sp] holds: the null pointer [thread_init] stores,
    a pointer [stack + offset] into the thread's own stack, as
    [thread_create] stores, or the stack pointer of the processor that
    [thread_switch] saved, in the call that [n] calls came before. *)
Inductive stack_ptr : Type :=
  | SpNull
  | SpStack (offset : Z)
  | SpSaved (n : nat).

#[global] Instance stack_ptr_eq_dec : EqDecision stack_ptr.
Proof. solve_decision. Defined.

Record thread : Type := mkThread {
  tid : Z;
  state : tstate;
  sp : stack_ptr;
  start_routine : Z;
  arg : Z;
  retval : Z;
  joined_tid : Z
}.

Definition set_state (s : tstate) (t : thread) : thread :=
  mkThread (tid t) s (sp t) (start_routine t) (arg t) (retval t) (joined_tid t).
Definition set_tid (v : Z) (t : thread) : thread :=
  mkThread v (state t) (sp t) (start_routine t) (arg t) (retval t) (joined_tid t).
Definition set_retval (v : Z) (t : thread) : thread :=
  mkThread (tid t) (state t) (sp t) (start_routine t) (arg t) v (joined_tid t).
Definition set_joined_tid (v : Z) (t : thread) : thread :=
  mkThread (tid t) (state t) (sp t) (start_routine t) (arg t) (retval t) v.
Definition set_sp (v : stack_ptr) (t : thread) : thread :=
  mkThread (tid t) (state t) v (start_routine t) (arg t) (retval t) (joined_tid t).

(** What [thread_init] leaves in every slot. *)
Definition unused_thread : thread := mkThread 0 T_UNUSED SpNull 0 0 0 (-1).

#[global] Instance thread_inhabited : Inhabited thread := populate unused_thread.

(** ** Global state: [threads], [current_thread], [next_tid] *)

Record runtime : Type := mkRuntime {
  threads : list thread;
  current_thread : nat;
  next_tid : Z;
  switch_log : list (nat * nat)
}.

Definition with_threads (ts : list thread) (rt : runtime) : runtime :=
  mkRuntime ts (current_thread rt) (next_tid rt) (switch_log rt).

(** [*current_thread] *)
Definition current (rt : runtime) : thread := threads rt !!! current_thread rt.

(** [current_thread->field = ...] *)
Definition update_current (f : thread → thread) (rt : runtime) : runtime :=
  with_threads (alter f (current_thread rt) (threads rt)) rt.

(** [for (int i = lo; i < hi; i++) if (P(threads[i])) return &threads[i];]
    with [n = hi - lo] rounds left. *)
Fixpoint scan_slots (P : thread → bool) (ts : list thread) (i n : nat) : option nat :=
  match n with
  | O => None
  | S n' => if P (ts !!! i) then Some i else scan_slots P ts (S i) n'
  end.

Definition for_slots (P : thread → bool) (ts : list thread) (lo hi : nat) : option nat :=
  scan_slots P ts lo (hi - lo).

(** ** Part 1.1: thread initialization and management *)

Definition thread_init : runtime :=
  let ts := replicate MAX_THREADS unused_thread in
  let ts := alter (λ t, set_joined_tid (-1) (set_state T_RUNNING (set_tid 0 t))) 0 ts in
  mkRuntime ts 0 1 [].

Definition is_unused (t : thread) : bool := bool_decide (state t = T_UNUSED).
Definition is_runnable (t : thread) : bool := bool_decide (state t = T_RUNNABLE).

Definition thread_create (start_fn arg_ptr : Z) (rt : runtime) : runtime * Z :=
  match for_slots is_unused (threads rt) 0 MAX_THREADS with
  | None => (rt, (-1)%Z)
  | Some i =>
      let new_tid := next_tid rt in
      let t := mkThread new_tid T_RUNNABLE
                 (SpStack (STACK_SIZE - SIZEOF_PTR - 4 * SIZEOF_PTR))
                 start_fn arg_ptr 0 (-1) in
      (mkRuntime (<[i := t]> (threads rt)) (current_thread rt)
         (int_wrap (next_tid rt + 1)) (switch_log rt),
       new_tid)
  end.

Definition thread_self (rt : runtime) : Z := tid (current rt).

(** ** Part 1.3: scheduler *)

Definition find_runnable_thread (rt : runtime) : option nat :=
  let start_idx := (current_thread rt + 1) mod MAX_THREADS in
  match for_slots is_runnable (threads rt) start_idx MAX_THREADS with
  | Some i => Some i
  | None =>
      match for_slots is_runnable (threads rt) 0 start_idx with
      | Some i => Some i
      | None =>
          if bool_decide (state (current rt) = T_RUNNABLE)
          then Some (current_thread rt)
          else None
      end
  end.

(** Modelled from the spec: the context switch [thread_switch(old, next)],
    which [uthreads.h] declares as implemented in assembly and which is
    missing from the sources.  By section 4.1 of the specification it
    saves the callee-preserved registers of the caller on the current
    stack, writes the current stack pointer into [old.sp], loads [next.sp]
    as the new stack pointer, restores the registers from that stack and
    returns.  Of this the thread table sees the store to [old->sp].  The
    value stored is the stack pointer of the processor, which the C code
    does not determine: it is named after the call, [SpSaved n] for the
    call that [n] calls came before, and the call is appended to
    [switch_log], where it is entry [n]. *)
Definition thread_switch (old next : nat) (rt : runtime) : runtime :=
  mkRuntime
    (alter (set_sp (SpSaved (length (switch_log rt)))) old (threads rt))
    (current_thread rt) (next_tid rt)
    (switch_log rt ++ [(old, next)]).

Definition thread_schedule (rt : runtime) : runtime :=
  let old := current_thread rt in
  match find_runnable_thread rt with
  | None => rt
  | Some next =>
      let ts := if bool_decide (state (threads rt !!! old) = T_RUNNING)
                then alter (set_state T_RUNNABLE) old (threads rt)
                else threads rt in
      let ts := alter (set_state T_RUNNING) next ts in
      let rt' := mkRuntime ts next (next_tid rt) (switch_log rt) in
      if bool_decide (old ≠ next) then thread_switch old next rt' else rt'
  end.

Definition thread_yield (rt : runtime) : runtime :=
  thread_schedule (update_current (set_state T_RUNNABLE) rt).

(** ** Calls that can reach the scheduler

    [Parked]: the call ran up to its [thread_schedule] and the thread
    resumes after it; [Done]: the call returned. *)

Inductive progress : Type := Done | Parked.

(** The same for a call with a return value. *)
Inductive outcome (R : Type) : Type :=
  | Returned (r : R)
  | Suspended.
Arguments Returned {R} r.
Arguments Suspended {R}.

(** ** Part 1.1, continued: join and exit *)

Definition join_target (tid_arg : Z) (t : thread) : bool :=
  bool_decide (tid t = tid_arg) && negb (bool_decide (state t = T_UNUSED)).

(** [thread_join] from the test of its [while] loop on, [t] being the
    slot found; a suspended caller resumes here. *)
Definition thread_join_wait (t : nat) (tid_arg : Z) (rt : runtime)
  : runtime * outcome Z :=
  if bool_decide (state (threads rt !!! t) ≠ T_ZOMBIE) then
    let rt := update_current (set_joined_tid tid_arg) rt in
    let rt := update_current (set_state T_SLEEPING) rt in
    (thread_schedule rt, Suspended)
  else
    let v := retval (threads rt !!! t) in
    let ts := alter (set_state T_UNUSED) t (threads rt) in
    let ts := alter (set_tid 0) t ts in
    (with_threads ts rt, Returned v).

Definition thread_join_lookup (tid_arg : Z) (rt : runtime) : option nat :=
  for_slots (join_target tid_arg) (threads rt) 0 MAX_THREADS.

Definition thread_join (tid_arg : Z) (rt : runtime) : runtime * outcome Z :=
  match thread_join_lookup tid_arg rt with
  | None => (rt, Returned 0%Z)
  | Some t => thread_join_wait t tid_arg rt
  end.

(** [thread_exit] up to its [thread_schedule]; the thread is not meant to
    run again, and spins in [while(1)] if the scheduler returns. *)
Definition thread_exit (v : Z) (rt : runtime) : runtime :=
  let rt := update_current (set_retval v) rt in
  let rt := update_current (set_state T_ZOMBIE) rt in
  let my_tid := tid (current rt) in
  let wake_joiner (t : thread) :=
    if bool_decide (state t = T_SLEEPING) && bool_decide (joined_tid t = my_tid)
    then set_joined_tid (-1) (set_state T_RUNNABLE t)
    else t in
  thread_schedule (with_threads (wake_joiner <$> threads rt) rt).

(** ** Wait queues: [int wait_queue[MAX_THREADS]; int wait_count;]

    The three synchronization structures carry the same two fields and
    their functions repeat the same statements on them. *)

Definition arr_store (q : list Z) (i : Z) (v : Z) : list Z :=
  if bool_decide (0 ≤ i)%Z then <[Z.to_nat i := v]> q else q.

(** [wait_queue[wait_count++] = v], for an index inside the array.  With
    [wait_count] at [MAX_THREADS] the C store leaves the array, for the
    field [wait_count] that follows it in the three structures, and C
    gives the statement no meaning: what the definition returns there
    stands for nothing in the code, and no property is stated of it.
    Every property of a queue after a push carries
    [wait_count < MAX_THREADS] before it. *)
Definition queue_push (q : list Z) (n : Z) (v : Z) : list Z * Z :=
  (arr_store q n v, int_wrap (n + 1)).

(** [for (int i = 0; i < wait_count - 1; i++) wait_queue[i] = wait_queue[i + 1];]
    from index [i], with [n] rounds left. *)
Fixpoint shift_loop (q : list Z) (i n : nat) : list Z :=
  match n with
  | O => q
  | S n' => shift_loop (<[i := q !!! S i]> q) (S i) n'
  end.

(** The shift followed by [wait_count--]. *)
Definition queue_pop (q : list Z) (n : Z) : list Z * Z :=
  (shift_loop q 0 (Z.to_nat (n - 1)), int_wrap (n - 1)).

(** [for (int i = 0; i < MAX_THREADS; i++)
       if (threads[i].tid == wake_tid) { threads[i].state = T_RUNNABLE; break; }] *)
Definition wake_thread (wake_tid : Z) (ts : list thread) : list thread :=
  match for_slots (λ t, bool_decide (tid t = wake_tid)) ts 0 MAX_THREADS with
  | Some i => alter (set_state T_RUNNABLE) i ts
  | None => ts
  end.

(** The tids a queue holds, oldest first. *)
Definition waiters (q : list Z) (n : Z) : list Z := take (Z.to_nat n) q.

(** ** Part 2.1: mutex *)

Module Mutex.
Record t : Type := mk {
  locked : Z;
  owner_tid : Z;
  wait_queue : list Z;
  wait_count : Z
}.
End Mutex.
Abbreviation mutex_t := Mutex.t.

Definition mutex_init : mutex_t :=
  Mutex.mk 0 (-1) (replicate MAX_THREADS (-1)%Z) 0.

(** [mutex_lock] from the test of its [while] loop, which is also where a
    parked caller resumes. *)
Definition mutex_lock (m : mutex_t) (rt : runtime) : mutex_t * runtime * progress :=
  if bool_decide (Mutex.locked m ≠ 0%Z) then
    let '(q, n) := queue_push (Mutex.wait_queue m) (Mutex.wait_count m) (tid (current rt)) in
    let m := Mutex.mk (Mutex.locked m) (Mutex.owner_tid m) q n in
    let rt := update_current (set_state T_SLEEPING) rt in
    (m, thread_schedule rt, Parked)
  else
    (Mutex.mk 1 (tid (current rt)) (Mutex.wait_queue m) (Mutex.wait_count m), rt, Done).

Definition mutex_unlock (m : mutex_t) (rt : runtime) : mutex_t * runtime :=
  if bool_decide (Mutex.owner_tid m ≠ tid (current rt)) then (m, rt)
  else
    let '(q, n, rt) :=
      if bool_decide (0 < Mutex.wait_count m)%Z then
        let wake_tid := Mutex.wait_queue m !!! 0 in
        let '(q, n) := queue_pop (Mutex.wait_queue m) (Mutex.wait_count m) in
        (q, n, with_threads (wake_thread wake_tid (threads rt)) rt)
      else (Mutex.wait_queue m, Mutex.wait_count m, rt) in
    (Mutex.mk 0 (-1) q n, rt).

(** ** Part 2.3: semaphore *)

Module Sem.
Record t : Type := mk {
  count : Z;
  wait_queue : list Z;
  wait_count : Z
}.
End Sem.
Abbreviation sem_t := Sem.t.

Definition sem_init (value : Z) : sem_t :=
  Sem.mk value (replicate MAX_THREADS (-1)%Z) 0.

(** A parked caller resumes at the [break] and returns. *)
Definition sem_wait (s : sem_t) (rt : runtime) : sem_t * runtime * progress :=
  let s := Sem.mk (int_wrap (Sem.count s - 1)) (Sem.wait_queue s) (Sem.wait_count s) in
  if bool_decide (Sem.count s < 0)%Z then
    let '(q, n) := queue_push (Sem.wait_queue s) (Sem.wait_count s) (tid (current rt)) in
    let s := Sem.mk (Sem.count s) q n in
    let rt := update_current (set_state T_SLEEPING) rt in
    (s, thread_schedule rt, Parked)
  else (s, rt, Done).

Definition sem_post (s : sem_t) (rt : runtime) : sem_t * runtime :=
  let s := Sem.mk (int_wrap (Sem.count s + 1)) (Sem.wait_queue s) (Sem.wait_count s) in
  if bool_decide (0 < Sem.wait_count s)%Z then
    let wake_tid := Sem.wait_queue s !!! 0 in
    let '(q, n) := queue_pop (Sem.wait_queue s) (Sem.wait_count s) in
    (Sem.mk (Sem.count s) q n, with_threads (wake_thread wake_tid (threads rt)) rt)
  else (s, rt).

(** ** Part 2.4: condition variable *)

Module Cond.
Record t : Type := mk {
  wait_queue : list Z;
  wait_count : Z
}.
End Cond.
Abbreviation cond_t := Cond.t.

Definition cond_init : cond_t := Cond.mk (replicate MAX_THREADS (-1)%Z) 0.

(** [cond_wait] up to its [thread_schedule]; the caller resumes at the
    closing [mutex_lock(m)]. *)
Definition cond_wait (c : cond_t) (m : mutex_t) (rt : runtime)
  : cond_t * mutex_t * runtime :=
  let '(q, n) := queue_push (Cond.wait_queue c) (Cond.wait_count c) (tid (current rt)) in
  let '(m, rt) := mutex_unlock m rt in
  let rt := update_current (set_state T_SLEEPING) rt in
  (Cond.mk q n, m, thread_schedule rt).

Definition cond_signal (c : cond_t) (rt : runtime) : cond_t * runtime :=
  if bool_decide (Cond.wait_count c = 0%Z) then (c, rt)
  else
    let wake_tid := Cond.wait_queue c !!! 0 in
    let '(q, n) := queue_pop (Cond.wait_queue c) (Cond.wait_count c) in
    (Cond.mk q n, with_threads (wake_thread wake_tid (threads rt)) rt).

(** The [while (c->wait_count > 0)] loop of [cond_broadcast], with [fuel]
    rounds allowed. *)
Fixpoint cond_broadcast_loop (fuel : nat) (c : cond_t) (rt : runtime) : cond_t * runtime :=
  match fuel with
  | O => (c, rt)
  | S fuel' =>
      if bool_decide (0 < Cond.wait_count c)%Z then
        let wake_tid := Cond.wait_queue c !!! 0 in
        let '(q, n) := queue_pop (Cond.wait_queue c) (Cond.wait_count c) in
        cond_broadcast_loop fuel' (Cond.mk q n)
          (with_threads (wake_thread wake_tid (threads rt)) rt)
      else (c, rt)
  end.

(** Every round takes one off a positive [wait_count], so [wait_count]
    rounds are enough for the loop to leave by its test. *)
Definition cond_broadcast (c : cond_t) (rt : runtime) : cond_t * runtime :=
  cond_broadcast_loop (Z.to_nat (Cond.wait_count c)) c rt.

(** ** Part 2.5: channel *)

Module Chan.
Record t : Type := mk {
  buffer : list Z;
  capacity : Z;
  count : Z;
  read_pos : Z;
  write_pos : Z;
  closed : Z;
  lock : mutex_t;
  not_empty : cond_t;
  not_full : cond_t
}.

Definition with_lock (m : mutex_t) (ch : t) : t :=
  mk (buffer ch) (capacity ch) (count ch) (read_pos ch) (write_pos ch)
     (closed ch) m (not_empty ch) (not_full ch).
Definition with_not_empty (c : cond_t) (ch : t) : t :=
  mk (buffer ch) (capacity ch) (count ch) (read_pos ch) (write_pos ch)
     (closed ch) (lock ch) c (not_full ch).
Definition with_not_full (c : cond_t) (ch : t) : t :=
  mk (buffer ch) (capacity ch) (count ch) (read_pos ch) (write_pos ch)
     (closed ch) (lock ch) (not_empty ch) c.
Definition with_closed (v : Z) (ch : t) : t :=
  mk (buffer ch) (capacity ch) (count ch) (read_pos ch) (write_pos ch)
     v (lock ch) (not_empty ch) (not_full ch).
End Chan.
Abbreviation channel_t := Chan.t.

(** Both allocations are commented out in the source and replaced by the
    null pointer: [channel_t *ch = 0;] and [ch->buffer = 0;]. *)
Definition channel_create (capacity : Z) : option channel_t :=
  let ch : option unit := None (* malloc(sizeof(channel_t)) *) in
  match ch with
  | None => None
  | Some _ =>
      let buffer : option (list Z) := None (* malloc(capacity * sizeof(void * )) *) in
      match buffer with
      | None => None
      | Some b => Some (Chan.mk b capacity 0 0 0 0 mutex_init cond_init cond_init)
      end
  end.

(** [a % b] of C, which truncates towards zero. *)
Definition c_rem (a b : Z) : Z := Z.rem a b.

(** [channel_send] once [ch->lock] is held: the test of [closed], then
    the [while (count == capacity)] loop up to the [thread_schedule] of its
    [cond_wait], or the store and the return. *)
Definition channel_send_locked (ch : channel_t) (data : Z) (rt : runtime)
  : channel_t * runtime * outcome Z :=
  if bool_decide (Chan.closed ch ≠ 0%Z) then
    let '(m, rt) := mutex_unlock (Chan.lock ch) rt in
    (Chan.with_lock m ch, rt, Returned (-1)%Z)
  else if bool_decide (Chan.count ch = Chan.capacity ch) then
    let '(c, m, rt) := cond_wait (Chan.not_full ch) (Chan.lock ch) rt in
    (Chan.with_not_full c (Chan.with_lock m ch), rt, Suspended)
  else
    let ch := Chan.mk (arr_store (Chan.buffer ch) (Chan.write_pos ch) data)
                (Chan.capacity ch)
                (int_wrap (Chan.count ch + 1))
                (Chan.read_pos ch)
                (c_rem (int_wrap (Chan.write_pos ch + 1)) (Chan.capacity ch))
                (Chan.closed ch) (Chan.lock ch) (Chan.not_empty ch) (Chan.not_full ch) in
    let '(c, rt) := cond_signal (Chan.not_empty ch) rt in
    let ch := Chan.with_not_empty c ch in
    let '(m, rt) := mutex_unlock (Chan.lock ch) rt in
    (Chan.with_lock m ch, rt, Returned 0%Z).

(** A sender parks in the [mutex_lock] at the head of the function or in
    the [mutex_lock] that ends [cond_wait].  What follows either is the
    same code, the test of [closed] and then the loop test, so a suspended
    sender resumes by running [channel_send] again. *)
Definition channel_send (ch : channel_t) (data : Z) (rt : runtime)
  : channel_t * runtime * outcome Z :=
  let '(m, rt, p) := mutex_lock (Chan.lock ch) rt in
  let ch := Chan.with_lock m ch in
  match p with
  | Parked => (ch, rt, Suspended)
  | Done => channel_send_locked ch data rt
  end.

(** [channel_recv] once [ch->lock] is held.  The result pairs the return
    value with what was stored through [data], if anything was. *)
Definition channel_recv_locked (ch : channel_t) (rt : runtime)
  : channel_t * runtime * outcome (Z * option Z) :=
  if bool_decide (Chan.count ch = 0%Z) then
    if bool_decide (Chan.closed ch ≠ 0%Z) then
      let '(m, rt) := mutex_unlock (Chan.lock ch) rt in
      (Chan.with_lock m ch, rt, Returned ((-1)%Z, None))
    else
      let '(c, m, rt) := cond_wait (Chan.not_empty ch) (Chan.lock ch) rt in
      (Chan.with_not_empty c (Chan.with_lock m ch), rt, Suspended)
  else
    let v := if bool_decide (0 ≤ Chan.read_pos ch)%Z
             then Chan.buffer ch !!! Z.to_nat (Chan.read_pos ch) else 0%Z in
    let ch := Chan.mk (Chan.buffer ch) (Chan.capacity ch)
                (int_wrap (Chan.count ch - 1))
                (c_rem (int_wrap (Chan.read_pos ch + 1)) (Chan.capacity ch))
                (Chan.write_pos ch)
                (Chan.closed ch) (Chan.lock ch) (Chan.not_empty ch) (Chan.not_full ch) in
    let '(c, rt) := cond_signal (Chan.not_full ch) rt in
    let ch := Chan.with_not_full c ch in
    let '(m, rt) := mutex_unlock (Chan.lock ch) rt in
    (Chan.with_lock m ch, rt, Returned (0%Z, Some v)).

(** As for [channel_send]: after either [mutex_lock] comes the loop test,
    so a suspended receiver resumes by running [channel_recv] again. *)
Definition channel_recv (ch : channel_t) (rt : runtime)
  : channel_t * runtime * outcome (Z * option Z) :=
  let '(m, rt, p) := mutex_lock (Chan.lock ch) rt in
  let ch := Chan.with_lock m ch in
  match p with
  | Parked => (ch, rt, Suspended)
  | Done => channel_recv_locked ch rt
  end.

(** [channel_close] once [ch->lock] is held. *)
Definition channel_close_locked (ch : channel_t) (rt : runtime)
  : channel_t * runtime :=
  let ch := Chan.with_closed 1 ch in
  let '(c, rt) := cond_broadcast (Chan.not_empty ch) rt in
  let ch := Chan.with_not_empty c ch in
  let '(c, rt) := cond_broadcast (Chan.not_full ch) rt in
  let ch := Chan.with_not_full c ch in
  let '(m, rt) := mutex_unlock (Chan.lock ch) rt in
  (Chan.with_lock m ch, rt).

Definition channel_close (ch : channel_t) (rt : runtime)
  : channel_t * runtime * progress :=
  let '(m, rt, p) := mutex_lock (Chan.lock ch) rt in
  let ch := Chan.with_lock m ch in
  match p with
  | Parked => (ch, rt, Parked)
  | Done => let '(ch, rt) := channel_close_locked ch rt in (ch, rt, Done)
  end.

(** * Specification

    The predicates, orders and runs the statements below are about, and
    the concrete runs they are checked on. *)

(** ** Well-formed runtime states *)

(** [threads] is an array of [MAX_THREADS] slots and [current_thread]
    points into it. *)
Definition table_ok (rt : runtime) : Prop :=
  length (threads rt) = MAX_THREADS ∧ current_thread rt < MAX_THREADS.

(** ** The scheduler *)

(** The order of the specification: one full round over the table that
    starts at the slot after [cur], modulo [MAX_THREADS], and so ends at
    [cur] itself. *)
Definition round_robin_order (cur : nat) : list nat :=
  (λ k, (cur + k) mod MAX_THREADS) <$> seq 1 MAX_THREADS.

(** The first RUNNABLE slot in that order, if there is one. *)
Definition round_robin_pick (rt : runtime) : option nat :=
  find (λ i, is_runnable (threads rt !!! i)) (round_robin_order (current_thread rt)).

(** ** Wait queues *)

(** The array has [MAX_THREADS] entries and [wait_count] counts some of
    them. *)
Definition queue_ok (q : list Z) (n : Z) : Prop :=
  length q = MAX_THREADS ∧ (0 ≤ n ≤ Z.of_nat MAX_THREADS)%Z.

(** ** Waking a dequeued tid *)

(** Waking a list of tids, first to last. *)
Definition wake_all (ws : list Z) (ts : list thread) : list thread :=
  foldl (λ ts w, wake_thread w ts) ts ws.

(** ** The tid discipline of the thread table *)


(** ** Semaphore *)

(** [wait_count] is [max(0, -count)]; [count] is an [int] and the queue
    is inside its array. *)
Definition sem_inv (s : sem_t) : Prop :=
  queue_ok (Sem.wait_queue s) (Sem.wait_count s)
  ∧ (Sem.count s ≤ INT_MAX)%Z
  ∧ Sem.wait_count s = Z.max 0 (- Sem.count s).

(** The semaphores that calls of [sem_wait] and [sem_post] lead to from
    [s0], in any order and from any thread: each call runs in whatever
    state [rt] the runtime is in by then.  A [sem_wait] that stores a tid
    needs room in the array, and a [sem_post] a [count] it can increment.
    The list is of the callers of the [sem_wait] calls that parked and
    that no [sem_post] has woken yet, oldest first. *)
Inductive sem_reach (s0 : sem_t) : sem_t → list Z → Prop :=
  | reach_start :
      sem_reach s0 s0 (waiters (Sem.wait_queue s0) (Sem.wait_count s0))
  | reach_wait (s : sem_t) (pending : list Z) (rt : runtime) :
      sem_reach s0 s pending →
      (Sem.count s ≤ 0 → Sem.wait_count s < Z.of_nat MAX_THREADS)%Z →
      sem_reach s0 (sem_wait s rt).1.1
        (match (sem_wait s rt).2 with
         | Parked => pending ++ [tid (current rt)]
         | Done => pending
         end)
  | reach_post (s : sem_t) (pending : list Z) (rt : runtime) :
      sem_reach s0 s pending →
      (Sem.count s < INT_MAX)%Z →
      sem_reach s0 (sem_post s rt).1
        (if bool_decide (0 < Sem.wait_count s)%Z then tail pending else pending).

(** ** Mutex invariant *)

(** The predicate of the specification: [locked] exactly when
    [owner_tid >= 0], and [owner_tid] is not among the queued tids. *)
Definition mutex_spec_inv (m : mutex_t) : Prop :=
  (Mutex.locked m ≠ 0%Z ↔ (0 ≤ Mutex.owner_tid m)%Z)
  ∧ Mutex.owner_tid m ∉ waiters (Mutex.wait_queue m) (Mutex.wait_count m).

(** The same with what makes it inductive: the queue is inside its array
    and holds tids, none of which is negative. *)
Definition mutex_inv (m : mutex_t) : Prop :=
  queue_ok (Mutex.wait_queue m) (Mutex.wait_count m)
  ∧ Forall (λ w, 0 ≤ w)%Z (waiters (Mutex.wait_queue m) (Mutex.wait_count m))
  ∧ mutex_spec_inv m.

(** ** Who is RUNNING *)

(** Exactly one slot is RUNNING and [current_thread] points to it. *)
Definition one_running (rt : runtime) : Prop :=
  ∀ i, i < MAX_THREADS →
       (state (threads rt !!! i) = T_RUNNING ↔ i = current_thread rt).

(** No slot other than the current one is RUNNING. *)
Definition others_not_running (rt : runtime) : Prop :=
  ∀ i, i < MAX_THREADS → i ≠ current_thread rt →
       state (threads rt !!! i) ≠ T_RUNNING.

(** The statements of the library that write [threads] or
    [current_thread]; every library function is a sequence of them. *)
Inductive rt_prim : runtime → runtime → Prop :=
  | prim_current (f : thread → thread) (rt : runtime) :
      (* current_thread->field = v *)
      rt_prim rt (update_current f rt)
  | prim_wake (w : Z) (rt : runtime) :
      (* the lookup of a dequeued tid *)
      rt_prim rt (with_threads (wake_thread w (threads rt)) rt)
  | prim_create (start_fn arg_ptr : Z) (rt : runtime) :
      rt_prim rt (thread_create start_fn arg_ptr rt).1
  | prim_reap (t : nat) (rt : runtime) :
      (* t->state = T_UNUSED; t->tid = 0; in thread_join *)
      rt_prim rt
        (with_threads
           (alter (set_tid 0) t (alter (set_state T_UNUSED) t (threads rt))) rt)
  | prim_joiners (g : thread → thread) (rt : runtime) :
      (* the loop of thread_exit over the joiners *)
      (∀ t, state (g t) = T_RUNNING → state t = T_RUNNING) →
      rt_prim rt (with_threads (g <$> threads rt) rt)
  | prim_schedule (rt : runtime) :
      rt_prim rt (thread_schedule rt).

(** The states the library leads to from [thread_init]. *)
Definition lib_reachable (rt : runtime) : Prop := rtc rt_prim thread_init rt.

(** ** Channel *)

Definition mutex_queue_ok (m : mutex_t) : Prop :=
  queue_ok (Mutex.wait_queue m) (Mutex.wait_count m).
Definition cond_queue_ok (c : cond_t) : Prop :=
  queue_ok (Cond.wait_queue c) (Cond.wait_count c).

(** The ring of a channel that exists: [capacity] slots, [count] of them
    taken from [read_pos] on, and the three queues inside their arrays. *)
Definition chan_ok (ch : channel_t) : Prop :=
  (0 < Chan.capacity ch ≤ INT_MAX)%Z
  ∧ length (Chan.buffer ch) = Z.to_nat (Chan.capacity ch)
  ∧ (0 ≤ Chan.count ch ≤ Chan.capacity ch)%Z
  ∧ (0 ≤ Chan.read_pos ch < Chan.capacity ch)%Z
  ∧ mutex_queue_ok (Chan.lock ch)
  ∧ cond_queue_ok (Chan.not_empty ch)
  ∧ cond_queue_ok (Chan.not_full ch).

(** The [count] items of a ring from [read_pos] on, oldest first. *)
Definition ring_items (buffer : list Z) (capacity read_pos count : Z) : list Z :=
  (λ k, buffer !!! Z.to_nat ((read_pos + Z.of_nat k) mod capacity))
    <$> seq 0 (Z.to_nat count).

Definition chan_items (ch : channel_t) : list Z :=
  ring_items (Chan.buffer ch) (Chan.capacity ch) (Chan.read_pos ch) (Chan.count ch).

(** A caller that has to queue on the lock finds room in its array. *)
Definition lock_room (ch : channel_t) : Prop :=
  Mutex.locked (Chan.lock ch) ≠ 0%Z →
  (Mutex.wait_count (Chan.lock ch) < Z.of_nat MAX_THREADS)%Z.

(** The states of a channel that calls of [channel_send], [channel_recv]
    and [channel_close] lead to from [ch0], in any order and from any
    thread: each call, and each resumption of a suspended call, runs in
    whatever state [rt] the runtime is in by then.  The list is of the
    values the receives have stored through [data] so far. *)
Inductive chan_reach (ch0 : channel_t) : channel_t → list Z → Prop :=
  | chan_start : chan_reach ch0 ch0 []
  | chan_after_send (ch : channel_t) (out : list Z) (data : Z) (rt : runtime) :
      chan_reach ch0 ch out → lock_room ch →
      chan_reach ch0 (channel_send ch data rt).1.1 out
  | chan_after_recv (ch : channel_t) (out : list Z) (rt : runtime) :
      chan_reach ch0 ch out → lock_room ch →
      chan_reach ch0 (channel_recv ch rt).1.1
        (out ++ match (channel_recv ch rt).2 with
                | Returned (_, Some v) => [v]
                | _ => []
                end)
  | chan_after_close (ch : channel_t) (out : list Z) (rt : runtime) :
      chan_reach ch0 ch out → lock_room ch →
      chan_reach ch0 (channel_close ch rt).1.1 out.

(** One [channel_recv] after the other, each in its own runtime state;
    the results in order. *)
Fixpoint recv_each (rts : list runtime) (ch : channel_t)
  : channel_t * list (outcome (Z * option Z)) :=
  match rts with
  | [] => (ch, [])
  | rt :: rts =>
      let r := channel_recv ch rt in
      let rest := recv_each rts r.1.1 in
      (rest.1, r.2 :: rest.2)
  end.

(** ** Thread ids of live threads *)

(** No two slots in use carry the same tid. *)
Definition tids_unique (rt : runtime) : Prop :=
  ∀ i j, i < MAX_THREADS → j < MAX_THREADS →
         state (threads rt !!! i) ≠ T_UNUSED →
         state (threads rt !!! j) ≠ T_UNUSED →
         tid (threads rt !!! i) = tid (threads rt !!! j) → i = j.

(** The tids in use are unique, not negative and older than [next_tid],
    which has not wrapped around; the current slot is in use. *)
Definition tid_inv (rt : runtime) : Prop :=
  table_ok rt
  ∧ state (current rt) ≠ T_UNUSED
  ∧ (1 ≤ next_tid rt ≤ INT_MAX)%Z
  ∧ (∀ i, i < MAX_THREADS → state (threads rt !!! i) ≠ T_UNUSED →
          (0 ≤ tid (threads rt !!! i) < next_tid rt)%Z)
  ∧ tids_unique rt.

(** The calls of the thread API (Part 1), each made by the current
    thread.  A [thread_join] that was suspended resumes at the test of
    its loop with the slot [t] it had found.  [thread_create] is called
    while [next_tid] can still be incremented. *)
Inductive thread_call : runtime → runtime → Prop :=
  | call_create (start_fn arg_ptr : Z) (rt : runtime) :
      (next_tid rt < INT_MAX)%Z →
      thread_call rt (thread_create start_fn arg_ptr rt).1
  | call_yield (rt : runtime) :
      thread_call rt (thread_yield rt)
  | call_join (tid_arg : Z) (rt : runtime) :
      thread_call rt (thread_join tid_arg rt).1
  | call_join_resume (t : nat) (tid_arg : Z) (rt : runtime) :
      t < MAX_THREADS →
      thread_call rt (thread_join_wait t tid_arg rt).1
  | call_exit (v : Z) (rt : runtime) :
      thread_call rt (thread_exit v rt).

(** A thread whose [thread_exit] found nothing to switch to spins in
    [while(1)] and calls nothing more: every call is made by a current
    thread that is not a zombie. *)
Definition thread_step (rt rt' : runtime) : Prop :=
  state (current rt) ≠ T_ZOMBIE ∧ thread_call rt rt'.

(** The states a program that uses the thread API leads to. *)
Definition thread_api_reachable (rt : runtime) : Prop :=
  rtc thread_step thread_init rt.

(** ** The tids of the whole table *)






(** ** Semaphore units *)

(** One [sem_wait] after the other, each in its own runtime state: the
    runtime each call left and whether it returned or parked. *)
Fixpoint sem_wait_each (rts : list runtime) (s : sem_t)
  : sem_t * list (runtime * progress) :=
  match rts with
  | [] => (s, [])
  | rt :: rts =>
      let r := sem_wait s rt in
      let rest := sem_wait_each rts r.1.1 in
      (rest.1, (r.1.2, r.2) :: rest.2)
  end.

(** ** The ring of a channel *)

(** [write_pos] is [count] slots after [read_pos], around the ring. *)
Definition chan_ring_ok (ch : channel_t) : Prop :=
  chan_ok ch
  ∧ Chan.write_pos ch
    = ((Chan.read_pos ch + Chan.count ch) mod Chan.capacity ch)%Z.

(** A caller that has to wait on a condition variable finds room in its
    array. *)
Definition cond_room (c : cond_t) : Prop :=
  (Cond.wait_count c < Z.of_nat MAX_THREADS)%Z.

(** One [channel_send] after the other, each with its value and in its
    own runtime state; the results in order. *)
Fixpoint send_each (sends : list (Z * runtime)) (ch : channel_t)
  : channel_t * list (outcome Z) :=
  match sends with
  | [] => (ch, [])
  | s :: sends =>
      let r := channel_send ch s.1 s.2 in
      let rest := send_each sends r.1.1 in
      (rest.1, r.2 :: rest.2)
  end.

(** ** Concrete runs *)

(** The bootstrap thread has created two threads and is still running. *)
Definition two_threads : runtime :=
  (thread_create 0 0 (thread_create 0 0 thread_init).1).1.

(** It has yielded: the thread with tid 1 runs. *)
Definition first_thread_runs : runtime := thread_yield two_threads.

(** A mutex the bootstrap thread holds. *)
Definition held_by_bootstrap : mutex_t := (mutex_lock mutex_init two_threads).1.1.

(** The bootstrap thread marks itself T_SLEEPING and calls the scheduler. *)
Definition bootstrap_blocks : runtime :=
  update_current (set_state T_SLEEPING) two_threads.

(** A semaphore of one unit: the bootstrap thread takes it, the thread
    with tid 1 then waits for it, and the bootstrap thread gives it back. *)
Definition sem_taken : sem_t := (sem_wait (sem_init 1) two_threads).1.1.
Definition sem_awaited : sem_t := (sem_wait sem_taken first_thread_runs).1.1.
Definition sem_given_back : sem_t := (sem_post sem_awaited two_threads).1.

(** A channel of three slots that holds 20 and 30, as [channel_create]
    would have laid it out, closed by the bootstrap thread. *)
Definition open_channel : channel_t :=
  Chan.mk [10; 20; 30]%Z 3 2 1 0 0 mutex_init cond_init cond_init.
Definition closed_channel : channel_t := (channel_close open_channel two_threads).1.1.

(** After the close: a send of 99 by the first thread, then a receive. *)
Definition after_send : channel_t :=
  (channel_send closed_channel 99 first_thread_runs).1.1.
Definition after_recv : channel_t := (channel_recv after_send first_thread_runs).1.1.

(** A condition variable on which the threads with tids 2 and 1 wait, in
    that order, both marked T_SLEEPING. *)
Definition two_waiters : cond_t :=
  Cond.mk ([2; 1]%Z ++ replicate 14 (-1)%Z) 2.
Definition both_sleeping : runtime :=
  with_threads
    (alter (set_state T_SLEEPING) 1
       (alter (set_state T_SLEEPING) 2 (threads two_threads)))
    two_threads.

(** The bootstrap thread has created one thread and yielded to it. *)
Definition joiner_runs : runtime := thread_yield (thread_create 0 0 thread_init).1.

(** The created thread has run and called [thread_exit]: its slot is a
    zombie and the bootstrap thread runs again. *)
Definition zombie_waits : runtime := thread_exit 5 joiner_runs.

(** A recursive [mutex_lock]: with a second thread to switch to, the
    bootstrap thread takes a fresh mutex and locks it again. *)
Definition recursive_lock_runtime : runtime := (thread_create 0 0 thread_init).1.
Definition recursive_lock_mutex : mutex_t :=
  (mutex_lock mutex_init recursive_lock_runtime).1.1.

(** The bootstrap thread, alone, has waited on a semaphore of count 0,
    has gone on to create a thread, and has yielded to it. *)
Definition waited_alone : sem_t := (sem_wait (sem_init 0) thread_init).1.1.
Definition went_on : runtime :=
  thread_yield (thread_create 0 0 (sem_wait (sem_init 0) thread_init).1.2).1.

(** A caller that is queued on the mutex it takes.  The bootstrap thread,
    alone, waits on a semaphore of count 0: the scheduler finds nothing to
    run and returns, and the thread goes on with its tid in the queue of
    the semaphore.  It creates a thread and yields to it; that thread
    takes a mutex and yields back.  The bootstrap thread parks on the
    mutex; the other thread posts the semaphore, which wakes the bootstrap
    thread, and yields; the bootstrap thread finds the mutex held and
    parks on it a second time; the other thread unlocks, which takes one
    of the two entries off the queue, and yields.  [requeued_mutex] and
    [requeued_runtime] are the mutex and the runtime in which the
    bootstrap thread then runs its test of [locked] again. *)
Definition requeued_mutex : mutex_t :=
  let '(s1, rt, _) := sem_wait (sem_init 0) thread_init in
  let rt := (thread_create 0 0 rt).1 in
  let rt := thread_yield rt in
  let '(m, rt, _) := mutex_lock mutex_init rt in
  let rt := thread_yield rt in
  let '(m, rt, _) := mutex_lock m rt in
  let '(s2, rt) := sem_post s1 rt in
  let rt := thread_yield rt in
  let '(m, rt, _) := mutex_lock m rt in
  (mutex_unlock m rt).1.
Definition requeued_runtime : runtime :=
  let '(s1, rt, _) := sem_wait (sem_init 0) thread_init in
  let rt := (thread_create 0 0 rt).1 in
  let rt := thread_yield rt in
  let '(m, rt, _) := mutex_lock mutex_init rt in
  let rt := thread_yield rt in
  let '(m, rt, _) := mutex_lock m rt in
  let '(s2, rt) := sem_post s1 rt in
  let rt := thread_yield rt in
  let '(m, rt, _) := mutex_lock m rt in
  thread_yield (mutex_unlock m rt).2.

(** The bootstrap thread has called [thread_exit] with a null value while
    a second thread exists; that thread now runs. *)
Definition bootstrap_exited : runtime :=
  thread_exit 0 (thread_create 0 0 thread_init).1.

(** ** Further concrete runs *)

(** The bootstrap thread has created one thread and is still running. *)
Definition one_created : runtime := (thread_create 0 0 thread_init).1.

(** The bootstrap thread has created fifteen threads: no slot is free. *)
Definition full_table : runtime :=
  Nat.iter 15 (λ rt, (thread_create 0 0 rt).1) thread_init.

(** The bootstrap thread has created a thread and joined it: the
    bootstrap thread sleeps and the created thread runs. *)
Definition joined_first : runtime := (thread_join 1 one_created).1.



(** A channel of three slots that is full, and one that is empty, both
    open and with the lock free. *)
Definition full_channel : channel_t :=
  Chan.mk [10; 20; 30]%Z 3 3 1 1 0 mutex_init cond_init cond_init.
Definition empty_channel : channel_t :=
  Chan.mk [10; 20; 30]%Z 3 0 1 1 0 mutex_init cond_init cond_init.

(** * Properties *)

(** ** Machine integers *)

Lemma int_wrap_small (x : Z) :
  (INT_MIN ≤ x ≤ INT_MAX)%Z → int_wrap x = x.
Proof.
  unfold INT_MIN, INT_MAX, int_wrap. intros Hx.
  rewrite Z.mod_small; lia.
Qed.

(** ** The slot scan *)

Lemma scan_slots_find (P : thread → bool) (ts : list thread) (i n : nat) :
  scan_slots P ts i n = find (λ j, P (ts !!! j)) (seq i n).
Proof.
  revert i. induction n as [|n IH]; intros i; simpl; [done|].
  destruct (P (ts !!! i)); [done|]. apply IH.
Qed.

Lemma scan_slots_Some (P : thread → bool) (ts : list thread) (i n k : nat) :
  scan_slots P ts i n = Some k ↔
  i ≤ k < i + n ∧ P (ts !!! k) = true ∧ ∀ j, i ≤ j < k → P (ts !!! j) = false.
Proof.
  revert i. induction n as [|n IH]; intros i; simpl.
  - split; [done | lia].
  - destruct (P (ts !!! i)) eqn:HP.
    + split.
      * intros [= <-]. split; [lia|]. split; [done|]. lia.
      * intros (Hk & HPk & Hlt). f_equal.
        destruct (decide (i = k)) as [|Hne]; [done|].
        rewrite Hlt in HP; [done | lia].
    + rewrite IH. split.
      * intros (Hk & HPk & Hlt). split; [lia|]. split; [done|].
        intros j Hj. destruct (decide (j = i)) as [->|]; [done|]. apply Hlt. lia.
      * intros (Hk & HPk & Hlt).
        assert (i ≠ k) by (intros ->; congruence).
        split; [lia|]. split; [done|]. intros j Hj. apply Hlt. lia.
Qed.

Lemma scan_slots_None (P : thread → bool) (ts : list thread) (i n : nat) :
  scan_slots P ts i n = None ↔ ∀ j, i ≤ j < i + n → P (ts !!! j) = false.
Proof.
  revert i. induction n as [|n IH]; intros i; simpl.
  - split; [lia | done].
  - destruct (P (ts !!! i)) eqn:HP.
    + split; [done|]. intros H. rewrite H in HP; [done | lia].
    + rewrite IH. split.
      * intros H j Hj. destruct (decide (j = i)) as [->|]; [done|]. apply H. lia.
      * intros H j Hj. apply H. lia.
Qed.

Lemma for_slots_all_Some (P : thread → bool) (ts : list thread) (k : nat) :
  for_slots P ts 0 MAX_THREADS = Some k ↔
  k < MAX_THREADS ∧ P (ts !!! k) = true ∧ ∀ j, j < k → P (ts !!! j) = false.
Proof.
  unfold for_slots. rewrite scan_slots_Some, Nat.sub_0_r. split.
  - intros (Hk & HP & Hlt). split; [lia|]. split; [done|]. intros j Hj. apply Hlt. lia.
  - intros (Hk & HP & Hlt). split; [lia|]. split; [done|]. intros j Hj. apply Hlt. lia.
Qed.

Lemma for_slots_all_None (P : thread → bool) (ts : list thread) :
  for_slots P ts 0 MAX_THREADS = None ↔
  ∀ j, j < MAX_THREADS → P (ts !!! j) = false.
Proof.
  unfold for_slots. rewrite scan_slots_None, Nat.sub_0_r. split.
  - intros H j Hj. apply H. lia.
  - intros H j Hj. apply H. lia.
Qed.

Lemma find_app {A : Type} (f : A → bool) (l1 l2 : list A) :
  find f (l1 ++ l2) =
  match find f l1 with Some x => Some x | None => find f l2 end.
Proof.
  induction l1 as [|x l1 IH]; simpl; [done|]. by destruct (f x).
Qed.

Lemma thread_init_table_ok : table_ok thread_init.
Proof. split; [reflexivity | unfold MAX_THREADS; simpl; lia]. Qed.

(** ** The scheduler *)

Lemma round_robin_order_split (cur : nat) :
  cur < MAX_THREADS →
  round_robin_order cur =
    seq ((cur + 1) mod MAX_THREADS) (MAX_THREADS - (cur + 1) mod MAX_THREADS)
    ++ seq 0 ((cur + 1) mod MAX_THREADS).
Proof.
  unfold MAX_THREADS. intros Hcur.
  do 16 (destruct cur as [|cur]; [reflexivity|]). lia.
Qed.

Lemma round_robin_order_bound (cur i : nat) :
  In i (round_robin_order cur) → i < MAX_THREADS.
Proof.
  unfold round_robin_order. rewrite <- list_elem_of_In, list_elem_of_fmap.
  intros (k & -> & _). apply Nat.mod_upper_bound. unfold MAX_THREADS. lia.
Qed.

Lemma round_robin_order_current (cur : nat) :
  cur < MAX_THREADS → In cur (round_robin_order cur).
Proof.
  intros Hcur. rewrite round_robin_order_split by done.
  assert ((cur + 1) mod MAX_THREADS < MAX_THREADS)
    by (apply Nat.mod_upper_bound; unfold MAX_THREADS; lia).
  rewrite in_app_iff, !in_seq. lia.
Qed.

(** The round visits every slot, and none twice. *)
Lemma round_robin_order_once (cur : nat) :
  cur < MAX_THREADS →
  NoDup (round_robin_order cur)
  ∧ ∀ i, i < MAX_THREADS → i ∈ round_robin_order cur.
Proof.
  intros Hcur. rewrite round_robin_order_split by done.
  assert ((cur + 1) mod MAX_THREADS < MAX_THREADS) as Hstart
    by (apply Nat.mod_upper_bound; unfold MAX_THREADS; lia).
  split.
  - apply NoDup_app. split; [apply NoDup_seq|]. split; [|apply NoDup_seq].
    intros i. rewrite !elem_of_seq. lia.
  - intros i Hi. rewrite elem_of_app, !elem_of_seq. lia.
Qed.

Lemma find_runnable_thread_pick (rt : runtime) :
  table_ok rt → find_runnable_thread rt = round_robin_pick rt.
Proof.
  intros [_ Hcur]. unfold find_runnable_thread, round_robin_pick, for_slots.
  rewrite !scan_slots_find, round_robin_order_split by done.
  rewrite find_app, Nat.sub_0_r.
  set (f := λ j, is_runnable (threads rt !!! j)).
  set (start_idx := (current_thread rt + 1) mod MAX_THREADS).
  destruct (find f (seq start_idx (MAX_THREADS - start_idx))) eqn:H1; [done|].
  destruct (find f (seq 0 start_idx)) eqn:H2; [done|].
  assert (f (current_thread rt) = false) as Hf.
  { assert (start_idx < MAX_THREADS)
      by (apply Nat.mod_upper_bound; unfold MAX_THREADS; lia).
    destruct (decide (start_idx ≤ current_thread rt)).
    - apply (find_none _ _ H1). rewrite in_seq. lia.
    - apply (find_none _ _ H2). rewrite in_seq. lia. }
  unfold f, is_runnable, current in *. by rewrite Hf.
Qed.

Lemma round_robin_pick_Some (rt : runtime) (next : nat) :
  round_robin_pick rt = Some next →
  next < MAX_THREADS ∧ state (threads rt !!! next) = T_RUNNABLE.
Proof.
  intros H. apply find_some in H as [Hin Hrun]. split.
  - by eapply round_robin_order_bound.
  - unfold is_runnable in Hrun. by apply bool_decide_eq_true in Hrun.
Qed.

Lemma round_robin_pick_None (rt : runtime) :
  round_robin_pick rt = None ↔
  ∀ i, In i (round_robin_order (current_thread rt)) →
       state (threads rt !!! i) ≠ T_RUNNABLE.
Proof.
  unfold round_robin_pick. split.
  - intros H i Hi. apply (find_none _ _ H) in Hi.
    unfold is_runnable in Hi. by apply bool_decide_eq_false in Hi.
  - intros H. destruct (find _ _) eqn:Hf; [|done].
    apply find_some in Hf as [Hin Hrun]. unfold is_runnable in Hrun.
    apply bool_decide_eq_true in Hrun. by apply H in Hin.
Qed.

(** The store of [thread_switch] to [old->sp] changes no other field of
    any slot. *)
Lemma set_sp_fields (v : stack_ptr) (k i : nat) (ts : list thread) :
  let t := ts !!! i in
  let t' := alter (set_sp v) k ts !!! i in
  tid t' = tid t ∧ state t' = state t ∧ start_routine t' = start_routine t
  ∧ arg t' = arg t ∧ retval t' = retval t ∧ joined_tid t' = joined_tid t.
Proof.
  simpl. destruct (decide (k = i)) as [->|Hne].
  - rewrite !list_lookup_total_alt, list_lookup_alter.
    destruct (ts !! i); simpl; case_decide; simpl; repeat split;
      (reflexivity || done).
  - by rewrite list_lookup_total_alter_ne by done.
Qed.

Lemma set_sp_state (v : stack_ptr) (k i : nat) (ts : list thread) :
  state (alter (set_sp v) k ts !!! i) = state (ts !!! i).
Proof. apply set_sp_fields. Qed.

Lemma set_sp_tid (v : stack_ptr) (k i : nat) (ts : list thread) :
  tid (alter (set_sp v) k ts !!! i) = tid (ts !!! i).
Proof. apply set_sp_fields. Qed.

(** The same for the store as [thread_schedule] performs it, on a switch
    only. *)
Lemma saved_sp_state (b : bool) (v : stack_ptr) (k i : nat) (ts : list thread) :
  state ((if b then id else alter (set_sp v) k) ts !!! i) = state (ts !!! i).
Proof. destruct b; [done | apply set_sp_state]. Qed.

Lemma saved_sp_tid (b : bool) (v : stack_ptr) (k i : nat) (ts : list thread) :
  tid ((if b then id else alter (set_sp v) k) ts !!! i) = tid (ts !!! i).
Proof. destruct b; [done | apply set_sp_tid]. Qed.

Lemma saved_sp_other (b : bool) (v : stack_ptr) (k i : nat) (ts : list thread) :
  i ≠ k → (if b then id else alter (set_sp v) k) ts !!! i = ts !!! i.
Proof. intros Hne. destruct b; [done|]. by rewrite list_lookup_total_alter_ne. Qed.

(** What a successful [thread_schedule] writes. *)
Lemma thread_schedule_Some (rt : runtime) (next : nat) :
  find_runnable_thread rt = Some next →
  thread_schedule rt =
    mkRuntime
      ((if bool_decide (current_thread rt = next) then id
        else alter (set_sp (SpSaved (length (switch_log rt)))) (current_thread rt))
         (alter (set_state T_RUNNING) next
            (if bool_decide (state (current rt) = T_RUNNING)
             then alter (set_state T_RUNNABLE) (current_thread rt) (threads rt)
             else threads rt)))
      next (next_tid rt)
      (if bool_decide (current_thread rt = next) then switch_log rt
       else switch_log rt ++ [(current_thread rt, next)]).
Proof.
  unfold thread_schedule. intros ->. cbv zeta.
  destruct (decide (current_thread rt = next)) as [Heq|Hne].
  - rewrite (bool_decide_eq_false_2 (current_thread rt ≠ next)) by auto.
    by rewrite !(bool_decide_eq_true_2 (current_thread rt = next)) by done.
  - rewrite (bool_decide_eq_true_2 (current_thread rt ≠ next)) by done.
    by rewrite !(bool_decide_eq_false_2 (current_thread rt = next)) by done.
Qed.

(** The state and the other fields the C code writes in the slot [i]
    after a successful [thread_schedule]: those of the slot before, with
    the state of the old current slot and of the selected one rewritten. *)
Lemma thread_schedule_Some_table (rt : runtime) (next : nat) :
  find_runnable_thread rt = Some next →
  let ts := alter (set_state T_RUNNING) next
              (if bool_decide (state (current rt) = T_RUNNING)
               then alter (set_state T_RUNNABLE) (current_thread rt) (threads rt)
               else threads rt) in
  length (threads (thread_schedule rt)) = length (threads rt)
  ∧ ∀ i, let t := ts !!! i in
         let t' := threads (thread_schedule rt) !!! i in
         tid t' = tid t ∧ state t' = state t
         ∧ start_routine t' = start_routine t ∧ arg t' = arg t
         ∧ retval t' = retval t ∧ joined_tid t' = joined_tid t
         ∧ (i ≠ current_thread rt ∨ current_thread rt = next → t' = t).
Proof.
  intros Hnext ts. rewrite (thread_schedule_Some rt next Hnext). simpl.
  fold ts. assert (length ts = length (threads rt)) as Hlen.
  { unfold ts. rewrite length_alter. case_bool_decide; by rewrite ?length_alter. }
  case_bool_decide as Hc; simpl.
  - split; [done|]. intros i. by repeat split.
  - rewrite length_alter. split; [done|]. intros i.
    pose proof (set_sp_fields (SpSaved (length (switch_log rt)))
                  (current_thread rt) i ts) as (H1 & H2 & H3 & H4 & H5 & H6).
    repeat (split; [done|]). intros [Hi|Hi]; [|done].
    by rewrite list_lookup_total_alter_ne by done.
Qed.

Lemma thread_schedule_None (rt : runtime) :
  find_runnable_thread rt = None → thread_schedule rt = rt.
Proof. unfold thread_schedule. by intros ->. Qed.

Lemma length_schedule_table (rt : runtime) :
  length (threads (thread_schedule rt)) = length (threads rt).
Proof.
  destruct (find_runnable_thread rt) as [next|] eqn:Hnext.
  - apply (thread_schedule_Some_table rt next Hnext).
  - by rewrite thread_schedule_None.
Qed.

(** A slot that is T_SLEEPING is not touched by the C code of the
    scheduler; if it is the caller's, a switch away from it saves its
    stack pointer. *)
Lemma thread_schedule_keeps_sleeping (rt : runtime) (i : nat) :
  table_ok rt → state (threads rt !!! i) = T_SLEEPING →
  let t := threads rt !!! i in
  let t' := threads (thread_schedule rt) !!! i in
  tid t' = tid t ∧ state t' = state t
  ∧ start_routine t' = start_routine t ∧ arg t' = arg t
  ∧ retval t' = retval t ∧ joined_tid t' = joined_tid t
  ∧ (i ≠ current_thread rt → t' = t).
Proof.
  intros Hok Hi. destruct (find_runnable_thread rt) as [next|] eqn:Hnext.
  - pose proof (thread_schedule_Some_table rt next Hnext) as [_ Hslot].
    specialize (Hslot i). cbv zeta in Hslot.
    rewrite find_runnable_thread_pick in Hnext by done.
    apply round_robin_pick_Some in Hnext as [_ Hrun].
    assert (alter (set_state T_RUNNING) next
              (if bool_decide (state (current rt) = T_RUNNING)
               then alter (set_state T_RUNNABLE) (current_thread rt) (threads rt)
               else threads rt) !!! i = threads rt !!! i) as Heq.
    { rewrite list_lookup_total_alter_ne by (intros ->; congruence).
      case_bool_decide as Hc; [|done].
      rewrite list_lookup_total_alter_ne; [done|].
      intros <-. unfold current in Hc. congruence. }
    rewrite Heq in Hslot. cbv zeta.
    destruct Hslot as (H1 & H2 & H3 & H4 & H5 & H6 & H7).
    repeat (split; [done|]). intros Hne. apply H7. by left.
  - rewrite thread_schedule_None by done. cbv zeta. by repeat split.
Qed.

(** A caller that marks itself T_SLEEPING and calls the scheduler is
    still marked so when the scheduler is done. *)
Lemma block_current_sleeping (rt : runtime) :
  table_ok rt →
  state (threads (thread_schedule (update_current (set_state T_SLEEPING) rt))
         !!! current_thread rt) = T_SLEEPING.
Proof.
  intros [Hlen Hcur].
  assert (state (threads (update_current (set_state T_SLEEPING) rt)
                 !!! current_thread rt) = T_SLEEPING) as Hmarked.
  { unfold update_current. simpl. by rewrite list_lookup_total_alter_eq by lia. }
  assert (table_ok (update_current (set_state T_SLEEPING) rt)) as Hok'.
  { split; [|done]. unfold update_current. simpl. by rewrite length_alter. }
  destruct (thread_schedule_keeps_sleeping _ (current_thread rt) Hok' Hmarked)
    as (_ & -> & _). done.
Qed.

(** C2.  For a table of [MAX_THREADS] slots with [current_thread] in it,
    [thread_schedule] selects by strict round-robin: [find_runnable_thread]
    returns the first RUNNABLE slot of the round that starts after
    [current_thread] and ends at it, and that slot becomes RUNNING and
    current, with a [thread_switch] exactly when it is not the old current;
    when [current_thread] is the only RUNNABLE slot it continues without a
    switch; when no slot is RUNNABLE the call leaves the runtime as it is.
    The round visits every slot of the table once. *)
Theorem thread_schedule_round_robin (rt : runtime) :
  table_ok rt →
  let cur := current_thread rt in
  let rt' := thread_schedule rt in
  find_runnable_thread rt = round_robin_pick rt
  ∧ (∀ next, round_robin_pick rt = Some next →
       current_thread rt' = next
       ∧ state (current rt') = T_RUNNING
       ∧ switch_log rt' = (if bool_decide (cur = next) then switch_log rt
                           else switch_log rt ++ [(cur, next)]))
  ∧ (state (current rt) = T_RUNNABLE →
     (∀ i, i < MAX_THREADS → i ≠ cur → state (threads rt !!! i) ≠ T_RUNNABLE) →
       round_robin_pick rt = Some cur
       ∧ current_thread rt' = cur
       ∧ state (current rt') = T_RUNNING
       ∧ switch_log rt' = switch_log rt)
  ∧ ((∀ i, i < MAX_THREADS → state (threads rt !!! i) ≠ T_RUNNABLE) →
       round_robin_pick rt = None ∧ rt' = rt)
  ∧ NoDup (round_robin_order cur)
  ∧ (∀ i, i < MAX_THREADS → i ∈ round_robin_order cur).
Proof.
  intros Hok cur rt'. pose proof (find_runnable_thread_pick rt Hok) as Hpick.
  pose proof (round_robin_order_once cur (proj2 Hok)) as [Hnodup Hall].
  assert (∀ next, round_robin_pick rt = Some next →
       current_thread rt' = next
       ∧ state (current rt') = T_RUNNING
       ∧ switch_log rt' = (if bool_decide (cur = next) then switch_log rt
                           else switch_log rt ++ [(cur, next)])) as Hsome.
  { intros next Hnext. pose proof (round_robin_pick_Some _ _ Hnext) as [Hlt _].
    assert (find_runnable_thread rt = Some next) as Hfind by congruence.
    pose proof (thread_schedule_Some_table rt next Hfind) as [_ Hslot].
    specialize (Hslot next). cbv zeta in Hslot.
    destruct Hslot as (_ & Hstate & _).
    subst rt'. unfold current. rewrite (thread_schedule_Some rt next Hfind).
    simpl. rewrite (thread_schedule_Some rt next Hfind) in Hstate.
    simpl in Hstate. split; [done|]. split; [|done].
    rewrite Hstate. clear Hstate. destruct Hok as [Hlen _].
    rewrite list_lookup_total_alter_eq; [done|].
    case_bool_decide; rewrite ?length_alter; lia. }
  split; [done|]. split; [done|]. split; [|split; [|done]].
  - intros Hcur Hothers.
    assert (round_robin_pick rt = Some cur) as Hc.
    { destruct (round_robin_pick rt) as [next|] eqn:Hp.
      - apply round_robin_pick_Some in Hp as [Hlt Hrun]. f_equal.
        destruct (decide (next = cur)) as [|Hne]; [done|].
        by destruct (Hothers next Hlt Hne).
      - rewrite round_robin_pick_None in Hp.
        destruct (Hp cur); [|done].
        apply round_robin_order_current. apply Hok. }
    destruct (Hsome cur Hc) as (H1 & H2 & H3).
    rewrite bool_decide_eq_true_2 in H3 by done. done.
  - intros Hnone.
    assert (round_robin_pick rt = None) as Hn.
    { apply round_robin_pick_None. intros i Hi. apply Hnone.
      by eapply round_robin_order_bound. }
    split; [done|]. apply thread_schedule_None. congruence.
Qed.

(** ** Wait queues *)

Lemma length_shift_loop (q : list Z) (i n : nat) :
  length (shift_loop q i n) = length q.
Proof.
  revert q i. induction n as [|n IH]; intros q i; simpl; [done|].
  by rewrite IH, length_insert.
Qed.

Lemma shift_loop_lookup (q : list Z) (i n k : nat) :
  i + n < length q →
  shift_loop q i n !! k =
  if decide (i ≤ k < i + n) then q !! S k else q !! k.
Proof.
  revert q i. induction n as [|n IH]; intros q i Hlen; simpl.
  - case_decide; [lia | done].
  - rewrite IH by (rewrite length_insert; lia).
    destruct (decide (k = i)) as [->|Hne].
    + rewrite decide_False by lia. rewrite decide_True by lia.
      rewrite list_lookup_insert_eq by lia.
      symmetry. apply list_lookup_lookup_total_lt. lia.
    + destruct (decide (S i ≤ k < S i + n)).
      * rewrite decide_True by lia. apply list_lookup_insert_ne. lia.
      * rewrite decide_False by lia. apply list_lookup_insert_ne. lia.
Qed.

Lemma queue_push_ok (q : list Z) (n v : Z) :
  queue_ok q n → (n < Z.of_nat MAX_THREADS)%Z →
  queue_ok (queue_push q n v).1 (queue_push q n v).2
  ∧ (queue_push q n v).2 = (n + 1)%Z
  ∧ waiters (queue_push q n v).1 (queue_push q n v).2 = waiters q n ++ [v].
Proof.
  unfold queue_ok, queue_push, waiters, arr_store, MAX_THREADS.
  intros [Hlen Hn] Hlt. simpl.
  rewrite int_wrap_small by (unfold INT_MIN, INT_MAX; lia).
  rewrite bool_decide_eq_true_2 by lia.
  split; [rewrite length_insert; lia|]. split; [done|].
  replace (Z.to_nat (n + 1)) with (S (Z.to_nat n)) by lia.
  apply list_eq. intros k.
  rewrite lookup_take. destruct (decide (k < Z.to_nat n)).
  - rewrite decide_True by lia.
    rewrite list_lookup_insert_ne by lia.
    rewrite lookup_app_l by (rewrite length_take; lia).
    by rewrite lookup_take_lt.
  - destruct (decide (k = Z.to_nat n)) as [->|].
    + rewrite decide_True by lia. rewrite list_lookup_insert_eq by lia.
      rewrite lookup_app_r by (rewrite length_take; lia).
      rewrite length_take. by replace (_ - _) with 0 by lia.
    + rewrite decide_False by lia. symmetry. apply lookup_ge_None.
      rewrite length_app, length_take. simpl. lia.
Qed.

Lemma queue_pop_ok (q : list Z) (n : Z) :
  queue_ok q n → (0 < n)%Z →
  queue_ok (queue_pop q n).1 (queue_pop q n).2
  ∧ (queue_pop q n).2 = (n - 1)%Z
  ∧ waiters q n = q !!! 0 :: waiters (queue_pop q n).1 (queue_pop q n).2.
Proof.
  unfold queue_ok, queue_pop, waiters, MAX_THREADS.
  intros [Hlen Hn] Hpos. simpl.
  rewrite int_wrap_small by (unfold INT_MIN, INT_MAX; lia).
  split; [rewrite length_shift_loop; lia|]. split; [done|].
  apply list_eq. intros k. destruct k as [|k]; simpl.
  - rewrite lookup_take_lt by lia. apply list_lookup_lookup_total_lt. lia.
  - rewrite !lookup_take. destruct (decide (k < Z.to_nat (n - 1))).
    + rewrite decide_True by lia.
      rewrite shift_loop_lookup by lia. by rewrite decide_True by lia.
    + by rewrite decide_False by lia.
Qed.

(** ** Waking a dequeued tid *)

Lemma length_wake_thread (w : Z) (ts : list thread) :
  length (wake_thread w ts) = length ts.
Proof.
  unfold wake_thread. destruct (for_slots _ _ _ _); [apply length_alter | done].
Qed.

(** The lookup stops at the first slot that carries the tid. *)
Lemma wake_thread_first (w : Z) (ts : list thread) (i : nat) :
  i < MAX_THREADS → tid (ts !!! i) = w →
  (∀ j, j < i → tid (ts !!! j) ≠ w) →
  wake_thread w ts = alter (set_state T_RUNNABLE) i ts.
Proof.
  intros Hi Htid Hfirst. unfold wake_thread.
  assert (for_slots (λ t, bool_decide (tid t = w)) ts 0 MAX_THREADS = Some i) as ->; [|done].
  apply for_slots_all_Some. split; [done|]. split.
  - by apply bool_decide_eq_true.
  - intros j Hj. apply bool_decide_eq_false. by apply Hfirst.
Qed.


(** Either way of the lookup, as one statement. *)
Lemma wake_thread_cases (w : Z) (ts : list thread) :
  (∃ i, i < MAX_THREADS ∧ tid (ts !!! i) = w
        ∧ (∀ j, j < i → tid (ts !!! j) ≠ w)
        ∧ wake_thread w ts = alter (set_state T_RUNNABLE) i ts)
  ∨ ((∀ j, j < MAX_THREADS → tid (ts !!! j) ≠ w) ∧ wake_thread w ts = ts).
Proof.
  unfold wake_thread.
  destruct (for_slots _ ts 0 MAX_THREADS) as [i|] eqn:Hscan.
  - left. exists i. apply for_slots_all_Some in Hscan as (Hi & Htid & Hfirst).
    apply bool_decide_eq_true in Htid. repeat split; try done.
    intros j Hj. specialize (Hfirst j Hj). by apply bool_decide_eq_false in Hfirst.
  - right. split; [|done]. intros j Hj.
    rewrite for_slots_all_None in Hscan. specialize (Hscan j Hj).
    by apply bool_decide_eq_false in Hscan.
Qed.

Lemma wake_thread_tid (w : Z) (ts : list thread) (j : nat) :
  tid (wake_thread w ts !!! j) = tid (ts !!! j).
Proof.
  destruct (wake_thread_cases w ts) as [(i & _ & _ & _ & ->)|[_ ->]]; [|done].
  rewrite list_lookup_total_alter. by destruct (decide _) as [[-> _]|].
Qed.

Lemma wake_thread_keeps_runnable (w : Z) (ts : list thread) (j : nat) :
  state (ts !!! j) = T_RUNNABLE → state (wake_thread w ts !!! j) = T_RUNNABLE.
Proof.
  intros Hj.
  destruct (wake_thread_cases w ts) as [(i & _ & _ & _ & ->)|[_ ->]]; [|done].
  rewrite list_lookup_total_alter. by destruct (decide _) as [[-> _]|].
Qed.

(** No wake makes a slot RUNNING. *)
Lemma wake_thread_running (w : Z) (ts : list thread) (j : nat) :
  state (wake_thread w ts !!! j) = T_RUNNING → state (ts !!! j) = T_RUNNING.
Proof.
  destruct (wake_thread_cases w ts) as [(i & _ & _ & _ & ->)|[_ ->]]; [|done].
  rewrite list_lookup_total_alter. by destruct (decide _) as [[-> _]|].
Qed.

Lemma wake_thread_first_runnable (w : Z) (ts : list thread) (i : nat) :
  length ts = MAX_THREADS →
  i < MAX_THREADS → tid (ts !!! i) = w →
  (∀ j, j < i → tid (ts !!! j) ≠ w) →
  state (wake_thread w ts !!! i) = T_RUNNABLE.
Proof.
  intros Hlen Hi Htid Hfirst. rewrite (wake_thread_first w ts i) by done.
  rewrite list_lookup_total_alter_eq by lia. done.
Qed.



Lemma wake_all_keeps_runnable (ws : list Z) (ts : list thread) (j : nat) :
  state (ts !!! j) = T_RUNNABLE → state (wake_all ws ts !!! j) = T_RUNNABLE.
Proof.
  revert ts. induction ws as [|w ws IH]; intros ts Hj; [done|].
  unfold wake_all in *. simpl. by apply IH, wake_thread_keeps_runnable.
Qed.

Lemma wake_all_runnable (ws : list Z) (ts : list thread) (w : Z) (i : nat) :
  length ts = MAX_THREADS →
  w ∈ ws → i < MAX_THREADS → tid (ts !!! i) = w →
  (∀ j, j < i → tid (ts !!! j) ≠ w) →
  state (wake_all ws ts !!! i) = T_RUNNABLE.
Proof.
  revert ts. induction ws as [|w0 ws IH]; intros ts Hlen Hin Hi Htid Hfirst.
  - by apply elem_of_nil in Hin.
  - unfold wake_all in *. simpl. apply elem_of_cons in Hin as [<-|Hin].
    + by apply (wake_all_keeps_runnable ws), wake_thread_first_runnable.
    + apply IH; try done.
      * by rewrite length_wake_thread.
      * by rewrite wake_thread_tid.
      * intros j Hj. rewrite wake_thread_tid. by apply Hfirst.
Qed.

(** ** The channel constructor *)

(** C1.  Whatever the capacity, [channel_create] returns the null pointer:
    no channel object and no ring is allocated and no field is set. *)
Theorem channel_create_returns_null (capacity : Z) :
  channel_create capacity = None.
Proof. reflexivity. Qed.

(** ** Mutex *)

(** C7.  Called by a thread that is not the owner, [mutex_unlock] returns
    the mutex and the runtime as they were: [locked], [owner_tid], the
    wait queue, [wait_count] and every thread's state are unchanged. *)
Theorem mutex_unlock_not_owner (m : mutex_t) (rt : runtime) :
  Mutex.owner_tid m ≠ tid (current rt) →
  mutex_unlock m rt = (m, rt).
Proof.
  intros Hne. unfold mutex_unlock. by rewrite bool_decide_eq_true_2.
Qed.

(** ** Condition variable *)

Lemma cond_broadcast_loop_spec (fuel : nat) (c : cond_t) (rt : runtime) :
  queue_ok (Cond.wait_queue c) (Cond.wait_count c) →
  Z.to_nat (Cond.wait_count c) = fuel →
  let ws := waiters (Cond.wait_queue c) (Cond.wait_count c) in
  Cond.wait_count (cond_broadcast_loop fuel c rt).1 = 0%Z
  ∧ length (Cond.wait_queue (cond_broadcast_loop fuel c rt).1) = MAX_THREADS
  ∧ (cond_broadcast_loop fuel c rt).2 = with_threads (wake_all ws (threads rt)) rt.
Proof.
  revert c rt. induction fuel as [|fuel IH]; intros c rt Hok Hfuel ws.
  - destruct Hok as [Hlen Hn]. simpl. split; [lia|]. split; [done|].
    subst ws. unfold waiters. rewrite Hfuel. by destruct rt.
  - destruct (queue_pop_ok _ _ Hok) as (Hok' & Hn' & Hws); [lia|].
    unfold queue_pop in Hok', Hn', Hws. simpl in Hok', Hn', Hws.
    simpl. rewrite bool_decide_eq_true_2 by lia.
    unfold queue_pop. simpl.
    specialize (IH (Cond.mk _ _)
                  (with_threads (wake_thread (Cond.wait_queue c !!! 0) (threads rt)) rt)
                  Hok' ltac:(simpl; lia)).
    simpl in IH. destruct IH as (IH1 & IH2 & IH3).
    split; [done|]. split; [done|].
    rewrite IH3. subst ws. rewrite Hws. done.
Qed.

Lemma wake_thread_other (w : Z) (ts : list thread) (i : nat) :
  tid (ts !!! i) ≠ w → wake_thread w ts !!! i = ts !!! i.
Proof.
  intros Hne.
  destruct (wake_thread_cases w ts) as [(k & Hk & Htid & _ & ->)|[_ ->]]; [|done].
  rewrite list_lookup_total_alter_ne; [done|]. intros ->. done.
Qed.

Lemma wake_all_other (ws : list Z) (ts : list thread) (i : nat) :
  tid (ts !!! i) ∉ ws → wake_all ws ts !!! i = ts !!! i.
Proof.
  revert ts. induction ws as [|w ws IH]; intros ts Hnot; [done|].
  apply not_elem_of_cons in Hnot as [Hne Hnot].
  unfold wake_all in *. simpl. rewrite IH.
  - by apply wake_thread_other.
  - by rewrite wake_thread_tid.
Qed.

(** The loop of [cond_broadcast] after [k] of its rounds: the [k] oldest
    tids have left the queue and have been woken, oldest first, and the
    others are queued as they were. *)
Lemma cond_broadcast_loop_rounds (k : nat) (c : cond_t) (rt : runtime) :
  queue_ok (Cond.wait_queue c) (Cond.wait_count c) →
  k ≤ Z.to_nat (Cond.wait_count c) →
  let ws := waiters (Cond.wait_queue c) (Cond.wait_count c) in
  let c' := (cond_broadcast_loop k c rt).1 in
  queue_ok (Cond.wait_queue c') (Cond.wait_count c')
  ∧ Cond.wait_count c' = (Cond.wait_count c - Z.of_nat k)%Z
  ∧ waiters (Cond.wait_queue c') (Cond.wait_count c') = drop k ws
  ∧ (cond_broadcast_loop k c rt).2
    = with_threads (wake_all (take k ws) (threads rt)) rt.
Proof.
  revert c rt. induction k as [|k IH]; intros c rt Hok Hk ws c'.
  - subst c'. simpl. split; [done|]. split; [lia|]. split; [done|]. by destruct rt.
  - destruct (queue_pop_ok _ _ Hok) as (Hok' & Hn' & Hws); [lia|].
    unfold queue_pop in Hok', Hn', Hws. simpl in Hok', Hn', Hws.
    subst c'. simpl. rewrite bool_decide_eq_true_2 by lia.
    unfold queue_pop. simpl.
    specialize (IH (Cond.mk _ _)
                  (with_threads (wake_thread (Cond.wait_queue c !!! 0) (threads rt)) rt)
                  Hok' ltac:(simpl; lia)).
    simpl in IH. destruct IH as (IH1 & IH2 & IH3 & IH4).
    split; [done|]. split; [lia|].
    subst ws. rewrite Hws. simpl. split; [done|]. by rewrite IH4.
Qed.

(** C8.  [cond_broadcast] empties the wait queue ([wait_count] is 0 on
    return) and wakes the queued tids one after the other, oldest first.
    Round by round: the call is [wait_count] rounds of its loop; after
    [k] rounds the [k] oldest tids have left the queue and have been
    woken, in queue order, the other tids are queued as they were, and no
    slot that carries another tid than those [k] has been written; round
    [k + 1] finds the tid queued in position [k] at the head of the queue
    and wakes it.  On return the table is the one obtained by waking the
    queued tids in queue order, and every queued tid that a slot carries
    has its thread RUNNABLE. *)
Theorem cond_broadcast_wakes_all_fifo (c : cond_t) (rt : runtime) :
  queue_ok (Cond.wait_queue c) (Cond.wait_count c) →
  length (threads rt) = MAX_THREADS →
  let ws := waiters (Cond.wait_queue c) (Cond.wait_count c) in
  let c' := (cond_broadcast c rt).1 in
  let rt' := (cond_broadcast c rt).2 in
  let after k := cond_broadcast_loop k c rt in
  Cond.wait_count c' = 0%Z
  ∧ waiters (Cond.wait_queue c') (Cond.wait_count c') = []
  ∧ rt' = with_threads (wake_all ws (threads rt)) rt
  ∧ (∀ w i, w ∈ ws → i < MAX_THREADS → tid (threads rt !!! i) = w →
            (∀ j, j < i → tid (threads rt !!! j) ≠ w) →
            state (threads rt' !!! i) = T_RUNNABLE)
  ∧ cond_broadcast c rt = after (length ws)
  ∧ (∀ k, k ≤ length ws →
       waiters (Cond.wait_queue (after k).1) (Cond.wait_count (after k).1)
       = drop k ws
       ∧ (after k).2 = with_threads (wake_all (take k ws) (threads rt)) rt
       ∧ (∀ i, tid (threads rt !!! i) ∉ take k ws →
               threads (after k).2 !!! i = threads rt !!! i))
  ∧ (∀ k w, ws !! k = Some w →
       Cond.wait_queue (after k).1 !!! 0 = w
       ∧ (0 < Cond.wait_count (after k).1)%Z
       ∧ (after (S k)).2
         = with_threads (wake_thread w (threads (after k).2)) (after k).2).
Proof.
  intros Hok Hlen ws c' rt' after.
  destruct (cond_broadcast_loop_spec _ c rt Hok eq_refl) as (H1 & H2 & H3).
  fold (cond_broadcast c rt) in H1, H2, H3. fold c' in H1, H2. fold rt' in H3.
  assert (length ws = Z.to_nat (Cond.wait_count c)) as Hws.
  { subst ws. unfold waiters. destruct Hok as [Hq Hn].
    rewrite length_take. unfold MAX_THREADS in *. lia. }
  assert (∀ k, k ≤ length ws →
       queue_ok (Cond.wait_queue (after k).1) (Cond.wait_count (after k).1)
       ∧ Cond.wait_count (after k).1 = (Cond.wait_count c - Z.of_nat k)%Z
       ∧ waiters (Cond.wait_queue (after k).1) (Cond.wait_count (after k).1)
         = drop k ws
       ∧ (after k).2 = with_threads (wake_all (take k ws) (threads rt)) rt)
    as Hrounds.
  { intros k Hk. apply cond_broadcast_loop_rounds; [done | lia]. }
  split; [done|]. split; [by unfold waiters; rewrite H1|]. split; [done|].
  split; [|split; [|split]].
  - intros w i Hw Hi Htid Hfirst. rewrite H3. simpl.
    by apply (wake_all_runnable ws _ w).
  - unfold cond_broadcast, after. by rewrite Hws.
  - intros k Hk. destruct (Hrounds k Hk) as (_ & _ & Hq & Hrt).
    split; [done|]. split; [done|]. intros i Hnot.
    rewrite Hrt. simpl. by apply wake_all_other.
  - intros k w Hkw.
    assert (k < length ws) as Hk by (by eapply lookup_lt_Some).
    destruct (Hrounds k ltac:(lia)) as ([Hqlen Hn] & Hcount & Hq & Hrt).
    destruct (Hrounds (S k) ltac:(lia)) as (_ & _ & _ & Hrt').
    split; [|split].
    + assert (drop k ws !! 0 = Some w) as Hhead
        by (by rewrite lookup_drop, Nat.add_0_r).
      rewrite <- Hq in Hhead. unfold waiters in Hhead.
      apply lookup_take_Some in Hhead as [Hhead _].
      by apply list_lookup_total_correct.
    + lia.
    + rewrite Hrt', Hrt. rewrite (take_S_r ws k w Hkw).
      unfold wake_all, with_threads. simpl. by rewrite foldl_app.
Qed.

(** ** The table after [thread_init] *)

Lemma thread_init_lookup (i : nat) :
  i < MAX_THREADS →
  threads thread_init !!! i =
  if decide (i = 0) then mkThread 0 T_RUNNING SpNull 0 0 0 (-1) else unused_thread.
Proof.
  unfold MAX_THREADS. intros Hi.
  do 16 (destruct i as [|i]; [reflexivity|]). lia.
Qed.

(** ** Semaphore *)

Lemma sem_init_inv (value : Z) :
  (0 ≤ value ≤ INT_MAX)%Z → sem_inv (sem_init value).
Proof.
  intros Hv. unfold sem_inv, sem_init, queue_ok, MAX_THREADS. simpl. lia.
Qed.

Lemma sem_wait_inv (s : sem_t) (rt : runtime) :
  sem_inv s →
  (Sem.count s ≤ 0 → Sem.wait_count s < Z.of_nat MAX_THREADS)%Z →
  sem_inv (sem_wait s rt).1.1
  ∧ ((sem_wait s rt).2 = Parked ↔ (Sem.count s ≤ 0)%Z)
  ∧ waiters (Sem.wait_queue (sem_wait s rt).1.1) (Sem.wait_count (sem_wait s rt).1.1)
    = waiters (Sem.wait_queue s) (Sem.wait_count s)
      ++ match (sem_wait s rt).2 with Parked => [tid (current rt)] | Done => [] end.
Proof.
  intros (Hq & Hmax & Hinv) Hroom. unfold sem_wait. simpl.
  assert (0 ≤ Sem.wait_count s ≤ Z.of_nat MAX_THREADS)%Z as Hn by apply Hq.
  rewrite int_wrap_small
    by (unfold INT_MIN, INT_MAX, MAX_THREADS in *; lia).
  case_bool_decide as Hneg.
  - destruct (queue_push_ok _ _ (tid (current rt)) Hq) as (Hq' & Hn' & Hws); [lia|].
    unfold queue_push in Hq', Hn', Hws. simpl in Hq', Hn', Hws.
    unfold queue_push. simpl. split; [|split].
    + unfold sem_inv. simpl. split; [done|]. rewrite Hn'. lia.
    + split; [lia | done].
    + done.
  - simpl. split; [|split].
    + unfold sem_inv. simpl. split; [done|]. lia.
    + split; [done | lia].
    + by rewrite app_nil_r.
Qed.

Lemma sem_post_inv (s : sem_t) (rt : runtime) :
  sem_inv s → (Sem.count s < INT_MAX)%Z →
  sem_inv (sem_post s rt).1
  ∧ waiters (Sem.wait_queue (sem_post s rt).1) (Sem.wait_count (sem_post s rt).1)
    = if bool_decide (0 < Sem.wait_count s)%Z
      then tail (waiters (Sem.wait_queue s) (Sem.wait_count s))
      else waiters (Sem.wait_queue s) (Sem.wait_count s).
Proof.
  intros (Hq & Hmax & Hinv) Hroom. unfold sem_post. simpl.
  assert (0 ≤ Sem.wait_count s ≤ Z.of_nat MAX_THREADS)%Z as Hn by apply Hq.
  rewrite int_wrap_small
    by (unfold INT_MIN, INT_MAX, MAX_THREADS in *; lia).
  case_bool_decide as Hpos.
  - destruct (queue_pop_ok _ _ Hq) as (Hq' & Hn' & Hws); [lia|].
    unfold queue_pop in Hq', Hn', Hws. simpl in Hq', Hn', Hws.
    unfold queue_pop. simpl. split.
    + unfold sem_inv. simpl. split; [done|]. rewrite Hn'. lia.
    + by rewrite Hws.
  - simpl. split; [|done]. unfold sem_inv. simpl. split; [done|]. lia.
Qed.

(** C5, as stated, fails: the bootstrap thread, alone, waits on a
    semaphore of count 0.  [sem_wait] parks it, but the scheduler finds
    nothing RUNNABLE and returns to it without a switch, so that the call
    returns; the thread creates a second thread and yields to it.  At that
    point [count] is -1 and the queue holds tid 0, and [wait_count] is
    [max(0, -count)], but no thread is T_SLEEPING: no [sem_wait] is
    blocked. *)
Lemma sem_wait_alone_stays_queued :
  (sem_wait (sem_init 0) thread_init).2 = Parked
  ∧ find_runnable_thread (update_current (set_state T_SLEEPING) thread_init) = None
  ∧ current_thread (sem_wait (sem_init 0) thread_init).1.2 = 0
  ∧ switch_log (sem_wait (sem_init 0) thread_init).1.2 = []
  ∧ Sem.count waited_alone = (-1)%Z
  ∧ Sem.wait_count waited_alone = Z.max 0 (- Sem.count waited_alone)
  ∧ waiters (Sem.wait_queue waited_alone) (Sem.wait_count waited_alone) = [0%Z]
  ∧ current_thread went_on = 1
  ∧ switch_log went_on = [(0, 1)]
  ∧ ∀ i, i < MAX_THREADS → state (threads went_on !!! i) ≠ T_SLEEPING.
Proof.
  repeat (split; [by vm_compute|]).
  unfold MAX_THREADS. intros i Hi.
  do 16 (destruct i as [|i]; [by vm_compute|]). lia.
Qed.

(** C5, amended.  Take a semaphore whose queue is inside its array, whose
    [count] is at most [INT_MAX] and whose [wait_count] is
    [max(0, -count)], as [sem_init] leaves it for a value from 0 to
    [INT_MAX].  Every interleaving of [sem_wait] and [sem_post] calls in
    which each [sem_wait] that has to queue its caller finds fewer than
    [MAX_THREADS] tids queued, and each [sem_post] finds [count] below
    [INT_MAX], leads to a semaphore of the same kind: [wait_count] is
    [max(0, -count)]; the queue holds the callers of the [sem_wait] calls
    that parked and that no [sem_post] has woken, oldest first, so their
    number is [-count] when [count] is negative and the queue is empty
    otherwise.  A caller that parks with room in the queue is marked
    T_SLEEPING; it is switched out when the scheduler finds a RUNNABLE
    slot, and goes on at once, its tid left in the queue, when the
    scheduler finds none. *)
Theorem sem_wait_count_invariant (s0 s : sem_t) (pending : list Z) :
  sem_inv s0 →
  sem_reach s0 s pending →
  Sem.wait_count s = Z.max 0 (- Sem.count s)
  ∧ sem_inv s
  ∧ waiters (Sem.wait_queue s) (Sem.wait_count s) = pending
  ∧ Z.of_nat (length pending) = Z.max 0 (- Sem.count s)
  ∧ (∀ rt, table_ok rt → (sem_wait s rt).2 = Parked →
       (Sem.wait_count s < Z.of_nat MAX_THREADS)%Z →
       let marked := update_current (set_state T_SLEEPING) rt in
       state (threads (sem_wait s rt).1.2 !!! current_thread rt) = T_SLEEPING
       ∧ waiters (Sem.wait_queue (sem_wait s rt).1.1)
           (Sem.wait_count (sem_wait s rt).1.1)
         = pending ++ [tid (current rt)]
       ∧ (∀ next, find_runnable_thread marked = Some next →
            current_thread (sem_wait s rt).1.2 = next
            ∧ next ≠ current_thread rt)
       ∧ (find_runnable_thread marked = None → (sem_wait s rt).1.2 = marked))
  ∧ (∀ value, (0 ≤ value ≤ INT_MAX)%Z → sem_inv (sem_init value)).
Proof.
  intros Hinv0 Hreach.
  assert (sem_inv s ∧ waiters (Sem.wait_queue s) (Sem.wait_count s) = pending)
    as [Hinv Hws].
  { induction Hreach as [|s pending rt Hreach [IHinv IHws] Hroom
                          |s pending rt Hreach [IHinv IHws] Hroom].
    - done.
    - destruct (sem_wait_inv s rt IHinv Hroom) as (Hinv & _ & Hws).
      split; [done|]. rewrite Hws, IHws.
      destruct (sem_wait s rt).2; [apply app_nil_r | done].
    - destruct (sem_post_inv s rt IHinv Hroom) as (Hinv & Hws).
      split; [done|]. rewrite Hws, IHws. done. }
  split; [apply Hinv|]. split; [done|]. split; [done|].
  split; [|split; [|apply sem_init_inv]].
  - destruct Hinv as ([Hlen Hn] & _ & Hcount).
    rewrite <- Hws, <- Hcount. unfold waiters. rewrite length_take. lia.
  - intros rt Hok Hparked Hroom.
    destruct (sem_wait_inv s rt Hinv (λ _, Hroom)) as (_ & _ & Hws').
    rewrite Hparked in Hws'. rewrite Hws in Hws'. revert Hparked.
    unfold sem_wait in *. cbn [Sem.count Sem.wait_queue Sem.wait_count] in *.
    case_bool_decide; [|done]. unfold queue_push in *. cbn [fst snd] in *.
    intros _.
    set (marked := update_current (set_state T_SLEEPING) rt).
    split; [by apply block_current_sleeping|]. split; [exact Hws'|]. split.
    + intros next Hnext. rewrite (thread_schedule_Some marked next Hnext).
      split; [done|]. intros ->.
      assert (table_ok marked) as Hok'.
      { destruct Hok. split; [|done]. subst marked. unfold update_current. simpl.
        by rewrite length_alter. }
      rewrite find_runnable_thread_pick in Hnext by done.
      apply round_robin_pick_Some in Hnext as [_ Hrun].
      subst marked. unfold update_current in Hrun. simpl in Hrun.
      rewrite list_lookup_total_alter_eq in Hrun by (destruct Hok; lia). done.
    + apply thread_schedule_None.
Qed.

(** ** Mutex invariant *)

Lemma mutex_init_inv : mutex_inv mutex_init.
Proof.
  unfold mutex_inv, mutex_spec_inv, queue_ok, waiters, MAX_THREADS. simpl.
  repeat split; try done; try lia. apply not_elem_of_nil.
Qed.

Lemma mutex_unlock_inv (m : mutex_t) (rt : runtime) :
  mutex_inv m → mutex_inv (mutex_unlock m rt).1.
Proof.
  intros (Hq & Hpos & Hlock & Hown). unfold mutex_unlock.
  case_bool_decide as Hne; [done|].
  case_bool_decide as Hcount; simpl.
  - destruct (queue_pop_ok _ _ Hq Hcount) as (Hq' & Hn' & Hws).
    unfold queue_pop in Hq', Hn', Hws. simpl in Hq', Hn', Hws.
    rewrite Hws in Hpos. apply Forall_cons in Hpos as [_ Hpos].
    split; [done|]. split; [done|]. split; [simpl; lia|]. simpl.
    intros Hin. rewrite Forall_forall in Hpos. apply Hpos in Hin. lia.
  - split; [done|]. split; [done|]. split; [simpl; lia|]. simpl.
    intros Hin. rewrite Forall_forall in Hpos. apply Hpos in Hin. lia.
Qed.

Lemma mutex_lock_inv (m : mutex_t) (rt : runtime) :
  mutex_inv m →
  (0 ≤ tid (current rt))%Z →
  tid (current rt) ≠ Mutex.owner_tid m →
  tid (current rt) ∉ waiters (Mutex.wait_queue m) (Mutex.wait_count m) →
  (Mutex.locked m ≠ 0 → Mutex.wait_count m < Z.of_nat MAX_THREADS)%Z →
  mutex_inv (mutex_lock m rt).1.1.
Proof.
  intros (Hq & Hpos & Hlock & Hown) Htid Hnot_owner Hnot_queued Hroom.
  unfold mutex_lock. case_bool_decide as Hl.
  - destruct (queue_push_ok _ _ (tid (current rt)) Hq (Hroom Hl)) as (Hq' & Hn' & Hws).
    unfold queue_push in Hq', Hn', Hws. simpl in Hq', Hn', Hws.
    unfold queue_push. simpl. split; [done|]. simpl. rewrite Hws. split.
    + apply Forall_app. split; [done|]. by apply Forall_singleton.
    + split; [done|]. simpl. rewrite Hws. rewrite elem_of_app, list_elem_of_singleton.
      intros [?|?]; [done | congruence].
  - simpl. split; [done|]. split; [done|]. split; simpl; [|done].
    split; [done | lia].
Qed.

(** C4, as stated, fails, in two ways.  A recursive lock: the mutex the
    first [mutex_lock] leaves is inside its array and satisfies the
    predicate; the second [mutex_lock], by the owner, parks the caller with
    its tid in the queue, and the mutex it leaves has [owner_tid] among its
    waiters.  A caller that is queued: [requeued_mutex] is free, satisfies
    the predicate and has the tid of the bootstrap thread in its queue;
    the bootstrap thread, which does not own it, takes it, and the mutex
    it leaves has [owner_tid] among its waiters. *)
Lemma mutex_lock_by_owner_breaks_inv :
  (mutex_inv recursive_lock_mutex
   ∧ mutex_spec_inv recursive_lock_mutex
   ∧ (mutex_lock recursive_lock_mutex recursive_lock_runtime).2 = Parked
   ∧ ¬ mutex_spec_inv (mutex_lock recursive_lock_mutex recursive_lock_runtime).1.1)
  ∧ (mutex_inv requeued_mutex
     ∧ mutex_spec_inv requeued_mutex
     ∧ tid (current requeued_runtime) = 0%Z
     ∧ Mutex.owner_tid requeued_mutex = (-1)%Z
     ∧ waiters (Mutex.wait_queue requeued_mutex) (Mutex.wait_count requeued_mutex)
       = [0%Z]
     ∧ (mutex_lock requeued_mutex requeued_runtime).2 = Done
     ∧ ¬ mutex_spec_inv (mutex_lock requeued_mutex requeued_runtime).1.1).
Proof.
  split.
  - assert (mutex_inv recursive_lock_mutex) as Hinv.
    { unfold mutex_inv, mutex_spec_inv, queue_ok, waiters, MAX_THREADS. simpl.
      repeat split; try done; try lia. apply not_elem_of_nil. }
    split; [done|]. split; [apply Hinv|]. split; [reflexivity|].
    intros [_ Hown]. apply Hown. vm_compute. apply list_elem_of_here.
  - assert (waiters (Mutex.wait_queue requeued_mutex)
                    (Mutex.wait_count requeued_mutex) = [0%Z]) as Hws
      by (vm_compute; reflexivity).
    assert (Mutex.owner_tid requeued_mutex = (-1)%Z) as Hown
      by (vm_compute; reflexivity).
    assert (Mutex.locked requeued_mutex = 0%Z) as Hfree
      by (vm_compute; reflexivity).
    assert (mutex_spec_inv requeued_mutex) as Hspec.
    { unfold mutex_spec_inv. rewrite Hws, Hown, Hfree. split; [lia|].
      intros Hin. apply list_elem_of_singleton in Hin. discriminate Hin. }
    assert (mutex_inv requeued_mutex) as Hinv.
    { unfold mutex_inv. rewrite Hws.
      split; [split; vm_compute; [reflexivity | split; discriminate]|].
      split; [apply Forall_singleton; lia | exact Hspec]. }
    split; [exact Hinv|]. split; [exact Hspec|].
    split; [vm_compute; reflexivity|]. split; [exact Hown|].
    split; [exact Hws|]. split; [vm_compute; reflexivity|].
    intros [_ Hbad]. apply Hbad. vm_compute. apply list_elem_of_here.
Qed.

(** C4, amended.  The predicate holds after [mutex_init].  On a mutex whose
    queue is inside its array and holds no negative tid, it is preserved by
    every [mutex_unlock], and by every [mutex_lock] whose caller has a tid
    that is not negative, is not the owner and is not already queued (with
    room in the array when the caller has to queue); the queue stays inside
    the array and free of negative tids.  The first half of the predicate,
    [locked] exactly when [owner_tid >= 0], is preserved by every
    [mutex_lock] of a caller whose tid is not negative. *)
Theorem mutex_inv_preserved (m : mutex_t) (rt : runtime) :
  mutex_inv m →
  mutex_spec_inv mutex_init
  ∧ mutex_inv (mutex_unlock m rt).1
  ∧ mutex_spec_inv (mutex_unlock m rt).1
  ∧ ((0 ≤ tid (current rt))%Z →
     let m' := (mutex_lock m rt).1.1 in
     (Mutex.locked m' ≠ 0%Z ↔ (0 ≤ Mutex.owner_tid m')%Z)
     ∧ (tid (current rt) ≠ Mutex.owner_tid m →
        tid (current rt) ∉ waiters (Mutex.wait_queue m) (Mutex.wait_count m) →
        (Mutex.locked m ≠ 0 → Mutex.wait_count m < Z.of_nat MAX_THREADS)%Z →
        mutex_inv m' ∧ mutex_spec_inv m')).
Proof.
  intros Hinv. split; [apply mutex_init_inv|].
  pose proof (mutex_unlock_inv m rt Hinv) as Hu.
  split; [done|]. split; [apply Hu|].
  intros Htid m'. split.
  - subst m'. destruct Hinv as (_ & _ & Hlock & _). unfold mutex_lock.
    case_bool_decide; unfold queue_push; simpl; [done|]. split; [done | lia].
  - intros H1 H2 H3. pose proof (mutex_lock_inv m rt Hinv Htid H1 H2 H3) as Hl.
    split; [done | apply Hl].
Qed.

(** ** Who is RUNNING *)

Lemma thread_init_one_running : one_running thread_init.
Proof.
  intros i Hi. rewrite thread_init_lookup by done. simpl.
  by destruct (decide (i = 0)).
Qed.

Lemma one_running_others (rt : runtime) :
  one_running rt → others_not_running rt.
Proof. intros H i Hi Hne Hrun. by apply H in Hrun. Qed.

Lemma thread_schedule_table_ok (rt : runtime) (next : nat) :
  table_ok rt → find_runnable_thread rt = Some next → next < MAX_THREADS.
Proof.
  intros Hok Hnext. rewrite find_runnable_thread_pick in Hnext by done.
  by apply round_robin_pick_Some in Hnext as [? _].
Qed.

Lemma thread_schedule_one_running (rt : runtime) (next : nat) :
  table_ok rt → others_not_running rt →
  find_runnable_thread rt = Some next →
  one_running (thread_schedule rt).
Proof.
  intros Hok Hothers Hnext.
  pose proof (thread_schedule_table_ok rt next Hok Hnext) as Hlt.
  destruct Hok as [Hlen Hcur].
  rewrite (thread_schedule_Some rt next Hnext). intros i Hi. simpl.
  rewrite saved_sp_state.
  assert (length (if bool_decide (state (current rt) = T_RUNNING)
                  then alter (set_state T_RUNNABLE) (current_thread rt) (threads rt)
                  else threads rt) = MAX_THREADS) as Hlen'.
  { case_bool_decide; rewrite ?length_alter; done. }
  destruct (decide (i = next)) as [->|Hne].
  - rewrite list_lookup_total_alter_eq by lia. done.
  - rewrite list_lookup_total_alter_ne by done. split; [|done].
    intros Hrun. exfalso. case_bool_decide as Hc.
    + destruct (decide (i = current_thread rt)) as [->|Hne'].
      * rewrite list_lookup_total_alter_eq in Hrun by lia. done.
      * rewrite list_lookup_total_alter_ne in Hrun by done.
        by apply (Hothers i).
    + destruct (decide (i = current_thread rt)) as [->|Hne'].
      * by apply Hc.
      * by apply (Hothers i).
Qed.

Lemma rt_prim_invariant (rt rt' : runtime) :
  rt_prim rt rt' →
  table_ok rt ∧ others_not_running rt →
  table_ok rt' ∧ others_not_running rt'.
Proof.
  intros Hstep [Hok Hothers]. pose proof Hok as [Hlen Hcur].
  destruct Hstep as [f rt|w rt|start_fn arg_ptr rt|t rt|g rt Hg|rt].
  - split; [split; simpl; [by rewrite length_alter | done]|].
    intros i Hi Hne. simpl in *.
    rewrite list_lookup_total_alter_ne by done. by apply Hothers.
  - split; [split; simpl; [by rewrite length_wake_thread | done]|].
    intros i Hi Hne Hrun. simpl in *.
    apply wake_thread_running in Hrun. by apply (Hothers i).
  - unfold thread_create.
    destruct (for_slots is_unused (threads rt) 0 MAX_THREADS) as [k|]; [|done].
    split; [split; simpl; [by rewrite length_insert | done]|].
    intros i Hi Hne. simpl in *. rewrite list_lookup_total_insert.
    case_decide; [done|]. by apply Hothers.
  - split; [split; simpl; [by rewrite !length_alter | done]|].
    intros i Hi Hne. simpl in *.
    destruct (decide (t = i)) as [->|Hti].
    + rewrite !list_lookup_total_alter_eq by (rewrite ?length_alter; lia). done.
    + rewrite !list_lookup_total_alter_ne by done. by apply Hothers.
  - split; [split; simpl; [by rewrite length_fmap | done]|].
    intros i Hi Hne Hrun. simpl in *.
    rewrite (list_lookup_total_fmap g (threads rt) i) in Hrun by lia.
    apply Hg in Hrun. by apply (Hothers i).
  - destruct (find_runnable_thread rt) as [next|] eqn:Hnext.
    + pose proof (thread_schedule_table_ok rt next Hok Hnext) as Hlt.
      pose proof (thread_schedule_one_running rt next Hok Hothers Hnext) as Hone.
      split; [|by apply one_running_others].
      split; [by rewrite length_schedule_table|].
      by rewrite (thread_schedule_Some rt next Hnext).
    + by rewrite thread_schedule_None.
Qed.

Lemma lib_reachable_invariant (rt : runtime) :
  lib_reachable rt → table_ok rt ∧ others_not_running rt.
Proof.
  unfold lib_reachable. revert rt.
  apply (rtc_ind_r (λ rt, table_ok rt ∧ others_not_running rt)).
  - split; [apply thread_init_table_ok|].
    apply one_running_others, thread_init_one_running.
  - intros rt rt' _ Hstep IH. by eapply rt_prim_invariant.
Qed.

(** *** Every library function is a sequence of those statements *)

Ltac prim_steps :=
  repeat first
    [ apply rtc_refl
    | eassumption
    | eapply rtc_r; [| apply prim_schedule]
    | eapply rtc_r; [| apply prim_current]
    | eapply rtc_r; [| apply prim_wake]
    | eapply rtc_r; [| apply prim_reap]
    | eapply rtc_r; [| apply prim_create] ].

Lemma thread_create_steps (start_fn arg_ptr : Z) (rt : runtime) :
  rtc rt_prim rt (thread_create start_fn arg_ptr rt).1.
Proof. prim_steps. Qed.

Lemma thread_yield_steps (rt : runtime) : rtc rt_prim rt (thread_yield rt).
Proof. unfold thread_yield. prim_steps. Qed.

Lemma thread_exit_steps (v : Z) (rt : runtime) : rtc rt_prim rt (thread_exit v rt).
Proof.
  unfold thread_exit. eapply rtc_r; [| apply prim_schedule].
  eapply rtc_r; [| apply prim_joiners].
  - prim_steps.
  - intros t. by destruct (_ && _).
Qed.

Lemma thread_join_wait_steps (t : nat) (tid_arg : Z) (rt : runtime) :
  rtc rt_prim rt (thread_join_wait t tid_arg rt).1.
Proof. unfold thread_join_wait. case_bool_decide; cbn [fst]; prim_steps. Qed.

Lemma thread_join_steps (tid_arg : Z) (rt : runtime) :
  rtc rt_prim rt (thread_join tid_arg rt).1.
Proof.
  unfold thread_join. destruct (thread_join_lookup tid_arg rt).
  - apply thread_join_wait_steps.
  - apply rtc_refl.
Qed.

Lemma mutex_lock_steps (m : mutex_t) (rt : runtime) :
  rtc rt_prim rt (mutex_lock m rt).1.2.
Proof.
  unfold mutex_lock. case_bool_decide.
  - destruct (queue_push _ _ _). cbn [fst snd]. prim_steps.
  - apply rtc_refl.
Qed.

Lemma mutex_unlock_steps (m : mutex_t) (rt : runtime) :
  rtc rt_prim rt (mutex_unlock m rt).2.
Proof.
  unfold mutex_unlock. case_bool_decide; [apply rtc_refl|].
  case_bool_decide; [|apply rtc_refl].
  destruct (queue_pop _ _). cbn [snd]. prim_steps.
Qed.

Lemma sem_wait_steps (s : sem_t) (rt : runtime) :
  rtc rt_prim rt (sem_wait s rt).1.2.
Proof.
  unfold sem_wait. case_bool_decide; [|apply rtc_refl].
  destruct (queue_push _ _ _). cbn [fst snd]. prim_steps.
Qed.

Lemma sem_post_steps (s : sem_t) (rt : runtime) :
  rtc rt_prim rt (sem_post s rt).2.
Proof.
  unfold sem_post. case_bool_decide; [|apply rtc_refl].
  destruct (queue_pop _ _). cbn [snd]. prim_steps.
Qed.

Lemma cond_wait_steps (c : cond_t) (m : mutex_t) (rt : runtime) :
  rtc rt_prim rt (cond_wait c m rt).2.
Proof.
  unfold cond_wait. destruct (queue_push _ _ _).
  pose proof (mutex_unlock_steps m rt) as Hu.
  destruct (mutex_unlock m rt) as [m' rt']. cbn [fst snd] in *. prim_steps.
Qed.

Lemma cond_signal_steps (c : cond_t) (rt : runtime) :
  rtc rt_prim rt (cond_signal c rt).2.
Proof.
  unfold cond_signal. case_bool_decide; [apply rtc_refl|].
  destruct (queue_pop _ _). cbn [snd]. prim_steps.
Qed.

Lemma cond_broadcast_steps (c : cond_t) (rt : runtime) :
  rtc rt_prim rt (cond_broadcast c rt).2.
Proof.
  unfold cond_broadcast. generalize (Z.to_nat (Cond.wait_count c)) as fuel.
  intros fuel. revert c rt. induction fuel as [|fuel IH]; intros c rt.
  - apply rtc_refl.
  - cbn [cond_broadcast_loop]. case_bool_decide; [|apply rtc_refl].
    destruct (queue_pop _ _). eapply rtc_l; [apply prim_wake | apply IH].
Qed.

Lemma channel_send_steps (ch : channel_t) (data : Z) (rt : runtime) :
  rtc rt_prim rt (channel_send ch data rt).1.2.
Proof.
  unfold channel_send. pose proof (mutex_lock_steps (Chan.lock ch) rt) as Hl.
  destruct (mutex_lock (Chan.lock ch) rt) as [[m rt1] p]. cbn [fst snd] in Hl.
  destruct p; [|done]. unfold channel_send_locked.
  case_bool_decide; [|case_bool_decide].
  - pose proof (mutex_unlock_steps (Chan.lock (Chan.with_lock m ch)) rt1) as Hu.
    destruct (mutex_unlock _ rt1) as [m' rt2]. cbn [fst snd] in *.
    by etrans.
  - pose proof (cond_wait_steps (Chan.not_full (Chan.with_lock m ch))
                  (Chan.lock (Chan.with_lock m ch)) rt1) as Hw.
    destruct (cond_wait _ _ rt1) as [[c' m'] rt2]. cbn [fst snd] in *.
    by etrans.
  - cbn [Chan.not_empty Chan.lock Chan.with_not_empty].
    pose proof (cond_signal_steps (Chan.not_empty (Chan.with_lock m ch)) rt1) as Hs.
    destruct (cond_signal _ rt1) as [c' rt2].
    pose proof (mutex_unlock_steps (Chan.lock (Chan.with_lock m ch)) rt2) as Hu.
    destruct (mutex_unlock _ rt2) as [m' rt3]. cbn [fst snd] in *.
    etrans; [done|]. by etrans.
Qed.

Lemma channel_recv_steps (ch : channel_t) (rt : runtime) :
  rtc rt_prim rt (channel_recv ch rt).1.2.
Proof.
  unfold channel_recv. pose proof (mutex_lock_steps (Chan.lock ch) rt) as Hl.
  destruct (mutex_lock (Chan.lock ch) rt) as [[m rt1] p]. cbn [fst snd] in Hl.
  destruct p; [|done]. unfold channel_recv_locked.
  case_bool_decide; [case_bool_decide|].
  - pose proof (mutex_unlock_steps (Chan.lock (Chan.with_lock m ch)) rt1) as Hu.
    destruct (mutex_unlock _ rt1) as [m' rt2]. cbn [fst snd] in *.
    by etrans.
  - pose proof (cond_wait_steps (Chan.not_empty (Chan.with_lock m ch))
                  (Chan.lock (Chan.with_lock m ch)) rt1) as Hw.
    destruct (cond_wait _ _ rt1) as [[c' m'] rt2]. cbn [fst snd] in *.
    by etrans.
  - cbn [Chan.not_full Chan.lock Chan.with_not_full].
    pose proof (cond_signal_steps (Chan.not_full (Chan.with_lock m ch)) rt1) as Hs.
    destruct (cond_signal _ rt1) as [c' rt2].
    pose proof (mutex_unlock_steps (Chan.lock (Chan.with_lock m ch)) rt2) as Hu.
    destruct (mutex_unlock _ rt2) as [m' rt3]. cbn [fst snd] in *.
    etrans; [done|]. by etrans.
Qed.

Lemma channel_close_steps (ch : channel_t) (rt : runtime) :
  rtc rt_prim rt (channel_close ch rt).1.2.
Proof.
  unfold channel_close. pose proof (mutex_lock_steps (Chan.lock ch) rt) as Hl.
  destruct (mutex_lock (Chan.lock ch) rt) as [[m rt1] p]. cbn [fst snd] in Hl.
  destruct p; [|done]. unfold channel_close_locked.
  cbn [Chan.not_empty Chan.not_full Chan.lock Chan.with_closed
       Chan.with_not_empty Chan.with_not_full].
  pose proof (cond_broadcast_steps (Chan.not_empty (Chan.with_lock m ch)) rt1) as H1.
  destruct (cond_broadcast _ rt1) as [c1 rt2].
  pose proof (cond_broadcast_steps (Chan.not_full (Chan.with_lock m ch)) rt2) as H2.
  destruct (cond_broadcast _ rt2) as [c2 rt3].
  pose proof (mutex_unlock_steps (Chan.lock (Chan.with_lock m ch)) rt3) as H3.
  destruct (mutex_unlock _ rt3) as [m' rt4]. cbn [fst snd] in *.
  etrans; [done|]. etrans; [done|]. by etrans.
Qed.

(** *** The invariant at scheduler returns *)

(** C3, as stated, fails: right after [thread_init] one slot is RUNNING and
    it is the current one; the bootstrap thread then waits on a semaphore
    whose count is 0 while no other thread exists.  [sem_wait] marks it
    T_SLEEPING and calls [thread_schedule], which finds no RUNNABLE slot and
    returns: no slot is RUNNING. *)
Lemma sem_wait_alone_none_running :
  one_running thread_init
  ∧ (sem_wait (sem_init 0) thread_init).2 = Parked
  ∧ lib_reachable (sem_wait (sem_init 0) thread_init).1.2
  ∧ (∀ i, i < MAX_THREADS →
       state (threads (sem_wait (sem_init 0) thread_init).1.2 !!! i) ≠ T_RUNNING)
  ∧ ¬ one_running (sem_wait (sem_init 0) thread_init).1.2.
Proof.
  assert (∀ i, i < MAX_THREADS →
       state (threads (sem_wait (sem_init 0) thread_init).1.2 !!! i) ≠ T_RUNNING)
    as Hnone.
  { unfold MAX_THREADS. intros i Hi.
    do 16 (destruct i as [|i]; [by vm_compute|]). lia. }
  split; [apply thread_init_one_running|]. split; [reflexivity|].
  split; [apply sem_wait_steps|]. split; [done|].
  intros Hone. apply (Hnone 0); [unfold MAX_THREADS; lia|].
  by apply Hone; [unfold MAX_THREADS; lia|].
Qed.

(** C3, amended.  In every state the library reaches from [thread_init] no
    slot other than the current one is RUNNING.  When [thread_schedule]
    is called there and finds a RUNNABLE slot, exactly one slot is RUNNING
    when it returns and [current_thread] points to it; when it finds none,
    it returns with the runtime as the caller left it. *)
Theorem one_running_after_schedule (rt : runtime) :
  lib_reachable rt →
  others_not_running rt
  ∧ (∀ next, find_runnable_thread rt = Some next →
       current_thread (thread_schedule rt) = next
       ∧ one_running (thread_schedule rt))
  ∧ (find_runnable_thread rt = None → thread_schedule rt = rt).
Proof.
  intros Hreach. destruct (lib_reachable_invariant rt Hreach) as [Hok Hothers].
  split; [done|]. split.
  - intros next Hnext. split.
    + by rewrite (thread_schedule_Some rt next Hnext).
    + by apply (thread_schedule_one_running rt next).
  - apply thread_schedule_None.
Qed.

(** ** Joining the bootstrap thread *)

(** C9, as stated, fails: slot 0 carries tid 0 in a state that is not
    T_UNUSED and the caller is not the bootstrap thread, yet
    [thread_join(0)] does not park: the slot it finds is a zombie, which it
    reaps, and it returns the bootstrap's return value, here null, with the
    caller still RUNNING and its [joined_tid] untouched. *)
Lemma thread_join_bootstrap_exited :
  lib_reachable bootstrap_exited
  ∧ current_thread bootstrap_exited = 1
  ∧ tid (threads bootstrap_exited !!! 0) = 0%Z
  ∧ state (threads bootstrap_exited !!! 0) = T_ZOMBIE
  ∧ thread_join_lookup 0 bootstrap_exited = Some 0
  ∧ (thread_join 0 bootstrap_exited).2 = Returned 0%Z
  ∧ state (current (thread_join 0 bootstrap_exited).1) = T_RUNNING
  ∧ joined_tid (current (thread_join 0 bootstrap_exited).1) = (-1)%Z
  ∧ state (threads (thread_join 0 bootstrap_exited).1 !!! 0) = T_UNUSED.
Proof.
  split.
  { unfold lib_reachable, bootstrap_exited.
    etrans; [apply thread_create_steps | apply thread_exit_steps]. }
  repeat split; by vm_compute.
Qed.

(** C9, amended.  While slot 0 carries tid 0 in a state that is not
    T_UNUSED, [thread_join(0)] called from another slot finds slot 0 and
    does not return by the not-found path.  If that thread is not a
    zombie, the caller stores 0 in its [joined_tid], marks itself
    T_SLEEPING and parks in [thread_schedule], from which it comes back
    into the loop still marked so; if it is a zombie the caller does not
    park: it returns the thread's [retval] and slot 0 is T_UNUSED. *)
Theorem thread_join_bootstrap (rt : runtime) :
  table_ok rt →
  tid (threads rt !!! 0) = 0%Z →
  state (threads rt !!! 0) ≠ T_UNUSED →
  current_thread rt ≠ 0 →
  let cur := current_thread rt in
  thread_join_lookup 0 rt = Some 0
  ∧ (state (threads rt !!! 0) ≠ T_ZOMBIE →
       let marked := update_current (set_state T_SLEEPING)
                       (update_current (set_joined_tid 0) rt) in
       thread_join 0 rt = (thread_schedule marked, Suspended)
       ∧ joined_tid (threads (thread_join 0 rt).1 !!! cur) = 0%Z
       ∧ state (threads (thread_join 0 rt).1 !!! cur) = T_SLEEPING)
  ∧ (state (threads rt !!! 0) = T_ZOMBIE →
       (thread_join 0 rt).2 = Returned (retval (threads rt !!! 0))
       ∧ state (threads (thread_join 0 rt).1 !!! 0) = T_UNUSED).
Proof.
  intros Hok Htid Hused Hcur cur. pose proof Hok as [Hlen Hlt].
  assert (thread_join_lookup 0 rt = Some 0) as Hlookup.
  { apply for_slots_all_Some. split; [unfold MAX_THREADS; lia|]. split; [|lia].
    unfold join_target. rewrite bool_decide_eq_true_2 by done.
    by rewrite bool_decide_eq_false_2. }
  split; [done|]. unfold thread_join. rewrite Hlookup. unfold thread_join_wait.
  split.
  - intros Hz.
    set (marked := update_current (set_state T_SLEEPING)
                     (update_current (set_joined_tid 0) rt)).
    rewrite bool_decide_eq_true_2 by done.
    split; [done|]. cbn [fst].
    assert (threads marked !!! cur =
            set_state T_SLEEPING (set_joined_tid 0 (threads rt !!! cur))) as Hm.
    { subst marked cur. unfold update_current. simpl.
      rewrite !list_lookup_total_alter_eq by (rewrite ?length_alter; lia). done. }
    fold marked.
    assert (table_ok marked) as Hokm.
    { split; [|done]. subst marked. unfold update_current. simpl.
      by rewrite !length_alter. }
    assert (state (threads marked !!! cur) = T_SLEEPING) as Hs by (by rewrite Hm).
    destruct (thread_schedule_keeps_sleeping marked cur Hokm Hs)
      as (_ & -> & _ & _ & _ & -> & _).
    by rewrite Hm.
  - intros Hz. rewrite bool_decide_eq_false_2 by (intros ?; done).
    split; [done|]. simpl.
    rewrite !list_lookup_total_alter_eq by (rewrite ?length_alter; unfold MAX_THREADS in *; lia).
    done.
Qed.

(** ** Channel *)

Lemma ring_items_pop (buffer : list Z) (capacity read_pos count : Z) :
  (0 < capacity)%Z → (0 ≤ read_pos < capacity)%Z → (0 < count)%Z →
  ring_items buffer capacity read_pos count =
  buffer !!! Z.to_nat read_pos
    :: ring_items buffer capacity ((read_pos + 1) mod capacity) (count - 1).
Proof.
  intros Hcap Hpos Hcount. unfold ring_items.
  replace (Z.to_nat count) with (S (Z.to_nat (count - 1))) by lia.
  rewrite <- cons_seq, fmap_cons. f_equal.
  - by rewrite Z.add_0_r, Z.mod_small.
  - rewrite <- fmap_S_seq, <- list_fmap_compose.
    apply list_fmap_ext. intros _ k _. simpl.
    rewrite Zplus_mod_idemp_l. do 3 f_equal. lia.
Qed.

Lemma ring_items_nil (buffer : list Z) (capacity read_pos count : Z) :
  (0 ≤ count)%Z → ring_items buffer capacity read_pos count = [] ↔ count = 0%Z.
Proof.
  intros Hcount. unfold ring_items. split.
  - intros H. apply fmap_nil_inv in H.
    destruct (Z.to_nat count) eqn:Hn; [lia | done].
  - by intros ->.
Qed.

(** *** The lock of the channel *)

Lemma mutex_lock_free (m : mutex_t) (rt : runtime) :
  Mutex.locked m = 0%Z →
  mutex_lock m rt =
  (Mutex.mk 1 (tid (current rt)) (Mutex.wait_queue m) (Mutex.wait_count m), rt, Done).
Proof. intros H. unfold mutex_lock. by rewrite bool_decide_eq_false_2 by (intros ?; done). Qed.

Lemma mutex_lock_busy (m : mutex_t) (rt : runtime) :
  Mutex.locked m ≠ 0%Z →
  (mutex_lock m rt).2 = Parked
  ∧ Mutex.locked (mutex_lock m rt).1.1 = Mutex.locked m
  ∧ ((Mutex.wait_count m < Z.of_nat MAX_THREADS)%Z → mutex_queue_ok m →
     mutex_queue_ok (mutex_lock m rt).1.1).
Proof.
  intros H. unfold mutex_lock. rewrite bool_decide_eq_true_2 by done.
  unfold queue_push, mutex_queue_ok. simpl. split; [done|]. split; [done|].
  intros Hroom Hq.
  by destruct (queue_push_ok _ _ (tid (current rt)) Hq Hroom) as (Hq' & _ & _).
Qed.

Lemma mutex_unlock_owner (m : mutex_t) (rt : runtime) :
  Mutex.owner_tid m = tid (current rt) →
  Mutex.locked (mutex_unlock m rt).1 = 0%Z.
Proof.
  intros H. unfold mutex_unlock. rewrite bool_decide_eq_false_2 by (intros ?; done).
  by case_bool_decide.
Qed.

Lemma mutex_unlock_queue_ok (m : mutex_t) (rt : runtime) :
  mutex_queue_ok m → mutex_queue_ok (mutex_unlock m rt).1.
Proof.
  unfold mutex_queue_ok. intros Hq. unfold mutex_unlock.
  case_bool_decide; [done|]. case_bool_decide as Hpos; [|done].
  destruct (queue_pop_ok _ _ Hq Hpos) as (Hq' & _ & _).
  unfold queue_pop in *. by simpl in *.
Qed.

Lemma cond_signal_queue_ok (c : cond_t) (rt : runtime) :
  cond_queue_ok c → cond_queue_ok (cond_signal c rt).1.
Proof.
  unfold cond_queue_ok. intros Hq. unfold cond_signal.
  case_bool_decide as Hz; [done|].
  destruct (queue_pop_ok _ _ Hq) as (Hq' & _ & _); [destruct Hq; lia|].
  unfold queue_pop in *. by simpl in *.
Qed.

Lemma cond_signal_current_tid (c : cond_t) (rt : runtime) :
  tid (current (cond_signal c rt).2) = tid (current rt).
Proof.
  unfold cond_signal. case_bool_decide; [done|].
  unfold queue_pop, current. simpl. apply wake_thread_tid.
Qed.

Lemma cond_broadcast_queue_ok (c : cond_t) (rt : runtime) :
  cond_queue_ok c → cond_queue_ok (cond_broadcast c rt).1.
Proof.
  unfold cond_queue_ok. intros Hq.
  destruct (cond_broadcast_loop_spec _ c rt Hq eq_refl) as (H1 & H2 & _).
  fold (cond_broadcast c rt) in H1, H2. split; [done|]. rewrite H1. lia.
Qed.

Lemma cond_broadcast_current_tid (c : cond_t) (rt : runtime) :
  tid (current (cond_broadcast c rt).2) = tid (current rt).
Proof.
  unfold cond_broadcast. generalize (Z.to_nat (Cond.wait_count c)) as fuel.
  intros fuel. revert c rt. induction fuel as [|fuel IH]; intros c rt; [done|].
  cbn [cond_broadcast_loop]. case_bool_decide; [|done].
  destruct (queue_pop _ _). rewrite IH. unfold current. simpl.
  apply wake_thread_tid.
Qed.

(** *** The three calls on a closed channel *)

Lemma channel_send_closed (ch : channel_t) (data : Z) (rt : runtime) :
  Chan.closed ch ≠ 0%Z →
  ∃ m, (channel_send ch data rt).1.1 = Chan.with_lock m ch
       ∧ (channel_send ch data rt).2 =
         (if bool_decide (Mutex.locked (Chan.lock ch) = 0%Z)
          then Returned (-1)%Z else Suspended)
       ∧ (Mutex.locked (Chan.lock ch) = 0%Z → Mutex.locked m = 0%Z)
       ∧ (mutex_queue_ok (Chan.lock ch) → lock_room ch → mutex_queue_ok m).
Proof.
  intros Hclosed. unfold channel_send. case_bool_decide as Hfree.
  - rewrite mutex_lock_free by done. unfold channel_send_locked. simpl.
    rewrite bool_decide_eq_true_2 by done.
    set (m1 := Mutex.mk 1 _ _ _).
    pose proof (mutex_unlock_owner m1 rt eq_refl) as Hu.
    pose proof (mutex_unlock_queue_ok m1 rt) as Hq.
    destruct (mutex_unlock m1 rt) as [m rt']. simpl in *.
    exists m. split; [done|]. split; [done|]. split; [done|].
    intros Hok _. by apply Hq.
  - destruct (mutex_lock_busy (Chan.lock ch) rt Hfree) as (Hp & Hl & Hq).
    destruct (mutex_lock (Chan.lock ch) rt) as [[m rt'] p]. simpl in *. subst p.
    exists m. split; [done|]. split; [done|]. split; [done|].
    intros Hok Hroom. by apply Hq; [apply Hroom|].
Qed.

Lemma channel_recv_closed (ch : channel_t) (rt : runtime) :
  Chan.closed ch ≠ 0%Z → chan_ok ch →
  if bool_decide (Mutex.locked (Chan.lock ch) = 0%Z) then
    if bool_decide (Chan.count ch = 0%Z) then
      ∃ m, (channel_recv ch rt).1.1 = Chan.with_lock m ch
           ∧ (channel_recv ch rt).2 = Returned ((-1)%Z, None)
           ∧ Mutex.locked m = 0%Z ∧ mutex_queue_ok m
    else
      ∃ m c, (channel_recv ch rt).1.1 =
               Chan.mk (Chan.buffer ch) (Chan.capacity ch) (Chan.count ch - 1)
                 ((Chan.read_pos ch + 1) mod Chan.capacity ch) (Chan.write_pos ch)
                 (Chan.closed ch) m (Chan.not_empty ch) c
             ∧ (channel_recv ch rt).2 =
               Returned (0%Z, Some (Chan.buffer ch !!! Z.to_nat (Chan.read_pos ch)))
             ∧ Mutex.locked m = 0%Z ∧ mutex_queue_ok m ∧ cond_queue_ok c
  else
    ∃ m, (channel_recv ch rt).1.1 = Chan.with_lock m ch
         ∧ (channel_recv ch rt).2 = Suspended
         ∧ (lock_room ch → mutex_queue_ok m).
Proof.
  intros Hclosed (Hcap & Hlen & Hcount & Hpos & Hlq & Hneq & Hnfq).
  unfold channel_recv. case_bool_decide as Hfree.
  - rewrite mutex_lock_free by done. unfold channel_recv_locked. simpl.
    set (m1 := Mutex.mk 1 _ _ _).
    assert (mutex_queue_ok m1) as Hq1 by done.
    case_bool_decide as Hzero.
    + rewrite bool_decide_eq_true_2 by done.
      pose proof (mutex_unlock_owner m1 rt eq_refl) as Hu.
      pose proof (mutex_unlock_queue_ok m1 rt Hq1) as Hq.
      destruct (mutex_unlock m1 rt) as [m rt']. simpl in *.
      by exists m.
    + rewrite bool_decide_eq_true_2 by lia.
      rewrite !int_wrap_small by (unfold INT_MIN, INT_MAX in *; lia).
      unfold c_rem. rewrite Z.rem_mod_nonneg by lia.
      pose proof (cond_signal_current_tid (Chan.not_full ch) rt) as Htid.
      pose proof (cond_signal_queue_ok (Chan.not_full ch) rt Hnfq) as Hcq.
      destruct (cond_signal (Chan.not_full ch) rt) as [c rt1]. simpl in *.
      pose proof (mutex_unlock_owner m1 rt1 (eq_sym Htid)) as Hu.
      pose proof (mutex_unlock_queue_ok m1 rt1 Hq1) as Hq.
      destruct (mutex_unlock m1 rt1) as [m rt2]. simpl in *.
      by exists m, c.
  - destruct (mutex_lock_busy (Chan.lock ch) rt Hfree) as (Hp & Hl & Hq).
    destruct (mutex_lock (Chan.lock ch) rt) as [[m rt'] p]. simpl in *. subst p.
    exists m. split; [done|]. split; [done|].
    intros Hroom. by apply Hq; [apply Hroom|].
Qed.

Lemma channel_close_result (ch : channel_t) (rt : runtime) :
  chan_ok ch →
  if bool_decide (Mutex.locked (Chan.lock ch) = 0%Z) then
    ∃ m c1 c2, (channel_close ch rt).1.1 =
                 Chan.mk (Chan.buffer ch) (Chan.capacity ch) (Chan.count ch)
                   (Chan.read_pos ch) (Chan.write_pos ch) 1 m c1 c2
               ∧ (channel_close ch rt).2 = Done
               ∧ Mutex.locked m = 0%Z
               ∧ mutex_queue_ok m ∧ cond_queue_ok c1 ∧ cond_queue_ok c2
  else
    ∃ m, (channel_close ch rt).1.1 = Chan.with_lock m ch
         ∧ (channel_close ch rt).2 = Parked
         ∧ (lock_room ch → mutex_queue_ok m).
Proof.
  intros (Hcap & Hlen & Hcount & Hpos & Hlq & Hneq & Hnfq).
  unfold channel_close. case_bool_decide as Hfree.
  - rewrite mutex_lock_free by done. unfold channel_close_locked. simpl.
    set (m1 := Mutex.mk 1 _ _ _).
    assert (mutex_queue_ok m1) as Hq1 by done.
    pose proof (cond_broadcast_queue_ok (Chan.not_empty ch) rt Hneq) as Hc1.
    pose proof (cond_broadcast_current_tid (Chan.not_empty ch) rt) as Ht1.
    destruct (cond_broadcast (Chan.not_empty ch) rt) as [c1 rt1]. simpl in *.
    pose proof (cond_broadcast_queue_ok (Chan.not_full ch) rt1 Hnfq) as Hc2.
    pose proof (cond_broadcast_current_tid (Chan.not_full ch) rt1) as Ht2.
    destruct (cond_broadcast (Chan.not_full ch) rt1) as [c2 rt2]. simpl in *.
    assert (tid (current rt2) = tid (current rt)) as Htid
      by (rewrite Ht2; done).
    pose proof (mutex_unlock_owner m1 rt2 (eq_sym Htid)) as Hu.
    pose proof (mutex_unlock_queue_ok m1 rt2 Hq1) as Hq.
    destruct (mutex_unlock m1 rt2) as [m rt3]. simpl in *.
    by exists m, c1, c2.
  - destruct (mutex_lock_busy (Chan.lock ch) rt Hfree) as (Hp & Hl & Hq).
    destruct (mutex_lock (Chan.lock ch) rt) as [[m rt'] p]. simpl in *. subst p.
    exists m. split; [done|]. split; [done|].
    intros Hroom. by apply Hq; [apply Hroom|].
Qed.

Lemma channel_close_sets_closed (ch : channel_t) (rt : runtime) :
  chan_ok ch → (channel_close ch rt).2 = Done →
  Chan.closed (channel_close ch rt).1.1 = 1%Z
  ∧ chan_ok (channel_close ch rt).1.1
  ∧ chan_items (channel_close ch rt).1.1 = chan_items ch
  ∧ Mutex.locked (Chan.lock (channel_close ch rt).1.1) = 0%Z.
Proof.
  intros Hok Hdone. pose proof (channel_close_result ch rt Hok) as Hres.
  case_bool_decide.
  - destruct Hres as (m & c1 & c2 & -> & _ & Hl & Hq & Hq1 & Hq2).
    destruct Hok as (Hcap & Hlen & Hcount & Hpos & _). simpl.
    split; [done|]. split; [|done]. by unfold chan_ok.
  - destruct Hres as (m & _ & Hp & _). congruence.
Qed.

Lemma chan_reach_closed (ch0 ch : channel_t) (out : list Z) :
  chan_ok ch0 → Chan.closed ch0 ≠ 0%Z → chan_reach ch0 ch out →
  Chan.closed ch ≠ 0%Z ∧ chan_ok ch
  ∧ Chan.buffer ch = Chan.buffer ch0
  ∧ out ++ chan_items ch = chan_items ch0
  ∧ (Mutex.locked (Chan.lock ch0) = 0%Z → Mutex.locked (Chan.lock ch) = 0%Z).
Proof.
  intros Hok0 Hclosed0 Hreach.
  induction Hreach as [|ch out data rt Hreach IH Hroom
                        |ch out rt Hreach IH Hroom
                        |ch out rt Hreach IH Hroom].
  - done.
  - destruct IH as (Hclosed & Hok & Hbuf & Hitems & Hfree).
    destruct (channel_send_closed ch data rt Hclosed) as (m & -> & _ & Hl & Hq).
    destruct Hok as (Hcap & Hlen & Hcount & Hpos & Hlq & Hneq & Hnfq).
    split; [done|]. split; [|split; [done|split; [done|]]].
    + unfold chan_ok. simpl.
      repeat (split; [done|]). split; [by apply Hq | done].
    + intros Hfree0. simpl. by apply Hl, Hfree.
  - destruct IH as (Hclosed & Hok & Hbuf & Hitems & Hfree).
    pose proof (channel_recv_closed ch rt Hclosed Hok) as Hres.
    destruct Hok as (Hcap & Hlen & Hcount & Hpos & Hlq & Hneq & Hnfq).
    case_bool_decide as Hfree'; [case_bool_decide as Hzero|].
    + destruct Hres as (m & -> & -> & Hl & Hq). rewrite app_nil_r.
      split; [done|]. split; [|done]. by unfold chan_ok.
    + destruct Hres as (m & c & -> & -> & Hl & Hq & Hcq). simpl.
      split; [done|]. split; [|split; [done|split; [|done]]].
      * unfold chan_ok. simpl. split; [done|]. split; [done|].
        split; [lia|]. split; [by apply Z.mod_pos_bound; lia | done].
      * rewrite <- Hitems, <- app_assoc. f_equal. unfold chan_items. simpl.
        rewrite (ring_items_pop _ _ (Chan.read_pos ch)) by lia. done.
    + destruct Hres as (m & -> & -> & Hq). rewrite app_nil_r.
      split; [done|]. split; [|split; [done|split; [done|]]].
      * unfold chan_ok. simpl.
        repeat (split; [done|]). split; [by apply Hq | done].
      * intros Hfree0. by destruct Hfree', Hfree.
  - destruct IH as (Hclosed & Hok & Hbuf & Hitems & Hfree).
    pose proof (channel_close_result ch rt Hok) as Hres.
    destruct Hok as (Hcap & Hlen & Hcount & Hpos & Hlq & Hneq & Hnfq).
    case_bool_decide as Hfree'.
    + destruct Hres as (m & c1 & c2 & -> & _ & Hl & Hq & Hq1 & Hq2). simpl.
      split; [done|]. split; [|done]. by unfold chan_ok.
    + destruct Hres as (m & -> & _ & Hq).
      split; [done|]. split; [|split; [done|split; [done|]]].
      * unfold chan_ok. simpl.
        repeat (split; [done|]). split; [by apply Hq | done].
      * intros Hfree0. by destruct Hfree', Hfree.
Qed.

(** [channel_recv] returns -1 from one place only. *)
Lemma channel_recv_minus_one (ch : channel_t) (rt : runtime) (v : option Z) :
  (channel_recv ch rt).2 = Returned ((-1)%Z, v) →
  Chan.count ch = 0%Z ∧ Chan.closed ch ≠ 0%Z.
Proof.
  unfold channel_recv. destruct (mutex_lock (Chan.lock ch) rt) as [[m rt1] p].
  destruct p; [|done]. unfold channel_recv_locked. simpl.
  case_bool_decide as Hzero; [case_bool_decide as Hclosed|].
  - intros _. done.
  - by destruct (cond_wait _ _ _) as [[? ?] ?].
  - destruct (cond_signal _ _) as [c rt2]. by destruct (mutex_unlock _ _).
Qed.

Lemma recv_each_drains (rts : list runtime) (ch : channel_t) :
  chan_ok ch → Chan.closed ch ≠ 0%Z → Mutex.locked (Chan.lock ch) = 0%Z →
  length rts = length (chan_items ch) →
  (recv_each rts ch).2 = (λ v, Returned (0%Z, Some v)) <$> chan_items ch
  ∧ Chan.count (recv_each rts ch).1 = 0%Z
  ∧ ∀ rt, (channel_recv (recv_each rts ch).1 rt).2 = Returned ((-1)%Z, None).
Proof.
  revert ch. induction rts as [|rt rts IH]; intros ch Hok Hclosed Hfree Hlen.
  - simpl in *. symmetry in Hlen. apply nil_length_inv in Hlen.
    assert (Chan.count ch = 0%Z) as Hzero.
    { apply (ring_items_nil (Chan.buffer ch) (Chan.capacity ch) (Chan.read_pos ch));
        [apply Hok | done]. }
    rewrite Hlen. split; [done|]. split; [done|]. intros rt.
    pose proof (channel_recv_closed ch rt Hclosed Hok) as Hres.
    rewrite !bool_decide_eq_true_2 in Hres by done.
    by destruct Hres as (m & _ & -> & _).
  - pose proof (channel_recv_closed ch rt Hclosed Hok) as Hres.
    rewrite bool_decide_eq_true_2 in Hres by done.
    pose proof Hok as (Hcap & Hblen & Hcount & Hpos & Hlq & Hneq & Hnfq).
    case_bool_decide as Hzero.
    { unfold chan_items in Hlen. rewrite Hzero in Hlen. done. }
    destruct Hres as (m & c & Hch & Hout & Hl & Hq & Hcq).
    assert (chan_items ch =
            Chan.buffer ch !!! Z.to_nat (Chan.read_pos ch)
              :: chan_items (channel_recv ch rt).1.1) as Hitems.
    { rewrite Hch. unfold chan_items. simpl.
      rewrite (ring_items_pop _ _ (Chan.read_pos ch)) by lia. done. }
    cbn [recv_each]. cbv zeta. cbn [fst snd]. rewrite Hout, Hitems, fmap_cons.
    destruct (IH (channel_recv ch rt).1.1) as (IH1 & IH2 & IH3).
    + rewrite Hch. unfold chan_ok. simpl. split; [done|]. split; [done|].
      split; [lia|]. split; [by apply Z.mod_pos_bound; lia | done].
    + by rewrite Hch.
    + by rewrite Hch.
    + rewrite Hitems in Hlen. simpl in Hlen. lia.
    + by rewrite IH1.
Qed.

(** C6.  From a channel whose [closed] is set, whatever sends, receives
    and closes follow: [closed] stays set and the buffer is the one it was;
    every [channel_send] returns -1, as soon as it gets the lock, and
    leaves buffer, [count] and [write_pos] as they were; a [channel_recv]
    that returns -1 found [count] at 0; a [channel_recv] that gets the lock
    returns 0 with the oldest item left, or -1 when none is left; the
    values received so far followed by the items left are the items the
    channel held when it was closed, in their order; and as many
    [channel_recv] calls as there are items left return them all, in
    order, after which [channel_recv] returns -1.  Every one of these
    calls gives the lock back: when the lock was free at the start, as
    [channel_close] leaves it, it is free after every call, so that every
    [channel_send] returns -1 and no [channel_recv] suspends.  A
    [channel_close] that gets the lock of a well-formed channel sets
    [closed], keeps the items and leaves the lock free. *)
Theorem close_monotonicity (ch0 ch : channel_t) (out : list Z) :
  chan_ok ch0 → Chan.closed ch0 ≠ 0%Z →
  chan_reach ch0 ch out →
  Chan.closed ch ≠ 0%Z
  ∧ Chan.buffer ch = Chan.buffer ch0
  ∧ out ++ chan_items ch = chan_items ch0
  ∧ (∀ data rt,
       (channel_send ch data rt).2 =
         (if bool_decide (Mutex.locked (Chan.lock ch) = 0%Z)
          then Returned (-1)%Z else Suspended)
       ∧ Chan.buffer (channel_send ch data rt).1.1 = Chan.buffer ch
       ∧ Chan.count (channel_send ch data rt).1.1 = Chan.count ch
       ∧ Chan.write_pos (channel_send ch data rt).1.1 = Chan.write_pos ch)
  ∧ (∀ rt v, (channel_recv ch rt).2 = Returned ((-1)%Z, v) →
       Chan.count ch = 0%Z ∧ chan_items ch = [])
  ∧ (∀ rt, Mutex.locked (Chan.lock ch) = 0%Z →
       (channel_recv ch rt).2 =
         match chan_items ch with
         | [] => Returned ((-1)%Z, None)
         | v :: _ => Returned (0%Z, Some v)
         end)
  ∧ (∀ rts, Mutex.locked (Chan.lock ch) = 0%Z →
       length rts = length (chan_items ch) →
       (recv_each rts ch).2 = (λ v, Returned (0%Z, Some v)) <$> chan_items ch
       ∧ ∀ rt, (channel_recv (recv_each rts ch).1 rt).2 = Returned ((-1)%Z, None))
  ∧ (Mutex.locked (Chan.lock ch0) = 0%Z →
       Mutex.locked (Chan.lock ch) = 0%Z
       ∧ (∀ data rt,
            (channel_send ch data rt).2 = Returned (-1)%Z
            ∧ Mutex.locked (Chan.lock (channel_send ch data rt).1.1) = 0%Z)
       ∧ (∀ rt,
            (channel_recv ch rt).2 =
              match chan_items ch with
              | [] => Returned ((-1)%Z, None)
              | v :: _ => Returned (0%Z, Some v)
              end
            ∧ Mutex.locked (Chan.lock (channel_recv ch rt).1.1) = 0%Z)
       ∧ (∀ rt,
            (channel_close ch rt).2 = Done
            ∧ Mutex.locked (Chan.lock (channel_close ch rt).1.1) = 0%Z)
       ∧ (∀ rts, length rts = length (chan_items ch) →
            (recv_each rts ch).2 = (λ v, Returned (0%Z, Some v)) <$> chan_items ch
            ∧ ∀ rt, (channel_recv (recv_each rts ch).1 rt).2
                    = Returned ((-1)%Z, None)))
  ∧ (∀ ch1 rt, chan_ok ch1 → Mutex.locked (Chan.lock ch1) = 0%Z →
       (channel_close ch1 rt).2 = Done
       ∧ chan_ok (channel_close ch1 rt).1.1
       ∧ Chan.closed (channel_close ch1 rt).1.1 ≠ 0%Z
       ∧ chan_items (channel_close ch1 rt).1.1 = chan_items ch1
       ∧ Mutex.locked (Chan.lock (channel_close ch1 rt).1.1) = 0%Z).
Proof.
  intros Hok0 Hclosed0 Hreach.
  destruct (chan_reach_closed ch0 ch out Hok0 Hclosed0 Hreach)
    as (Hclosed & Hok & Hbuf & Hitems & Hlock).
  assert (∀ rt, Mutex.locked (Chan.lock ch) = 0%Z →
       (channel_recv ch rt).2 =
         match chan_items ch with
         | [] => Returned ((-1)%Z, None)
         | v :: _ => Returned (0%Z, Some v)
         end
       ∧ Mutex.locked (Chan.lock (channel_recv ch rt).1.1) = 0%Z) as Hrecv.
  { intros rt Hfree. pose proof (channel_recv_closed ch rt Hclosed Hok) as Hres.
    rewrite bool_decide_eq_true_2 in Hres by done.
    pose proof Hok as (Hcap & Hblen & Hcount & Hpos & _).
    case_bool_decide as Hzero.
    + destruct Hres as (m & -> & -> & Hl & _). unfold chan_items.
      by rewrite Hzero.
    + destruct Hres as (m & c & -> & -> & Hl & _). unfold chan_items.
      rewrite (ring_items_pop _ _ (Chan.read_pos ch)) by lia. done. }
  assert (∀ ch1 rt, chan_ok ch1 → Mutex.locked (Chan.lock ch1) = 0%Z →
       (channel_close ch1 rt).2 = Done
       ∧ chan_ok (channel_close ch1 rt).1.1
       ∧ Chan.closed (channel_close ch1 rt).1.1 ≠ 0%Z
       ∧ chan_items (channel_close ch1 rt).1.1 = chan_items ch1
       ∧ Mutex.locked (Chan.lock (channel_close ch1 rt).1.1) = 0%Z) as Hclose.
  { intros ch1 rt Hok1 Hfree1.
    assert ((channel_close ch1 rt).2 = Done) as Hdone.
    { pose proof (channel_close_result ch1 rt Hok1) as Hres.
      rewrite bool_decide_eq_true_2 in Hres by done.
      by destruct Hres as (m & c1 & c2 & _ & -> & _). }
    destruct (channel_close_sets_closed ch1 rt Hok1 Hdone) as (Hc & Hok1' & Hi & Hl).
    split; [done|]. split; [done|]. split; [by rewrite Hc|]. done. }
  split; [done|]. split; [done|]. split; [done|].
  split; [|split; [|split; [|split; [|split; [|done]]]]].
  - intros data rt.
    destruct (channel_send_closed ch data rt Hclosed) as (m & -> & -> & _).
    done.
  - intros rt v Hret. apply channel_recv_minus_one in Hret as [Hzero _].
    split; [done|]. unfold chan_items. by rewrite Hzero.
  - intros rt Hfree. by apply Hrecv.
  - intros rts Hfree Hlen.
    destruct (recv_each_drains rts ch Hok Hclosed Hfree Hlen) as (H1 & _ & H3).
    done.
  - intros Hfree0. pose proof (Hlock Hfree0) as Hfree.
    split; [done|]. split; [|split; [|split]].
    + intros data rt.
      destruct (channel_send_closed ch data rt Hclosed) as (m & -> & -> & Hl & _).
      rewrite bool_decide_eq_true_2 by done. split; [done|]. by apply Hl.
    + intros rt. by apply Hrecv.
    + intros rt. destruct (Hclose ch rt Hok Hfree) as (Hd & _ & _ & _ & Hl). done.
    + intros rts Hlen.
      destruct (recv_each_drains rts ch Hok Hclosed Hfree Hlen) as (H1 & _ & H3).
      done.
Qed.

(** * Further properties *)

(** ** The scheduler, slot by slot *)

Lemma thread_schedule_slot (rt : runtime) (i : nat) :
  table_ok rt → i < MAX_THREADS →
  threads (thread_schedule rt) !!! i =
  match find_runnable_thread rt with
  | None => threads rt !!! i
  | Some next =>
      if decide (i = next) then set_state T_RUNNING (threads rt !!! i)
      else if decide (i = current_thread rt)
           then set_sp (SpSaved (length (switch_log rt)))
                  (if decide (state (current rt) = T_RUNNING)
                   then set_state T_RUNNABLE (threads rt !!! i)
                   else threads rt !!! i)
           else threads rt !!! i
  end.
Proof.
  intros Hok Hi. pose proof Hok as [Hlen Hcur].
  destruct (find_runnable_thread rt) as [next|] eqn:Hnext.
  - rewrite (thread_schedule_Some rt next Hnext). cbn [threads].
    pose proof (thread_schedule_table_ok rt next Hok Hnext) as Hlt.
    rewrite find_runnable_thread_pick in Hnext by done.
    apply round_robin_pick_Some in Hnext as [_ Hrun].
    assert (length (if bool_decide (state (current rt) = T_RUNNING)
                    then alter (set_state T_RUNNABLE) (current_thread rt) (threads rt)
                    else threads rt) = MAX_THREADS) as Hlen'.
    { case_bool_decide; rewrite ?length_alter; done. }
    destruct (decide (i = next)) as [->|Hne].
    + assert (∀ v, (if bool_decide (current_thread rt = next) then id
                    else alter (set_sp v) (current_thread rt))
                (alter (set_state T_RUNNING) next
                   (if bool_decide (state (current rt) = T_RUNNING)
                    then alter (set_state T_RUNNABLE) (current_thread rt) (threads rt)
                    else threads rt)) !!! next
              = alter (set_state T_RUNNING) next
                   (if bool_decide (state (current rt) = T_RUNNING)
                    then alter (set_state T_RUNNABLE) (current_thread rt) (threads rt)
                    else threads rt) !!! next) as ->.
      { intros v. destruct (decide (current_thread rt = next)) as [Hcn|Hcn].
        - by rewrite (bool_decide_eq_true_2 (current_thread rt = next)) by done.
        - rewrite (bool_decide_eq_false_2 (current_thread rt = next)) by done.
          by rewrite list_lookup_total_alter_ne by done. }
      rewrite list_lookup_total_alter_eq by lia. clear Hlen'.
      case_bool_decide as Hc; [|done].
      rewrite list_lookup_total_alter_ne; [done|].
      intros <-. unfold current in Hc. congruence.
    + destruct (decide (i = current_thread rt)) as [->|Hnc].
      * rewrite (bool_decide_eq_false_2 (current_thread rt = next)) by done.
        rewrite list_lookup_total_alter_eq by (rewrite length_alter; lia).
        rewrite list_lookup_total_alter_ne by done. clear Hlen'.
        f_equal. destruct (decide (state (current rt) = T_RUNNING)) as [Hc|Hc].
        -- rewrite bool_decide_eq_true_2 by done.
           by rewrite list_lookup_total_alter_eq by lia.
        -- by rewrite bool_decide_eq_false_2 by done.
      * rewrite saved_sp_other by done.
        rewrite list_lookup_total_alter_ne by done. clear Hlen'.
        case_bool_decide as Hc; [|done].
        by rewrite list_lookup_total_alter_ne.
  - by rewrite thread_schedule_None.
Qed.

Lemma thread_schedule_preserves_table_ok (rt : runtime) :
  table_ok rt → table_ok (thread_schedule rt).
Proof.
  intros Hok. split; [rewrite length_schedule_table; apply Hok|].
  destruct (find_runnable_thread rt) as [next|] eqn:Hnext.
  - rewrite (thread_schedule_Some rt next Hnext). simpl.
    by eapply thread_schedule_table_ok.
  - rewrite thread_schedule_None by done. apply Hok.
Qed.

Lemma update_current_lookup (f : thread → thread) (rt : runtime) (i : nat) :
  table_ok rt →
  threads (update_current f rt) !!! i =
  if decide (i = current_thread rt) then f (threads rt !!! i) else threads rt !!! i.
Proof.
  intros [Hlen Hcur]. unfold update_current. simpl.
  destruct (decide (i = current_thread rt)) as [->|Hne].
  - by rewrite list_lookup_total_alter_eq by lia.
  - by rewrite list_lookup_total_alter_ne.
Qed.

Lemma update_current_table_ok (f : thread → thread) (rt : runtime) :
  table_ok rt → table_ok (update_current f rt).
Proof.
  intros [Hlen Hcur]. split; [|done].
  unfold update_current. simpl. by rewrite length_alter.
Qed.

(** The C code of the scheduler writes [state] only, and only RUNNING
    over RUNNABLE or RUNNABLE over RUNNING; the switch writes [sp], and
    only in the slot switched away from. *)
Lemma thread_schedule_fields (rt : runtime) (i : nat) :
  table_ok rt → i < MAX_THREADS →
  let t := threads rt !!! i in
  let t' := threads (thread_schedule rt) !!! i in
  t' = set_sp (sp t') (set_state (state t') t)
  ∧ (state t' = state t
     ∨ (state t = T_RUNNING ∧ state t' = T_RUNNABLE)
     ∨ (state t = T_RUNNABLE ∧ state t' = T_RUNNING))
  ∧ sp t' = (if decide (i = current_thread rt
                        ∧ current_thread (thread_schedule rt) ≠ i)
             then SpSaved (length (switch_log rt)) else sp t).
Proof.
  intros Hok Hi t t'. subst t t'. rewrite thread_schedule_slot by done.
  destruct (find_runnable_thread rt) as [next|] eqn:Hnext.
  - rewrite (thread_schedule_Some rt next Hnext). cbn [current_thread].
    rewrite find_runnable_thread_pick in Hnext by done.
    apply round_robin_pick_Some in Hnext as [Hlt Hrun].
    destruct (decide (i = next)) as [->|Hne].
    + split; [by destruct (threads rt !!! next)|]. split; [right; right; done|].
      destruct (decide (_ ∧ _)) as [[_ ?]|_]; done.
    + destruct (decide (i = current_thread rt)) as [->|Hnc].
      * destruct (decide (_ ∧ _)) as [_|Hn];
          [|destruct Hn; split; [done | by apply not_eq_sym]].
        unfold current.
        destruct (decide (state (threads rt !!! current_thread rt) = T_RUNNING))
          as [Hc|Hc].
        -- split; [by destruct (threads rt !!! current_thread rt)|].
           split; [right; left; done | done].
        -- split; [by destruct (threads rt !!! current_thread rt)|].
           split; [by left | done].
      * destruct (decide (_ ∧ _)) as [[? _]|_]; [done|].
        split; [by destruct (threads rt !!! i)|]. split; [by left | done].
  - rewrite thread_schedule_None by done.
    destruct (decide (_ ∧ _)) as [[? ?]|_]; [done|].
    split; [by destruct (threads rt !!! i)|]. split; [by left | done].
Qed.

(** The slot the scheduler leaves current is RUNNING, or the scheduler
    found nothing and changed nothing. *)
Lemma thread_schedule_current (rt : runtime) :
  table_ok rt →
  (state (current (thread_schedule rt)) = T_RUNNING
   ∧ is_Some (find_runnable_thread rt))
  ∨ (thread_schedule rt = rt ∧ find_runnable_thread rt = None).
Proof.
  intros Hok. destruct (find_runnable_thread rt) as [next|] eqn:Hnext.
  - left. split; [|done]. unfold current.
    rewrite thread_schedule_slot by
      (try done; rewrite (thread_schedule_Some rt next Hnext); simpl;
       by eapply thread_schedule_table_ok).
    rewrite Hnext. rewrite (thread_schedule_Some rt next Hnext). simpl.
    by rewrite decide_True.
  - right. by rewrite thread_schedule_None.
Qed.

(** X1.  In a slot, [thread_schedule] writes [state] and, through
    [thread_switch], [sp], and nothing else.  It writes [state] in two
    slots at most: the old current one, from RUNNING to RUNNABLE when
    another slot is picked, and the slot it picks, from RUNNABLE to
    RUNNING.  It writes [sp] in one slot at most, the old current one, and
    exactly when it switches away from it: the slot then holds the stack
    pointer saved by that switch, which is the last entry of [switch_log];
    every other slot keeps its [sp], so that a slot whose state and [sp]
    are kept is left as it is.  A slot that is UNUSED, SLEEPING or a
    zombie keeps its state and is never the one picked; [next_tid] is not
    touched. *)
Theorem thread_schedule_frame (rt : runtime) (i : nat) :
  table_ok rt → i < MAX_THREADS →
  let t := threads rt !!! i in
  let rt' := thread_schedule rt in
  let t' := threads rt' !!! i in
  let switched_out := i = current_thread rt ∧ current_thread rt' ≠ i in
  t' = set_sp (sp t') (set_state (state t') t)
  ∧ (state t' = state t
     ∨ (state t = T_RUNNING ∧ state t' = T_RUNNABLE
        ∧ i = current_thread rt ∧ current_thread rt' ≠ i)
     ∨ (state t = T_RUNNABLE ∧ state t' = T_RUNNING
        ∧ i = current_thread rt'))
  ∧ (switched_out →
       sp t' = SpSaved (length (switch_log rt))
       ∧ switch_log rt' = switch_log rt ++ [(i, current_thread rt')])
  ∧ (¬ switched_out → sp t' = sp t)
  ∧ (state t' = state t → ¬ switched_out → t' = t)
  ∧ (state t ≠ T_RUNNABLE → state t ≠ T_RUNNING → state t' = state t)
  ∧ (state t ≠ T_RUNNABLE → current_thread rt' = i →
       current_thread rt = i ∧ rt' = rt)
  ∧ next_tid rt' = next_tid rt
  ∧ length (threads rt') = length (threads rt).
Proof.
  intros Hok Hi t rt' t' switched_out.
  destruct (thread_schedule_fields rt i Hok Hi) as (Hf & Hs & Hsp).
  change (threads (thread_schedule rt) !!! i) with t' in Hf, Hs, Hsp.
  change (threads rt !!! i) with t in Hf, Hs, Hsp.
  change (i = current_thread rt ∧ current_thread (thread_schedule rt) ≠ i)
    with switched_out in Hsp.
  assert (switched_out → switch_log rt' = switch_log rt ++ [(i, current_thread rt')])
    as Hlog.
  { intros [-> Hne]. subst rt'.
    destruct (find_runnable_thread rt) as [next|] eqn:Hnext.
    - rewrite (thread_schedule_Some rt next Hnext) in *. simpl in *.
      by rewrite bool_decide_eq_false_2 by done.
    - rewrite thread_schedule_None in Hne by done. done. }
  assert (state t' = state t
     ∨ (state t = T_RUNNING ∧ state t' = T_RUNNABLE
        ∧ i = current_thread rt ∧ current_thread rt' ≠ i)
     ∨ (state t = T_RUNNABLE ∧ state t' = T_RUNNING
        ∧ i = current_thread rt')) as Hst.
  { subst t t' rt'. clear Hf Hs Hsp Hlog. rewrite thread_schedule_slot by done.
    destruct (find_runnable_thread rt) as [next|] eqn:Hnext; [|by left].
    rewrite (thread_schedule_Some rt next Hnext). cbn [current_thread].
    rewrite find_runnable_thread_pick in Hnext by done.
    apply round_robin_pick_Some in Hnext as [Hlt Hrun].
    destruct (decide (i = next)) as [->|Hne]; [right; right; done|].
    destruct (decide (i = current_thread rt)) as [->|Hnc]; [|by left].
    unfold current. destruct (decide _) as [Hc|Hc]; [|by left].
    right. left. simpl. repeat split; (done || by apply not_eq_sym). }
  split; [done|]. split; [done|]. split; [|split; [|split; [|split; [|split]]]].
  - intros Hsw. split; [|by apply Hlog]. by rewrite Hsp, decide_True.
  - intros Hsw. by rewrite Hsp, decide_False.
  - intros Hstate Hsw. rewrite Hf, Hstate, Hsp, decide_False by done.
    by destruct t.
  - intros H1 H2. destruct Hst as [?|[[? _]|[? _]]]; done.
  - intros Hnr Hcur. subst rt'.
    destruct (find_runnable_thread rt) as [next|] eqn:Hnext.
    + exfalso. rewrite (thread_schedule_Some rt next Hnext) in Hcur.
      simpl in Hcur. subst next.
      rewrite find_runnable_thread_pick in Hnext by done.
      by apply round_robin_pick_Some in Hnext as [_ Hrun].
    + rewrite thread_schedule_None in * by done. done.
  - split; [|apply length_schedule_table]. subst rt'.
    destruct (find_runnable_thread rt) as [next|] eqn:Hnext.
    + by rewrite (thread_schedule_Some rt next Hnext).
    + by rewrite thread_schedule_None.
Qed.

(** ** Yielding *)

Lemma find_fmap_seq {A : Type} (f : A → bool) (g : nat → A) (a n : nat) (x : A) :
  find f (g <$> seq a n) = Some x →
  ∃ k, a ≤ k < a + n ∧ x = g k ∧ f (g k) = true
       ∧ ∀ j, a ≤ j < k → f (g j) = false.
Proof.
  revert a. induction n as [|n IH]; intros a; simpl; [done|].
  destruct (f (g a)) eqn:Hf.
  - intros [= <-]. exists a. split; [lia|]. split; [done|]. split; [done|]. lia.
  - intros H. apply IH in H as (k & Hk & -> & Hfk & Hlt).
    exists k. split; [lia|]. split; [done|]. split; [done|].
    intros j Hj. destruct (decide (j = a)) as [->|]; [done|]. apply Hlt. lia.
Qed.

Lemma mod_MAX_THREADS (n : nat) :
  n < 2 * MAX_THREADS →
  n mod MAX_THREADS = if decide (n < MAX_THREADS) then n else n - MAX_THREADS.
Proof.
  intros Hn. case_decide as Hlt; [by apply Nat.mod_small|].
  replace n with (n - MAX_THREADS + 1 * MAX_THREADS) at 1 by lia.
  rewrite Nat.Div0.mod_add. apply Nat.mod_small. lia.
Qed.

(** Arithmetic on slot indices, with [MAX_THREADS] as a number. *)
Ltac slot_lia := unfold MAX_THREADS in *; lia.

(** What one [thread_yield] does: the slot that runs next is the first
    one, counting from the slot after the caller and coming back to the
    caller at the end of the round, that is RUNNABLE. *)
Lemma thread_yield_pick (rt : runtime) :
  table_ok rt →
  ∃ k, 1 ≤ k ≤ MAX_THREADS
       ∧ current_thread (thread_yield rt) = (current_thread rt + k) mod MAX_THREADS
       ∧ (∀ j, 1 ≤ j < k →
            state (threads rt !!! ((current_thread rt + j) mod MAX_THREADS))
            ≠ T_RUNNABLE)
       ∧ (k < MAX_THREADS →
            state (threads rt !!! ((current_thread rt + k) mod MAX_THREADS))
            = T_RUNNABLE)
       ∧ table_ok (thread_yield rt)
       ∧ state (current (thread_yield rt)) = T_RUNNING
       ∧ switch_log (thread_yield rt) =
           (if bool_decide (k = MAX_THREADS) then switch_log rt
            else switch_log rt ++ [(current_thread rt, current_thread (thread_yield rt))])
       ∧ (k < MAX_THREADS →
            state (threads (thread_yield rt) !!! current_thread rt) = T_RUNNABLE)
       ∧ ∀ i, i < MAX_THREADS → i ≠ current_thread rt →
              i ≠ current_thread (thread_yield rt) →
              threads (thread_yield rt) !!! i = threads rt !!! i.
Proof.
  intros Hok. pose proof Hok as [Hlen Hcur].
  set (marked := update_current (set_state T_RUNNABLE) rt).
  assert (table_ok marked) as Hokm.
  { split; [|done]. unfold marked, update_current. simpl. by rewrite length_alter. }
  assert (∀ i, i ≠ current_thread rt → threads marked !!! i = threads rt !!! i) as Hsame.
  { intros i Hi. unfold marked, update_current. simpl.
    by rewrite list_lookup_total_alter_ne. }
  assert (threads marked !!! current_thread rt
          = set_state T_RUNNABLE (threads rt !!! current_thread rt)) as Hmc.
  { unfold marked, update_current. simpl. by rewrite list_lookup_total_alter_eq by lia. }
  assert (∀ j, 1 ≤ j < MAX_THREADS →
            (current_thread rt + j) mod MAX_THREADS ≠ current_thread rt
            ∧ (current_thread rt + j) mod MAX_THREADS < MAX_THREADS) as Hmod.
  { intros j Hj. rewrite mod_MAX_THREADS by slot_lia. destruct (decide _); slot_lia. }
  destruct (round_robin_pick marked) as [next|] eqn:Hpick.
  2:{ rewrite round_robin_pick_None in Hpick.
      destruct (Hpick (current_thread rt)).
      - by apply round_robin_order_current.
      - change (current_thread marked) with (current_thread rt).
        by rewrite Hmc. }
  pose proof Hpick as Hfind. rewrite <- find_runnable_thread_pick in Hfind by done.
  unfold round_robin_pick, round_robin_order in Hpick.
  apply find_fmap_seq in Hpick as (k & Hk & Hnext & Hrun & Hfirst).
  change (current_thread marked) with (current_thread rt) in *.
  unfold is_runnable in Hrun. apply bool_decide_eq_true in Hrun.
  exists k. unfold thread_yield. fold marked.
  pose proof (λ i, thread_schedule_slot marked i Hokm) as Hslot.
  cbv beta in Hslot. rewrite Hfind in Hslot.
  rewrite (thread_schedule_Some marked next Hfind). cbn [current_thread switch_log].
  rewrite <- (thread_schedule_Some marked next Hfind).
  change (current_thread marked) with (current_thread rt) in *.
  assert (state (current marked) ≠ T_RUNNING) as Hnr
    by (unfold current; change (current_thread marked) with (current_thread rt);
        rewrite Hmc; done).
  split; [lia|]. split; [done|]. split; [|split; [|split; [|split; [|split; [|split]]]]].
  - intros j Hj. specialize (Hfirst j ltac:(lia)).
    unfold is_runnable in Hfirst. apply bool_decide_eq_false in Hfirst.
    destruct (Hmod j ltac:(lia)) as [Hne _]. by rewrite Hsame in Hfirst.
  - intros Hlt. destruct (Hmod k ltac:(lia)) as [Hne _].
    rewrite <- Hsame by done. done.
  - by apply thread_schedule_preserves_table_ok.
  - unfold current.
    assert (current_thread (thread_schedule marked) = next) as ->
      by (by rewrite (thread_schedule_Some marked next Hfind)).
    rewrite Hslot by (by eapply thread_schedule_table_ok).
    by rewrite decide_True.
  - assert (k = MAX_THREADS ↔ current_thread rt = next) as Hiff.
    { rewrite Hnext. split.
      - intros ->. rewrite mod_MAX_THREADS by (unfold MAX_THREADS in *; lia). destruct (decide (current_thread rt + MAX_THREADS < MAX_THREADS)); unfold MAX_THREADS in *; lia.
      - intros Heq. destruct (decide (k = MAX_THREADS)) as [|Hne]; [done|].
        destruct (Hmod k ltac:(lia)) as [? _]. congruence. }
    change (switch_log marked) with (switch_log rt).
    case_bool_decide as Hkm.
    + rewrite bool_decide_eq_true_2; [done | by apply Hiff].
    + rewrite bool_decide_eq_false_2; [done | by rewrite Hiff].
  - intros Hlt. destruct (Hmod k ltac:(lia)) as [Hne _].
    rewrite Hslot by done. rewrite decide_False by (rewrite Hnext; done).
    rewrite decide_True by done.
    destruct (decide _); cbn [set_sp set_state state]; [done | by rewrite Hmc].
  - intros i Hi Hnc Hnn. rewrite Hslot by done.
    rewrite decide_False by done. rewrite decide_False by done.
    by apply Hsame.
Qed.

(** X2.  A thread that yields while no other slot is RUNNABLE keeps the
    processor: the runtime is as it was and [thread_switch] is not called. *)
Theorem thread_yield_alone (rt : runtime) :
  table_ok rt →
  state (current rt) = T_RUNNING →
  (∀ i, i < MAX_THREADS → i ≠ current_thread rt →
        state (threads rt !!! i) ≠ T_RUNNABLE) →
  thread_yield rt = rt.
Proof.
  intros Hok Hrun Hothers. pose proof Hok as [Hlen Hcur].
  destruct (thread_yield_pick rt Hok)
    as (k & Hk & Hnext & Hfirst & Hpicked & Hok' & Hstate & Hlog & _ & Hsame).
  assert (k = MAX_THREADS) as ->.
  { destruct (decide (k = MAX_THREADS)) as [|Hne]; [done|].
    destruct (Hothers ((current_thread rt + k) mod MAX_THREADS)).
    - apply Nat.mod_upper_bound. unfold MAX_THREADS. lia.
    - rewrite mod_MAX_THREADS by slot_lia. destruct (decide _); slot_lia.
    - apply Hpicked. lia. }
  assert (current_thread (thread_yield rt) = current_thread rt) as Hc.
  { rewrite Hnext, mod_MAX_THREADS by slot_lia. destruct (decide _); slot_lia. }
  rewrite bool_decide_eq_true_2 in Hlog by done.
  assert (threads (thread_yield rt) = threads rt) as Hts.
  { apply list_eq_same_length with MAX_THREADS; [done | apply Hok' |].
    intros i x y Hi Hx Hy.
    apply list_lookup_alt in Hx as [_ <-]. apply list_lookup_alt in Hy as [_ <-].
    destruct (decide (i = current_thread rt)) as [->|Hne].
    - unfold thread_yield.
      rewrite thread_schedule_slot; [|split; [|done]|done].
      2:{ unfold update_current. simpl. by rewrite length_alter. }
      fold (thread_yield rt).
      destruct (find_runnable_thread _) as [next|] eqn:Hf.
      + assert (next = current_thread rt) as ->.
        { rewrite <- Hc. unfold thread_yield.
          by rewrite (thread_schedule_Some _ next Hf). }
        change (current_thread (update_current _ rt)) with (current_thread rt).
        rewrite decide_True by done. unfold update_current. simpl.
        rewrite list_lookup_total_alter_eq by lia.
        unfold current in Hrun. destruct (threads rt !!! current_thread rt).
        simpl in *. by subst.
      + unfold thread_yield in Hstate. rewrite thread_schedule_None in Hstate by done.
        unfold current, update_current in Hstate. simpl in Hstate.
        rewrite list_lookup_total_alter_eq in Hstate by lia. done.
    - apply Hsame; [done..|]. by rewrite Hc. }
  assert (next_tid (thread_yield rt) = next_tid rt) as Hnt.
  { unfold thread_yield.
    destruct (find_runnable_thread (update_current (set_state T_RUNNABLE) rt))
      as [next|] eqn:Hf.
    - by rewrite (thread_schedule_Some _ next Hf).
    - by rewrite thread_schedule_None. }
  clear -Hc Hts Hnt Hlog.
  destruct (thread_yield rt), rt; simpl in *; congruence.
Qed.

(** X3.  A thread that yields while another slot is RUNNABLE hands the
    processor to the first RUNNABLE slot after its own, in table order
    modulo [MAX_THREADS]: that slot becomes RUNNING and current, the caller
    becomes RUNNABLE, one [thread_switch] is recorded, and no other slot
    changes. *)
Theorem thread_yield_switches (rt : runtime) (i : nat) :
  table_ok rt → i < MAX_THREADS → i ≠ current_thread rt →
  state (threads rt !!! i) = T_RUNNABLE →
  let cur := current_thread rt in
  let rt' := thread_yield rt in
  ∃ k, 1 ≤ k < MAX_THREADS
       ∧ current_thread rt' = (cur + k) mod MAX_THREADS
       ∧ current_thread rt' ≠ cur
       ∧ state (threads rt !!! current_thread rt') = T_RUNNABLE
       ∧ (∀ j, 1 ≤ j < k → state (threads rt !!! ((cur + j) mod MAX_THREADS)) ≠ T_RUNNABLE)
       ∧ state (current rt') = T_RUNNING
       ∧ state (threads rt' !!! cur) = T_RUNNABLE
       ∧ switch_log rt' = switch_log rt ++ [(cur, current_thread rt')]
       ∧ ∀ j, j < MAX_THREADS → j ≠ cur → j ≠ current_thread rt' →
              threads rt' !!! j = threads rt !!! j.
Proof.
  intros Hok Hi Hne Hrunnable cur rt'. pose proof Hok as [Hlen Hcur].
  destruct (thread_yield_pick rt Hok)
    as (k & Hk & Hnext & Hfirst & Hpicked & Hok' & Hstate & Hlog & Hold & Hsame).
  assert (k < MAX_THREADS) as Hlt.
  { destruct (decide (k = MAX_THREADS)) as [->|]; [|lia]. exfalso.
    assert (∃ d, 1 ≤ d < MAX_THREADS ∧ i = (cur + d) mod MAX_THREADS) as (d & Hd & ->).
    { exists (if decide (cur < i) then i - cur else i + MAX_THREADS - cur).
      subst cur. destruct (decide (current_thread rt < i));
        (split; [slot_lia|]); rewrite mod_MAX_THREADS by slot_lia;
        destruct (decide _); slot_lia. }
    by apply (Hfirst d ltac:(lia)). }
  exists k. subst rt' cur. split; [lia|]. split; [done|].
  assert ((current_thread rt + k) mod MAX_THREADS ≠ current_thread rt) as Hneq.
  { rewrite mod_MAX_THREADS by slot_lia. destruct (decide _); slot_lia. }
  rewrite Hnext. split; [done|]. split; [by apply Hpicked|]. split; [done|].
  split; [done|]. split; [by apply Hold|].
  split; [by rewrite Hlog, bool_decide_eq_false_2, Hnext by lia|].
  rewrite <- Hnext. done.
Qed.

(** X4.  Round-robin is fair to a thread that stays RUNNABLE: whoever the
    current thread is, the slot gets the processor after at most
    [MAX_THREADS - 1] calls of [thread_yield] by the threads that run in
    between.  When it is switched in, its slot is as it was but for being
    RUNNING: it has the tid, start routine, argument and stack pointer it
    had, and [thread_self] returns that tid. *)
Theorem thread_yield_reaches_runnable (rt : runtime) (i : nat) :
  table_ok rt → i < MAX_THREADS → i ≠ current_thread rt →
  state (threads rt !!! i) = T_RUNNABLE →
  ∃ n, 0 < n < MAX_THREADS
       ∧ current_thread (Nat.iter n thread_yield rt) = i
       ∧ current (Nat.iter n thread_yield rt) = set_state T_RUNNING (threads rt !!! i)
       ∧ thread_self (Nat.iter n thread_yield rt) = tid (threads rt !!! i).
Proof.
  intros Hok Hi Hne Hrunnable.
  assert (∃ d, 1 ≤ d < MAX_THREADS ∧ i = (current_thread rt + d) mod MAX_THREADS)
    as (d & Hd & ->).
  { destruct Hok as [_ Hcur].
    exists (if decide (current_thread rt < i) then i - current_thread rt
            else i + MAX_THREADS - current_thread rt).
    destruct (decide (current_thread rt < i));
      (split; [slot_lia|]); rewrite mod_MAX_THREADS by slot_lia;
      destruct (decide _); slot_lia. }
  clear Hi Hne.
  assert (∃ n, 0 < n ≤ d
       ∧ current_thread (Nat.iter n thread_yield rt)
         = (current_thread rt + d) mod MAX_THREADS
       ∧ current (Nat.iter n thread_yield rt)
         = set_state T_RUNNING
             (threads rt !!! ((current_thread rt + d) mod MAX_THREADS)))
    as (n & Hn & Hcur & Hst).
  2:{ exists n. split; [lia|]. split; [done|]. split; [done|].
      unfold thread_self. by rewrite Hst. }
  revert rt Hok Hd Hrunnable.
  induction (lt_wf d) as [d _ IH]. intros rt Hok Hd Hrunnable.
  pose proof Hok as [Hlen Hcur].
  destruct (thread_yield_pick rt Hok)
    as (k & Hk & Hnext & Hfirst & Hpicked & Hok' & Hstate & _ & _ & Hsame).
  assert (k ≤ d) as Hkd.
  { destruct (decide (k ≤ d)); [done|]. by destruct (Hfirst d ltac:(lia)). }
  destruct (decide (k = d)) as [->|Hlt].
  - exists 1. split; [lia|]. simpl. split; [done|].
    unfold current in *. rewrite Hnext in *.
    assert ((current_thread rt + d) mod MAX_THREADS < MAX_THREADS) as Hb.
    { apply Nat.mod_upper_bound. unfold MAX_THREADS. lia. }
    assert (table_ok (update_current (set_state T_RUNNABLE) rt)) as Hokm.
    { split; [|done]. unfold update_current. simpl. by rewrite length_alter. }
    assert ((current_thread rt + d) mod MAX_THREADS ≠ current_thread rt) as Hnd.
    { rewrite mod_MAX_THREADS by slot_lia. destruct (decide _); slot_lia. }
    destruct (thread_schedule_fields _ _ Hokm Hb) as (Hf & _ & Hsp).
    destruct (decide (_ ∧ _)) as [[? _]|_] in Hsp; [done|].
    fold (thread_yield rt) in Hf, Hsp. rewrite Hf, Hsp, Hstate.
    unfold update_current. cbn [threads with_threads current_thread].
    rewrite list_lookup_total_alter_ne by done.
    by destruct (threads rt !!! _).
  - destruct (IH (d - k) ltac:(lia) (thread_yield rt) Hok' ltac:(lia))
      as (n & Hn & Hc & Hs).
    + rewrite Hnext.
      assert (((current_thread rt + k) mod MAX_THREADS + (d - k)) mod MAX_THREADS
              = (current_thread rt + d) mod MAX_THREADS) as Heq.
      { rewrite Nat.Div0.add_mod_idemp_l. f_equal. lia. }
      rewrite Heq. rewrite Hsame; [done| | |].
      * apply Nat.mod_upper_bound. unfold MAX_THREADS. lia.
      * rewrite mod_MAX_THREADS by slot_lia. destruct (decide _); slot_lia.
      * rewrite Hnext, !mod_MAX_THREADS by slot_lia. repeat destruct (decide _); slot_lia.
    + assert (((current_thread rt + k) mod MAX_THREADS + (d - k)) mod MAX_THREADS
              = (current_thread rt + d) mod MAX_THREADS) as Heq.
      { rewrite Nat.Div0.add_mod_idemp_l. f_equal. lia. }
      exists (S n). split; [lia|]. rewrite Nat.iter_succ_r.
      rewrite Hc, Hs, Hnext, Heq. split; [done|].
      rewrite Hsame; [done| | |].
      * apply Nat.mod_upper_bound. unfold MAX_THREADS. lia.
      * rewrite mod_MAX_THREADS by slot_lia. destruct (decide _); slot_lia.
      * rewrite Hnext, !mod_MAX_THREADS by slot_lia. repeat destruct (decide _); slot_lia.
Qed.

(** ** Thread lifecycle *)

(** X5.  [thread_create] fails exactly when no slot of the table is
    UNUSED, and a call that fails leaves the runtime as it was.  The tid
    it hands out is [next_tid], so the error value -1 is told apart from
    a tid as long as [next_tid] is not -1. *)
Theorem thread_create_table_full (start_fn arg_ptr : Z) (rt : runtime) :
  next_tid rt ≠ (-1)%Z →
  ((thread_create start_fn arg_ptr rt).2 = (-1)%Z ↔
   ∀ j, j < MAX_THREADS → state (threads rt !!! j) ≠ T_UNUSED)
  ∧ ((thread_create start_fn arg_ptr rt).2 = (-1)%Z →
     (thread_create start_fn arg_ptr rt).1 = rt).
Proof.
  intros Hnext. unfold thread_create.
  destruct (for_slots is_unused (threads rt) 0 MAX_THREADS) as [i|] eqn:Hscan; simpl.
  - apply for_slots_all_Some in Hscan as (Hi & Hun & _).
    unfold is_unused in Hun. apply bool_decide_eq_true in Hun.
    split; [|done]. split; [done|]. intros Hall. by destruct (Hall i Hi).
  - split; [|done]. split; [|done]. intros _ j Hj.
    rewrite for_slots_all_None in Hscan. specialize (Hscan j Hj).
    unfold is_unused in Hscan. by apply bool_decide_eq_false in Hscan.
Qed.

(** X6.  With a free slot in the table, [thread_create] takes the first
    UNUSED slot, in table order.  The slot becomes RUNNABLE with the tid
    [next_tid], which is the value returned, the start routine and its
    argument, a null [retval], no joiner, and a stack pointer five words
    below the top of its stack; no other slot changes, the caller keeps
    running and [next_tid] is incremented. *)
Theorem thread_create_allocates (start_fn arg_ptr : Z) (rt : runtime) (i : nat) :
  length (threads rt) = MAX_THREADS → i < MAX_THREADS →
  state (threads rt !!! i) = T_UNUSED →
  (∀ j, j < i → state (threads rt !!! j) ≠ T_UNUSED) →
  let rt' := (thread_create start_fn arg_ptr rt).1 in
  (thread_create start_fn arg_ptr rt).2 = next_tid rt
  ∧ threads rt' !!! i =
      mkThread (next_tid rt) T_RUNNABLE (SpStack (STACK_SIZE - 5 * SIZEOF_PTR))
        start_fn arg_ptr 0 (-1)
  ∧ (∀ j, j ≠ i → threads rt' !!! j = threads rt !!! j)
  ∧ length (threads rt') = MAX_THREADS
  ∧ current_thread rt' = current_thread rt
  ∧ switch_log rt' = switch_log rt
  ∧ next_tid rt' = int_wrap (next_tid rt + 1)
  ∧ ((next_tid rt < INT_MAX)%Z → (INT_MIN ≤ next_tid rt)%Z →
     next_tid rt' = (next_tid rt + 1)%Z).
Proof.
  intros Hlen Hi Hun Hfirst rt'. subst rt'. unfold thread_create.
  assert (for_slots is_unused (threads rt) 0 MAX_THREADS = Some i) as ->.
  { apply for_slots_all_Some. split; [done|]. unfold is_unused.
    split; [by apply bool_decide_eq_true|].
    intros j Hj. apply bool_decide_eq_false. by apply Hfirst. }
  simpl. split; [done|].
  split; [by rewrite list_lookup_total_insert_eq by lia|].
  split; [intros j Hj; by rewrite list_lookup_total_insert_ne|].
  split; [by rewrite length_insert|].
  split; [done|]. split; [done|]. split; [done|].
  intros Hmax Hmin. apply int_wrap_small. unfold INT_MIN, INT_MAX in *. lia.
Qed.

(** ** Thread ids of live threads *)

(** A step that takes slots out of use at most, and keeps the tid of
    those that stay. *)
Lemma tid_inv_shrink (rt rt' : runtime) :
  tid_inv rt →
  table_ok rt' → next_tid rt' = next_tid rt →
  (∀ i, i < MAX_THREADS → state (threads rt' !!! i) ≠ T_UNUSED →
        state (threads rt !!! i) ≠ T_UNUSED
        ∧ tid (threads rt' !!! i) = tid (threads rt !!! i)) →
  state (current rt') ≠ T_UNUSED →
  tid_inv rt'.
Proof.
  intros (Hok & Hcur & Hnext & Hold & Huniq) Hok' Hnt Hslots Hcur'.
  split; [done|]. split; [done|]. split; [by rewrite Hnt|]. split.
  - intros i Hi Hu. destruct (Hslots i Hi Hu) as [Hu0 ->]. rewrite Hnt. by apply Hold.
  - intros i j Hi Hj Hui Huj.
    destruct (Hslots i Hi Hui) as [Hui0 ->]. destruct (Hslots j Hj Huj) as [Huj0 ->].
    by apply Huniq.
Qed.

Lemma thread_init_tid_inv : tid_inv thread_init.
Proof.
  split; [apply thread_init_table_ok|]. split; [done|].
  split; [done|]. split.
  - intros i Hi. rewrite thread_init_lookup by done. by case_decide.
  - intros i j Hi Hj. rewrite !thread_init_lookup by done.
    repeat case_decide; by subst.
Qed.

Lemma thread_create_tid_inv (start_fn arg_ptr : Z) (rt : runtime) :
  tid_inv rt → (next_tid rt < INT_MAX)%Z →
  tid_inv (thread_create start_fn arg_ptr rt).1.
Proof.
  intros Hinv Hmax. pose proof Hinv as ([Hlen Hc] & Hcur & Hnext & Hold & Huniq).
  unfold thread_create.
  destruct (for_slots is_unused (threads rt) 0 MAX_THREADS) as [i|] eqn:Hscan;
    [|done].
  apply for_slots_all_Some in Hscan as (Hi & Hun & _).
  unfold is_unused in Hun. apply bool_decide_eq_true in Hun. simpl.
  set (t := mkThread _ _ _ _ _ _ _).
  assert (∀ j, threads (mkRuntime (<[i:=t]> (threads rt)) (current_thread rt)
                          (int_wrap (next_tid rt + 1)) (switch_log rt)) !!! j
               = if decide (j = i) then t else threads rt !!! j) as Hslot.
  { intros j. simpl. destruct (decide (j = i)) as [->|].
    - by rewrite list_lookup_total_insert_eq by lia.
    - by rewrite list_lookup_total_insert_ne. }
  assert (int_wrap (next_tid rt + 1) = (next_tid rt + 1)%Z) as Hw.
  { apply int_wrap_small. unfold INT_MIN, INT_MAX in *. lia. }
  split; [split; [simpl; by rewrite length_insert | done]|].
  split.
  { unfold current. rewrite Hslot. cbn [current_thread]. by case_decide. }
  split; [cbn [next_tid]; rewrite Hw; lia|]. split.
  - intros j Hj. rewrite Hslot. cbn [next_tid]. rewrite Hw. case_decide.
    + intros _. subst t. simpl. lia.
    + intros Hu. specialize (Hold j Hj Hu). lia.
  - intros j k Hj Hk. rewrite !Hslot.
    destruct (decide (j = i)) as [->|Hji], (decide (k = i)) as [->|Hki]; try done.
    + intros _ Hu Heq. specialize (Hold k Hk Hu). subst t. simpl in Heq. lia.
    + intros Hu _ Heq. specialize (Hold j Hj Hu). subst t. simpl in Heq. lia.
    + by apply Huniq.
Qed.

Lemma thread_schedule_next_tid (rt : runtime) :
  next_tid (thread_schedule rt) = next_tid rt.
Proof.
  destruct (find_runnable_thread rt) as [next|] eqn:Hnext.
  - by rewrite (thread_schedule_Some rt next Hnext).
  - by rewrite thread_schedule_None.
Qed.

Lemma thread_schedule_tid_inv (rt : runtime) :
  tid_inv rt → tid_inv (thread_schedule rt).
Proof.
  intros Hinv. pose proof Hinv as (Hok & Hcur & _).
  apply (tid_inv_shrink rt); [done | | | |].
  - by apply thread_schedule_preserves_table_ok.
  - apply thread_schedule_next_tid.
  - intros i Hi Hu. destruct (thread_schedule_fields rt i Hok Hi) as (Heq & Hst & _).
    split; [|by rewrite Heq].
    destruct Hst as [<- | [[-> _] | [-> _]]]; done.
  - destruct (thread_schedule_current rt Hok) as [[-> _] | [-> _]]; done.
Qed.

Lemma update_current_tid_inv (f : thread → thread) (rt : runtime) :
  tid_inv rt →
  (∀ t, tid (f t) = tid t) → (∀ t, state t ≠ T_UNUSED → state (f t) ≠ T_UNUSED) →
  tid_inv (update_current f rt).
Proof.
  intros Hinv Htid Hst. pose proof Hinv as (Hok & Hcur & _).
  apply (tid_inv_shrink rt); [done | | | |].
  - by apply update_current_table_ok.
  - done.
  - intros i Hi. rewrite update_current_lookup by done.
    destruct (decide (i = current_thread rt)) as [->|]; [|done].
    intros _. split; [done|]. apply Htid.
  - unfold current. rewrite update_current_lookup by done.
    change (current_thread (update_current f rt)) with (current_thread rt).
    rewrite decide_True by done. by apply Hst.
Qed.

Lemma fmap_threads_tid_inv (g : thread → thread) (rt : runtime) :
  tid_inv rt →
  (∀ t, tid (g t) = tid t) → (∀ t, state (g t) = T_UNUSED ↔ state t = T_UNUSED) →
  tid_inv (with_threads (g <$> threads rt) rt).
Proof.
  intros Hinv Htid Hst. pose proof Hinv as ([Hlen Hc] & Hcur & _).
  assert (∀ i, i < MAX_THREADS →
               threads (with_threads (g <$> threads rt) rt) !!! i = g (threads rt !!! i))
    as Hslot.
  { intros i Hi. simpl. apply list_lookup_total_fmap. lia. }
  apply (tid_inv_shrink rt); [done | | | |].
  - split; [simpl; by rewrite length_fmap | done].
  - done.
  - intros i Hi. rewrite Hslot by done. rewrite Hst. intros Hu. by rewrite Htid.
  - unfold current. cbn [current_thread with_threads]. rewrite Hslot by done.
    by rewrite Hst.
Qed.

Lemma reap_tid_inv (t : nat) (rt : runtime) :
  tid_inv rt → t ≠ current_thread rt →
  tid_inv (with_threads
             (alter (set_tid 0) t (alter (set_state T_UNUSED) t (threads rt))) rt).
Proof.
  intros Hinv Hne. pose proof Hinv as ([Hlen Hc] & Hcur & _).
  assert (∀ i, i ≠ t →
            threads (with_threads
              (alter (set_tid 0) t (alter (set_state T_UNUSED) t (threads rt))) rt) !!! i
            = threads rt !!! i) as Hother.
  { intros i Hi. simpl. by rewrite !list_lookup_total_alter_ne. }
  apply (tid_inv_shrink rt); [done | | | |].
  - split; [simpl; by rewrite !length_alter | done].
  - done.
  - intros i Hi. destruct (decide (i = t)) as [->|Hit]; [|by rewrite Hother].
    intros Hu. exfalso. apply Hu. simpl.
    destruct (decide (t < length (threads rt))).
    + by rewrite !list_lookup_total_alter_eq by (rewrite ?length_alter; lia).
    + lia.
  - unfold current. cbn [current_thread with_threads].
    change (state (threads (with_threads
              (alter (set_tid 0) t (alter (set_state T_UNUSED) t (threads rt))) rt)
              !!! current_thread rt) ≠ T_UNUSED).
    by rewrite Hother.
Qed.

Lemma thread_join_wait_tid_inv (t : nat) (tid_arg : Z) (rt : runtime) :
  tid_inv rt → state (current rt) ≠ T_ZOMBIE →
  tid_inv (thread_join_wait t tid_arg rt).1.
Proof.
  intros Hinv Hnz. unfold thread_join_wait. case_bool_decide as Hz; simpl.
  - apply thread_schedule_tid_inv.
    apply update_current_tid_inv; [|done..].
    apply update_current_tid_inv; done.
  - apply reap_tid_inv; [done|]. intros ->. apply Hnz.
    exact Hz.
Qed.

Lemma thread_step_tid_inv (rt rt' : runtime) :
  thread_step rt rt' → tid_inv rt → tid_inv rt'.
Proof.
  intros [Hnz Hcall] Hinv. destruct Hcall as [f a rt Hmax | rt | w rt | t w rt Ht | v rt].
  - by apply thread_create_tid_inv.
  - apply thread_schedule_tid_inv. apply update_current_tid_inv; done.
  - unfold thread_join. destruct (thread_join_lookup w rt); [|done].
    by apply thread_join_wait_tid_inv.
  - by apply thread_join_wait_tid_inv.
  - unfold thread_exit. apply thread_schedule_tid_inv.
    apply fmap_threads_tid_inv.
    + apply update_current_tid_inv; [|done..].
      apply update_current_tid_inv; done.
    + intros t. by destruct (_ && _).
    + intros t. destruct (bool_decide (state t = T_SLEEPING)) eqn:Hs; simpl; [|done].
      apply bool_decide_eq_true in Hs. destruct (bool_decide _); simpl; [|done].
      rewrite Hs. done.
Qed.

Lemma thread_api_reachable_tid_inv (rt : runtime) :
  thread_api_reachable rt → tid_inv rt.
Proof.
  revert rt. apply (rtc_ind_r (λ rt, tid_inv rt)).
  - apply thread_init_tid_inv.
  - intros rt rt' _ Hstep IH. by apply (thread_step_tid_inv rt).
Qed.

(** X7.  In a program that uses the thread API, the threads that are alive
    have different tids: from [thread_init] on, whatever the calls of
    [thread_create], [thread_yield], [thread_join] and [thread_exit] and
    their order, no two slots in use carry the same tid, every tid in use
    is at least 0 and below [next_tid], and [current_thread] points to a
    slot in use of the table, the only one in use whose tid is the value
    of [thread_self]. *)
Theorem thread_api_tids_unique (rt : runtime) :
  thread_api_reachable rt →
  table_ok rt
  ∧ state (current rt) ≠ T_UNUSED
  ∧ (∀ i, i < MAX_THREADS → state (threads rt !!! i) ≠ T_UNUSED →
          (0 ≤ tid (threads rt !!! i) < next_tid rt)%Z)
  ∧ (∀ i j, i < MAX_THREADS → j < MAX_THREADS →
            state (threads rt !!! i) ≠ T_UNUSED →
            state (threads rt !!! j) ≠ T_UNUSED →
            tid (threads rt !!! i) = tid (threads rt !!! j) → i = j)
  ∧ (∀ i, i < MAX_THREADS → state (threads rt !!! i) ≠ T_UNUSED →
          tid (threads rt !!! i) = thread_self rt → i = current_thread rt).
Proof.
  intros Hreach.
  destruct (thread_api_reachable_tid_inv rt Hreach) as (Hok & Hcur & _ & Hold & Huniq).
  split; [done|]. split; [done|]. split; [done|]. split; [done|].
  intros i Hi Hu Hself. apply Huniq; [done | apply Hok | done..].
Qed.

(** ** Joining and exiting *)

Lemma find_runnable_thread_None (rt : runtime) :
  table_ok rt →
  find_runnable_thread rt = None ↔
  ∀ i, i < MAX_THREADS → state (threads rt !!! i) ≠ T_RUNNABLE.
Proof.
  intros Hok. rewrite find_runnable_thread_pick by done.
  rewrite round_robin_pick_None. destruct Hok as [_ Hcur].
  destruct (round_robin_order_once _ Hcur) as [_ Hall].
  split.
  - intros H i Hi. apply H. apply list_elem_of_In. by apply Hall.
  - intros H i Hin. apply H. by eapply round_robin_order_bound.
Qed.

Lemma thread_join_lookup_None (w : Z) (rt : runtime) :
  thread_join_lookup w rt = None ↔
  ∀ j, j < MAX_THREADS → state (threads rt !!! j) ≠ T_UNUSED →
       tid (threads rt !!! j) ≠ w.
Proof.
  unfold thread_join_lookup. rewrite for_slots_all_None. unfold join_target.
  split.
  - intros H j Hj Hu Ht. specialize (H j Hj).
    rewrite bool_decide_eq_true_2 in H by done.
    rewrite bool_decide_eq_false_2 in H by done. done.
  - intros H j Hj. destruct (bool_decide (tid _ = w)) eqn:Ht; [|done].
    apply bool_decide_eq_true in Ht. simpl.
    destruct (bool_decide (state _ = T_UNUSED)) eqn:Hu; [done|].
    apply bool_decide_eq_false in Hu. by destruct (H j Hj Hu).
Qed.

Lemma thread_join_lookup_Some (w : Z) (rt : runtime) (t : nat) :
  tids_unique rt → t < MAX_THREADS →
  state (threads rt !!! t) ≠ T_UNUSED → tid (threads rt !!! t) = w →
  thread_join_lookup w rt = Some t.
Proof.
  intros Huniq Ht Hu Hw. unfold thread_join_lookup. apply for_slots_all_Some.
  split; [done|]. unfold join_target. split.
  - rewrite bool_decide_eq_true_2 by done.
    by rewrite bool_decide_eq_false_2 by done.
  - intros j Hj. destruct (bool_decide (tid _ = w)) eqn:Htj; [|done].
    apply bool_decide_eq_true in Htj. simpl.
    destruct (bool_decide (state _ = T_UNUSED)) eqn:Huj; [done|].
    apply bool_decide_eq_false in Huj.
    assert (j = t); [|lia]. apply Huniq; [lia|done..|congruence].
Qed.

(** ** The tid discipline under the whole library *)





















(** X8.  [thread_join] on a tid that no slot in use carries returns the
    null pointer at once: the caller is not blocked and the runtime is
    left as it was.  The tid of a thread that was joined before, and the
    tid left in a free slot, are such tids. *)
Theorem thread_join_unknown_tid (w : Z) (rt : runtime) :
  (∀ j, j < MAX_THREADS → state (threads rt !!! j) ≠ T_UNUSED →
        tid (threads rt !!! j) ≠ w) →
  thread_join w rt = (rt, Returned 0%Z).
Proof.
  intros Hnone. unfold thread_join.
  by rewrite (proj2 (thread_join_lookup_None w rt) Hnone).
Qed.

(** X9.  A thread is joined once.  [thread_join] on the tid of a zombie
    returns the value the thread exited with, without blocking and
    without a switch, and frees the slot: its state becomes UNUSED and
    its tid 0, and no other slot changes.  A second [thread_join] on the
    same tid finds no thread: it returns the null pointer and changes
    nothing. *)
Theorem thread_join_reaps_once (rt : runtime) (t : nat) :
  table_ok rt → tids_unique rt → t < MAX_THREADS →
  state (threads rt !!! t) = T_ZOMBIE →
  let w := tid (threads rt !!! t) in
  let rt' := (thread_join w rt).1 in
  (thread_join w rt).2 = Returned (retval (threads rt !!! t))
  ∧ state (threads rt' !!! t) = T_UNUSED
  ∧ tid (threads rt' !!! t) = 0%Z
  ∧ (∀ j, j ≠ t → threads rt' !!! j = threads rt !!! j)
  ∧ current_thread rt' = current_thread rt
  ∧ switch_log rt' = switch_log rt
  ∧ next_tid rt' = next_tid rt
  ∧ thread_join w rt' = (rt', Returned 0%Z).
Proof.
  intros [Hlen Hcur] Huniq Ht Hz w rt'. subst w rt'.
  assert (state (threads rt !!! t) ≠ T_UNUSED) as Hu by (by rewrite Hz).
  assert (thread_join (tid (threads rt !!! t)) rt =
          (with_threads
             (alter (set_tid 0) t (alter (set_state T_UNUSED) t (threads rt))) rt,
           Returned (retval (threads rt !!! t)))) as ->.
  { unfold thread_join.
    rewrite (thread_join_lookup_Some _ rt t Huniq Ht Hu eq_refl).
    unfold thread_join_wait. by rewrite bool_decide_eq_false_2 by (by intros []). }
  cbn [fst snd threads with_threads current_thread switch_log next_tid].
  assert (∀ j, j ≠ t →
            alter (set_tid 0) t (alter (set_state T_UNUSED) t (threads rt)) !!! j
            = threads rt !!! j) as Hother.
  { intros j Hj. by rewrite !list_lookup_total_alter_ne. }
  assert (alter (set_tid 0) t (alter (set_state T_UNUSED) t (threads rt)) !!! t
          = set_tid 0 (set_state T_UNUSED (threads rt !!! t))) as Hslot.
  { by rewrite !list_lookup_total_alter_eq by (rewrite ?length_alter; lia). }
  split; [done|]. split; [by rewrite Hslot|]. split; [by rewrite Hslot|].
  split; [done|]. split; [done|]. split; [done|]. split; [done|].
  unfold thread_join.
  rewrite (proj2 (thread_join_lookup_None _ _)); [done|].
  intros j Hj. cbn [threads with_threads].
  destruct (decide (j = t)) as [->|Hjt]; [by rewrite Hslot|].
  rewrite Hother by done. intros Huj Heq. apply Hjt. by apply Huniq.
Qed.

(** What [thread_exit] leaves in a slot, up to the [state] the scheduler
    then writes. *)
Lemma thread_exit_slot (v : Z) (rt : runtime) (i : nat) :
  table_ok rt → i < MAX_THREADS →
  let t := threads rt !!! i in
  let marked :=
    if decide (i = current_thread rt) then set_state T_ZOMBIE (set_retval v t)
    else if bool_decide (state t = T_SLEEPING)
            && bool_decide (joined_tid t = tid (current rt))
         then set_joined_tid (-1) (set_state T_RUNNABLE t)
         else t in
  let rt3 :=
    let rt2 := update_current (set_state T_ZOMBIE) (update_current (set_retval v) rt) in
    with_threads
      ((λ t, if bool_decide (state t = T_SLEEPING)
                && bool_decide (joined_tid t = tid (current rt2))
             then set_joined_tid (-1) (set_state T_RUNNABLE t) else t)
         <$> threads rt2) rt2 in
  thread_exit v rt = thread_schedule rt3
  ∧ table_ok rt3
  ∧ current_thread rt3 = current_thread rt
  ∧ switch_log rt3 = switch_log rt
  ∧ threads rt3 !!! i = marked.
Proof.
  intros Hok Hi t marked rt3. pose proof Hok as [Hlen Hcur].
  split; [done|].
  set (rt2 := update_current (set_state T_ZOMBIE) (update_current (set_retval v) rt))
    in *.
  assert (table_ok rt2) as Hok2 by (by do 2 apply update_current_table_ok).
  assert (∀ j, threads rt2 !!! j =
               if decide (j = current_thread rt)
               then set_state T_ZOMBIE (set_retval v (threads rt !!! j))
               else threads rt !!! j) as Hrt2.
  { intros j. unfold rt2.
    rewrite update_current_lookup by (by apply update_current_table_ok).
    rewrite update_current_lookup by done.
    change (current_thread (update_current (set_retval v) rt)) with (current_thread rt).
    by destruct (decide (j = current_thread rt)). }
  assert (tid (current rt2) = tid (current rt)) as Htid.
  { unfold current. change (current_thread rt2) with (current_thread rt).
    rewrite Hrt2, decide_True by done. done. }
  split.
  { split; [|done]. unfold rt3. simpl. rewrite length_fmap. apply Hok2. }
  split; [done|]. split; [done|].
  unfold rt3. cbn [threads with_threads].
  rewrite (list_lookup_total_fmap _ (threads rt2) i)
    by (destruct Hok2 as [-> _]; done).
  rewrite Hrt2, Htid. subst marked t.
  destruct (decide (i = current_thread rt)); [done|]. done.
Qed.

Lemma find_runnable_thread_Some (rt : runtime) (next : nat) :
  table_ok rt → find_runnable_thread rt = Some next →
  next < MAX_THREADS ∧ state (threads rt !!! next) = T_RUNNABLE.
Proof.
  intros Hok Hnext. rewrite find_runnable_thread_pick in Hnext by done.
  by apply round_robin_pick_Some in Hnext.
Qed.

(** X10.  [thread_exit] turns the caller into a zombie that holds the exit
    value, and wakes every thread that sleeps in a [thread_join] on the
    caller's tid: each becomes RUNNABLE with its [joined_tid] reset to -1,
    and the scheduler then runs one of the RUNNABLE threads.  The slot of
    the caller is the zombie with the exit value and, when the scheduler
    has switched away from it, with the stack pointer that switch saved
    in [sp]; when the scheduler has returned to it, its [sp] is as it was.
    Another slot that is not such a joiner is not written, except that it
    is made RUNNING when it is the one scheduled.  With a joiner or a
    RUNNABLE thread in the table the caller is switched out; with neither,
    the scheduler returns to the zombie, which stays current. *)
Theorem thread_exit_wakes_joiners (v : Z) (rt : runtime) :
  table_ok rt →
  let cur := current_thread rt in
  let rt' := thread_exit v rt in
  let joins (t : thread) := state t = T_SLEEPING ∧ joined_tid t = tid (current rt) in
  let zombie := set_state T_ZOMBIE (set_retval v (current rt)) in
  threads rt' !!! cur =
    (if decide (current_thread rt' = cur) then zombie
     else set_sp (SpSaved (length (switch_log rt))) zombie)
  ∧ (∀ i, i < MAX_THREADS → i ≠ cur → joins (threads rt !!! i) →
       threads rt' !!! i =
         set_joined_tid (-1)
           (set_state (if decide (i = current_thread rt') then T_RUNNING else T_RUNNABLE)
              (threads rt !!! i)))
  ∧ (∀ i, i < MAX_THREADS → i ≠ cur → ¬ joins (threads rt !!! i) →
       threads rt' !!! i =
         if decide (i = current_thread rt') then set_state T_RUNNING (threads rt !!! i)
         else threads rt !!! i)
  ∧ ((∃ i, i < MAX_THREADS ∧ i ≠ cur
           ∧ (state (threads rt !!! i) = T_RUNNABLE ∨ joins (threads rt !!! i))) →
       current_thread rt' ≠ cur
       ∧ state (current rt') = T_RUNNING
       ∧ switch_log rt' = switch_log rt ++ [(cur, current_thread rt')])
  ∧ ((∀ i, i < MAX_THREADS → i ≠ cur →
           state (threads rt !!! i) ≠ T_RUNNABLE ∧ ¬ joins (threads rt !!! i)) →
       current_thread rt' = cur ∧ switch_log rt' = switch_log rt).
Proof.
  intros Hok cur rt' joins zombie. subst zombie. pose proof Hok as [Hlen Hcur].
  pose proof (λ i Hi, thread_exit_slot v rt i Hok Hi) as Hexit. cbv zeta in Hexit.
  destruct (Hexit cur Hcur) as (Heq & Hok3 & Hcur3 & Hlog3 & _).
  set (rt3 := with_threads _ _) in *.
  assert (∀ i, i < MAX_THREADS → threads rt3 !!! i =
            (if decide (i = current_thread rt)
             then set_state T_ZOMBIE (set_retval v (threads rt !!! i))
             else if bool_decide (state (threads rt !!! i) = T_SLEEPING)
                     && bool_decide (joined_tid (threads rt !!! i) = tid (current rt))
                  then set_joined_tid (-1) (set_state T_RUNNABLE (threads rt !!! i))
                  else threads rt !!! i)) as Hslot3.
  { intros i Hi. by destruct (Hexit i Hi) as (_ & _ & _ & _ & ?). }
  clear Hexit.
  assert (∀ i, i < MAX_THREADS → i ≠ cur → joins (threads rt !!! i) →
            threads rt3 !!! i = set_joined_tid (-1) (set_state T_RUNNABLE (threads rt !!! i)))
    as Hjoiner.
  { intros i Hi Hne [Hs Hj]. rewrite Hslot3 by done.
    rewrite decide_False by done.
    by rewrite !bool_decide_eq_true_2 by done. }
  assert (∀ i, i < MAX_THREADS → i ≠ cur → ¬ joins (threads rt !!! i) →
            threads rt3 !!! i = threads rt !!! i) as Hplain.
  { intros i Hi Hne Hnj. rewrite Hslot3 by done.
    rewrite decide_False by done.
    destruct (bool_decide (state _ = T_SLEEPING)) eqn:Hs; [|done].
    destruct (bool_decide (joined_tid _ = _)) eqn:Hj; [|done].
    apply bool_decide_eq_true in Hs, Hj. by destruct Hnj. }
  assert (threads rt3 !!! cur = set_state T_ZOMBIE (set_retval v (current rt))) as Hzombie.
  { rewrite Hslot3 by done. by rewrite decide_True. }
  assert (state (current rt3) = T_ZOMBIE) as Hst3.
  { unfold current. rewrite Hcur3. fold cur. by rewrite Hzombie. }
  pose proof (λ i Hi, thread_schedule_slot rt3 i Hok3 Hi) as Hsched.
  subst rt'. rewrite Heq.
  destruct (find_runnable_thread rt3) as [next|] eqn:Hfind.
  - destruct (find_runnable_thread_Some rt3 next Hok3 Hfind) as [Hnext Hrun].
    assert (next ≠ cur) as Hnc.
    { intros ->. rewrite Hzombie in Hrun. done. }
    assert (current_thread (thread_schedule rt3) = next) as Hc'.
    { by rewrite (thread_schedule_Some rt3 next Hfind). }
    rewrite Hc'.
    split; [|split; [|split; [|split]]].
    + rewrite Hsched by done.
      destruct (decide (cur = next)) as [?|_]; [congruence|].
      destruct (decide (cur = current_thread rt3)) as [_|Hn];
        [|by rewrite Hcur3 in Hn].
      destruct (decide (state (current rt3) = T_RUNNING)) as [Hr|_];
        [congruence|].
      rewrite Hlog3, Hzombie. by rewrite decide_False.
    + intros i Hi Hne Hj. rewrite Hsched by done. rewrite Hjoiner by done.
      destruct (decide (i = next)); [done|].
      rewrite decide_False; [done|]. by rewrite Hcur3.
    + intros i Hi Hne Hj. rewrite Hsched by done. rewrite Hplain by done.
      destruct (decide (i = next)); [done|].
      rewrite decide_False; [done|]. by rewrite Hcur3.
    + intros _. split; [done|]. split.
      * unfold current. rewrite Hc', Hsched by done. by rewrite decide_True.
      * rewrite (thread_schedule_Some rt3 next Hfind). cbn [switch_log].
        rewrite Hcur3, Hlog3. by rewrite bool_decide_eq_false_2 by done.
    + intros Hnone. exfalso.
      destruct (Hnone next Hnext Hnc) as [Hnr Hnj].
      rewrite Hplain in Hrun by done. done.
  - rewrite thread_schedule_None by done.
    rewrite find_runnable_thread_None in Hfind by done.
    split; [by rewrite decide_True|]. split; [|split; [|split]].
    + intros i Hi Hne Hj. exfalso. apply (Hfind i Hi). by rewrite Hjoiner.
    + intros i Hi Hne Hj. rewrite Hplain by done. rewrite Hcur3.
      by rewrite decide_False.
    + intros (i & Hi & Hne & [Hr | Hj]); exfalso; apply (Hfind i Hi).
      * destruct (decide (joins (threads rt !!! i))) as [Hj|Hnj].
        -- by rewrite Hjoiner.
        -- by rewrite Hplain.
      * by rewrite Hjoiner.
    + done.
Qed.

(** X11.  Exiting and joining compose.  Right after a thread has called
    [thread_exit] with a value, [thread_join] on its tid returns that
    value without blocking, and the slot of the thread is free again. *)
Theorem thread_exit_then_join (v : Z) (rt : runtime) :
  table_ok rt → tids_unique rt → state (current rt) ≠ T_UNUSED →
  let w := tid (current rt) in
  let rt' := thread_exit v rt in
  thread_join_lookup w rt' = Some (current_thread rt)
  ∧ (thread_join w rt').2 = Returned v
  ∧ state (threads (thread_join w rt').1 !!! current_thread rt) = T_UNUSED
  ∧ tid (threads (thread_join w rt').1 !!! current_thread rt) = 0%Z.
Proof.
  intros Hok Huniq Hcu w rt'. pose proof Hok as [Hlen Hcur].
  pose proof (λ i Hi, thread_exit_slot v rt i Hok Hi) as Hexit. cbv zeta in Hexit.
  destruct (Hexit _ Hcur) as (Heq & Hok3 & Hcur3 & Hlog3 & _).
  set (rt3 := with_threads _ _) in *.
  assert (∀ i, i < MAX_THREADS →
            tid (threads rt' !!! i) = tid (threads rt !!! i)
            ∧ (state (threads rt' !!! i) ≠ T_UNUSED → state (threads rt !!! i) ≠ T_UNUSED)
            ∧ (i = current_thread rt →
               state (threads rt' !!! i) = T_ZOMBIE ∧ retval (threads rt' !!! i) = v))
    as Hslots.
  { intros i Hi. subst rt'. rewrite Heq.
    destruct (thread_schedule_fields rt3 i Hok3 Hi) as (Hf & Hs & _).
    destruct (Hexit i Hi) as (_ & _ & _ & _ & Hslot3). rewrite Hslot3 in Hf, Hs.
    rewrite Hf. clear Hf.
    destruct (decide (i = current_thread rt)) as [->|Hne].
    - simpl in *. split; [done|]. split; [done|]. intros _.
      destruct Hs as [-> | [[? _] | [? _]]]; done.
    - split; [|split; [|done]].
      + by destruct (_ && _).
      + destruct (bool_decide (state _ = T_SLEEPING)) eqn:Hsl; simpl in *.
        * apply bool_decide_eq_true in Hsl. rewrite Hsl. done.
        * intros Hu Hu0. rewrite Hu0 in Hs.
          destruct Hs as [? | [[? _] | [? _]]]; done. }
  assert (tids_unique rt') as Huniq'.
  { intros i j Hi Hj Hui Huj.
    destruct (Hslots i Hi) as (-> & Hi' & _), (Hslots j Hj) as (-> & Hj' & _).
    apply Huniq; auto. }
  destruct (Hslots _ Hcur) as (Htid & _ & Hz). destruct (Hz eq_refl) as [Hzombie Hret].
  assert (thread_join_lookup w rt' = Some (current_thread rt)) as Hlookup.
  { apply thread_join_lookup_Some; [done..| by rewrite Hzombie | done]. }
  split; [done|]. unfold thread_join. rewrite Hlookup. unfold thread_join_wait.
  rewrite bool_decide_eq_false_2 by (by intros []).
  cbn [fst snd threads with_threads].
  assert (length (threads rt') = MAX_THREADS) as Hlen'.
  { subst rt'. rewrite Heq, length_schedule_table. apply Hok3. }
  rewrite !list_lookup_total_alter_eq by (rewrite ?length_alter; lia).
  by rewrite Hret.
Qed.

(** X12.  [thread_join] on the tid of a thread that has not exited suspends
    the caller: its slot records the tid in [joined_tid] and is SLEEPING
    when the scheduler is called, and still is when the scheduler has
    switched or returned, which is the condition on which the target's
    [thread_exit] wakes a slot.  When the scheduler has switched away from
    the caller, the caller's slot holds in [sp] the stack pointer that
    switch saved, and is otherwise as the caller marked it; when there was
    nothing to switch to, its [sp] is as it was.  A thread that joins
    itself is suspended in the same way.  The target keeps its tid and its
    [retval], and is still neither free nor a zombie. *)
Theorem thread_join_blocks (w : Z) (rt : runtime) (t : nat) :
  table_ok rt → tids_unique rt → t < MAX_THREADS →
  tid (threads rt !!! t) = w →
  state (threads rt !!! t) ≠ T_UNUSED → state (threads rt !!! t) ≠ T_ZOMBIE →
  let cur := current_thread rt in
  let rt' := (thread_join w rt).1 in
  (thread_join w rt).2 = Suspended
  ∧ rt' = thread_schedule
            (update_current (set_state T_SLEEPING)
               (update_current (set_joined_tid w) rt))
  ∧ threads rt' !!! cur =
      (let marked := set_joined_tid w (set_state T_SLEEPING (threads rt !!! cur)) in
       if decide (current_thread rt' = cur) then marked
       else set_sp (SpSaved (length (switch_log rt))) marked)
  ∧ state (threads rt' !!! cur) = T_SLEEPING
  ∧ joined_tid (threads rt' !!! cur) = w
  ∧ (t ≠ cur →
     tid (threads rt' !!! t) = w
     ∧ retval (threads rt' !!! t) = retval (threads rt !!! t)
     ∧ state (threads rt' !!! t) ≠ T_UNUSED
     ∧ state (threads rt' !!! t) ≠ T_ZOMBIE).
Proof.
  intros Hok Huniq Ht Hw Hu Hz cur rt'. pose proof Hok as [Hlen Hcur].
  subst rt'. unfold thread_join.
  rewrite (thread_join_lookup_Some w rt t Huniq Ht Hu Hw).
  unfold thread_join_wait. rewrite bool_decide_eq_true_2 by done.
  cbn [fst snd]. split; [done|]. split; [done|].
  set (marked := update_current (set_state T_SLEEPING)
                   (update_current (set_joined_tid w) rt)).
  assert (table_ok marked) as Hokm by (by do 2 apply update_current_table_ok).
  assert (∀ i, threads marked !!! i =
               if decide (i = cur)
               then set_joined_tid w (set_state T_SLEEPING (threads rt !!! i))
               else threads rt !!! i) as Hm.
  { intros i. unfold marked.
    rewrite update_current_lookup by (by apply update_current_table_ok).
    rewrite update_current_lookup by done.
    change (current_thread (update_current (set_joined_tid w) rt)) with cur.
    fold cur. by destruct (decide (i = cur)). }
  assert (state (threads marked !!! cur) = T_SLEEPING) as Hsl
    by (by rewrite Hm, decide_True).
  split; [|split; [|split]].
  - cbv zeta. rewrite thread_schedule_slot by done.
    destruct (find_runnable_thread marked) as [next|] eqn:Hfind.
    + destruct (find_runnable_thread_Some marked next Hokm Hfind) as [Hnext Hrun].
      assert (next ≠ cur) as Hnc by (intros ->; congruence).
      rewrite (thread_schedule_Some marked next Hfind). cbn [current_thread].
      rewrite (decide_False (P := next = cur)) by done.
      destruct (decide (cur = next)) as [?|_]; [congruence|].
      change (current_thread marked) with cur. rewrite decide_True by done.
      destruct (decide (state (current marked) = T_RUNNING)) as [Hr|_].
      { unfold current in Hr. change (current_thread marked) with cur in Hr.
        congruence. }
      by rewrite Hm, decide_True.
    + rewrite thread_schedule_None by done.
      change (current_thread marked) with cur. rewrite decide_True by done.
      by rewrite Hm, decide_True.
  - by destruct (thread_schedule_keeps_sleeping marked cur Hokm Hsl) as (_ & -> & _).
  - destruct (thread_schedule_keeps_sleeping marked cur Hokm Hsl)
      as (_ & _ & _ & _ & _ & -> & _).
    by rewrite Hm, decide_True.
  - intros Hne. destruct (thread_schedule_fields marked t Hokm Ht) as (Hf & Hs & _).
    rewrite Hm, decide_False in Hf, Hs by done. rewrite Hf.
    split; [done|]. split; [done|].
    destruct Hs as [-> | [[? ->] | [? ->]]]; done.
Qed.

(** ** Mutex: contention and release *)

(** X13.  Mutual exclusion.  [mutex_lock] on a mutex that is held never
    takes it: whoever the caller is, the call parks, [locked] and
    [owner_tid] are as they were, the tid of the caller is appended to the
    wait queue behind the tids already there, and the caller's slot is
    SLEEPING when the scheduler has switched or returned. *)
Theorem mutex_lock_contended (m : mutex_t) (rt : runtime) :
  Mutex.locked m ≠ 0%Z →
  mutex_queue_ok m → (Mutex.wait_count m < Z.of_nat MAX_THREADS)%Z →
  table_ok rt →
  let m' := (mutex_lock m rt).1.1 in
  let rt' := (mutex_lock m rt).1.2 in
  (mutex_lock m rt).2 = Parked
  ∧ Mutex.locked m' = Mutex.locked m
  ∧ Mutex.owner_tid m' = Mutex.owner_tid m
  ∧ waiters (Mutex.wait_queue m') (Mutex.wait_count m')
    = waiters (Mutex.wait_queue m) (Mutex.wait_count m) ++ [tid (current rt)]
  ∧ mutex_queue_ok m'
  ∧ rt' = thread_schedule (update_current (set_state T_SLEEPING) rt)
  ∧ state (threads rt' !!! current_thread rt) = T_SLEEPING.
Proof.
  intros Hlocked Hq Hroom Hok m' rt'. subst m' rt'.
  destruct (queue_push_ok _ _ (tid (current rt)) Hq Hroom) as (Hq' & _ & Hw).
  unfold mutex_lock. rewrite bool_decide_eq_true_2 by done.
  unfold queue_push in *. simpl in *.
  split; [done|]. split; [done|]. split; [done|]. split; [done|].
  split; [done|]. split; [done|]. by apply block_current_sleeping.
Qed.

(** X14.  [mutex_unlock] by the owner releases the mutex and does not hand
    it over.  [locked] becomes 0 and [owner_tid] -1 whether or not a
    thread waits; the oldest tid of the wait queue, if there is one, is
    taken off the queue and its thread is looked up and made RUNNABLE, the
    other waiters stay queued in their order; the caller keeps running, as
    no switch happens.  The mutex being free, the next [mutex_lock] takes
    it, by whichever thread it is called: the woken thread has no
    precedence. *)
Theorem mutex_unlock_releases (m : mutex_t) (rt : runtime) :
  mutex_queue_ok m → Mutex.owner_tid m = tid (current rt) →
  let ws := waiters (Mutex.wait_queue m) (Mutex.wait_count m) in
  let m' := (mutex_unlock m rt).1 in
  let rt' := (mutex_unlock m rt).2 in
  Mutex.locked m' = 0%Z
  ∧ Mutex.owner_tid m' = (-1)%Z
  ∧ waiters (Mutex.wait_queue m') (Mutex.wait_count m') = tail ws
  ∧ mutex_queue_ok m'
  ∧ rt' = with_threads
            (match ws with [] => threads rt | w :: _ => wake_thread w (threads rt) end)
            rt
  ∧ (∀ rt2, (mutex_lock m' rt2).2 = Done
            ∧ (mutex_lock m' rt2).1.2 = rt2
            ∧ Mutex.owner_tid (mutex_lock m' rt2).1.1 = tid (current rt2)).
Proof.
  intros Hq Howner ws m' rt'. subst ws m' rt'.
  unfold mutex_unlock. rewrite bool_decide_eq_false_2 by (by intros []).
  case_bool_decide as Hpos.
  - destruct (queue_pop_ok _ _ Hq Hpos) as (Hq' & _ & Hw).
    unfold queue_pop in *. simpl in *. rewrite Hw. simpl.
    split; [done|]. split; [done|]. split; [done|]. split; [done|].
    split; [done|]. intros rt2. by rewrite ?mutex_lock_free.
  - simpl.
    assert (waiters (Mutex.wait_queue m) (Mutex.wait_count m) = []) as ->.
    { unfold waiters. destruct Hq as [_ Hn].
      replace (Mutex.wait_count m) with 0%Z by lia. done. }
    split; [done|]. split; [done|]. split.
    { unfold waiters. destruct Hq as [_ Hn].
      by replace (Mutex.wait_count m) with 0%Z by lia. }
    split; [done|]. split; [by destruct rt|].
    intros rt2. by rewrite ?mutex_lock_free.
Qed.

(** X15.  A critical section, from one thread to the next.  A thread takes a
    free mutex on which nobody waits; a second thread that calls
    [mutex_lock] in the meantime parks, queued alone behind the owner;
    the owner's [mutex_unlock] looks up exactly that thread to make it
    RUNNABLE and leaves the mutex free with an empty queue; the second
    thread, resuming at the test of its loop, takes the mutex. *)
Theorem mutex_handoff (m : mutex_t) (rtA rtB rtA' rtB' : runtime) :
  mutex_queue_ok m → Mutex.locked m = 0%Z → Mutex.wait_count m = 0%Z →
  table_ok rtB →
  tid (current rtA') = tid (current rtA) →
  let m1 := (mutex_lock m rtA).1.1 in
  let m2 := (mutex_lock m1 rtB).1.1 in
  let m3 := (mutex_unlock m2 rtA').1 in
  ((mutex_lock m rtA).2 = Done ∧ Mutex.owner_tid m1 = tid (current rtA))
  ∧ ((mutex_lock m1 rtB).2 = Parked
     ∧ Mutex.owner_tid m2 = tid (current rtA)
     ∧ waiters (Mutex.wait_queue m2) (Mutex.wait_count m2) = [tid (current rtB)]
     ∧ state (threads (mutex_lock m1 rtB).1.2 !!! current_thread rtB) = T_SLEEPING)
  ∧ (Mutex.locked m3 = 0%Z
     ∧ waiters (Mutex.wait_queue m3) (Mutex.wait_count m3) = []
     ∧ threads (mutex_unlock m2 rtA').2
       = wake_thread (tid (current rtB)) (threads rtA'))
  ∧ ((mutex_lock m3 rtB').2 = Done
     ∧ Mutex.locked (mutex_lock m3 rtB').1.1 = 1%Z
     ∧ Mutex.owner_tid (mutex_lock m3 rtB').1.1 = tid (current rtB')).
Proof.
  intros Hq Hfree Hempty HokB HtidA m1 m2 m3.
  assert (m1 = Mutex.mk 1 (tid (current rtA)) (Mutex.wait_queue m) 0) as Hm1.
  { subst m1. rewrite mutex_lock_free by done. simpl. by rewrite Hempty. }
  assert (mutex_queue_ok m1) as Hq1.
  { rewrite Hm1. destruct Hq as [Hlen _]. split; [done|]. simpl. slot_lia. }
  assert (Mutex.locked m1 ≠ 0%Z) as Hl1 by (by rewrite Hm1).
  assert (Mutex.wait_count m1 < Z.of_nat MAX_THREADS)%Z as Hroom1.
  { rewrite Hm1. simpl. slot_lia. }
  destruct (queue_push_ok _ _ (tid (current rtB)) Hq1 Hroom1) as (Hq2 & _ & Hw2).
  assert ((mutex_lock m1 rtB).2 = Parked
          ∧ Mutex.locked m2 = 1%Z
          ∧ Mutex.owner_tid m2 = tid (current rtA)
          ∧ waiters (Mutex.wait_queue m2) (Mutex.wait_count m2) = [tid (current rtB)]
          ∧ mutex_queue_ok m2
          ∧ (mutex_lock m1 rtB).1.2
            = thread_schedule (update_current (set_state T_SLEEPING) rtB))
    as (HpB & Hl2 & Ho2 & Hws2 & Hqok2 & HrtB).
  { subst m2. unfold mutex_lock. rewrite bool_decide_eq_true_2 by done.
    unfold queue_push in *. simpl in *. rewrite Hw2, Hm1. simpl.
    split; [done|]. split; [done|]. split; [done|]. split; [done|].
    split; [|done]. by rewrite Hm1 in Hq2. }
  assert (0 < Mutex.wait_count m2)%Z as Hpos2.
  { destruct (decide (0 < Mutex.wait_count m2)%Z); [done|].
    unfold waiters in Hws2. destruct Hqok2 as [_ ?].
    replace (Mutex.wait_count m2) with 0%Z in Hws2 by lia. done. }
  destruct (queue_pop_ok _ _ Hqok2 Hpos2) as (Hq3 & _ & Hw3).
  rewrite Hws2 in Hw3. injection Hw3 as Hhead Hrest.
  assert (Mutex.locked m3 = 0%Z
          ∧ waiters (Mutex.wait_queue m3) (Mutex.wait_count m3) = []
          ∧ threads (mutex_unlock m2 rtA').2
            = wake_thread (tid (current rtB)) (threads rtA')) as (Hl3 & Hws3 & Hth3).
  { subst m3. unfold mutex_unlock.
    rewrite bool_decide_eq_false_2 by (rewrite Ho2, HtidA; by intros []).
    rewrite bool_decide_eq_true_2 by done.
    unfold queue_pop in *. simpl in *. by rewrite <- Hhead, <- Hrest. }
  split; [split; [by rewrite mutex_lock_free | by rewrite Hm1]|].
  split; [split; [done|]; split; [done|]; split; [done|]|].
  { rewrite HrtB. by apply block_current_sleeping. }
  split; [done|]. by rewrite mutex_lock_free.
Qed.

(** ** Semaphore: units *)

Lemma sem_wait_available (s : sem_t) (rt : runtime) :
  (0 < Sem.count s ≤ INT_MAX)%Z →
  sem_wait s rt =
  (Sem.mk (Sem.count s - 1) (Sem.wait_queue s) (Sem.wait_count s), rt, Done).
Proof.
  intros Hc. unfold sem_wait. simpl.
  rewrite int_wrap_small by (unfold INT_MIN, INT_MAX in *; lia).
  by rewrite bool_decide_eq_false_2 by lia.
Qed.

Lemma sem_wait_each_available (rts : list runtime) (s : sem_t) :
  (Z.of_nat (length rts) ≤ Sem.count s ≤ INT_MAX)%Z →
  sem_wait_each rts s =
  (Sem.mk (Sem.count s - Z.of_nat (length rts)) (Sem.wait_queue s) (Sem.wait_count s),
   (λ rt, (rt, Done)) <$> rts).
Proof.
  revert s. induction rts as [|rt rts IH]; intros s Hc.
  - simpl. rewrite Z.sub_0_r. by destruct s.
  - cbn [sem_wait_each]. cbn [length] in Hc.
    rewrite sem_wait_available by lia. cbn [fst snd].
    rewrite IH by (cbn [Sem.count]; lia).
    cbn [Sem.count Sem.wait_queue Sem.wait_count fst snd fmap list_fmap length].
    do 2 f_equal. lia.
Qed.

(** X16.  A semaphore counts its units.  Of the calls of [sem_wait] on a
    semaphore initialised with [value], the first [value] return at once,
    whoever makes them and in whatever state of the runtime: none parks,
    none touches the thread table or calls the scheduler, and the count is
    0 after them.  The call after those parks: the count goes to -1 and the
    tid of the caller is the one tid in the wait queue. *)
Theorem sem_counts_units (value : Z) (rts : list runtime) (rt : runtime) :
  (0 ≤ value ≤ INT_MAX)%Z → Z.of_nat (length rts) = value →
  let s := (sem_wait_each rts (sem_init value)).1 in
  (sem_wait_each rts (sem_init value)).2 = (λ rt, (rt, Done)) <$> rts
  ∧ Sem.count s = 0%Z
  ∧ (sem_wait s rt).2 = Parked
  ∧ Sem.count (sem_wait s rt).1.1 = (-1)%Z
  ∧ waiters (Sem.wait_queue (sem_wait s rt).1.1) (Sem.wait_count (sem_wait s rt).1.1)
    = [tid (current rt)].
Proof.
  intros Hv Hn s. subst s.
  rewrite sem_wait_each_available by (simpl; lia). cbn [fst snd].
  split; [done|]. simpl. rewrite Hn, Z.sub_diag. split; [done|].
  unfold sem_wait. simpl. done.
Qed.

(** X17.  A unit given and a unit taken cancel.  On a semaphore on which
    nobody waits, [sem_post] followed by [sem_wait] leaves the semaphore
    as it was, and so does [sem_wait] followed by [sem_post] when a unit is
    there to take; neither call parks, and neither touches the runtime it
    is called in. *)
Theorem sem_post_wait_round_trip (s : sem_t) (rt rt' : runtime) :
  (0 ≤ Sem.count s < INT_MAX)%Z → Sem.wait_count s = 0%Z →
  (sem_post s rt).2 = rt
  ∧ sem_wait (sem_post s rt).1 rt' = (s, rt', Done)
  ∧ ((0 < Sem.count s)%Z →
     sem_wait s rt = ((sem_wait s rt).1.1, rt, Done)
     ∧ sem_post (sem_wait s rt).1.1 rt' = (s, rt')).
Proof.
  intros Hc Hw.
  assert (sem_post s rt = (Sem.mk (Sem.count s + 1) (Sem.wait_queue s) (Sem.wait_count s), rt))
    as Hpost.
  { unfold sem_post. simpl.
    rewrite int_wrap_small by (unfold INT_MIN, INT_MAX in *; lia).
    by rewrite bool_decide_eq_false_2 by lia. }
  rewrite Hpost. cbn [fst snd]. split; [done|]. split.
  - rewrite sem_wait_available by (simpl; lia). simpl.
    replace (Sem.count s + 1 - 1)%Z with (Sem.count s) by lia. by destruct s.
  - intros Hpos. rewrite sem_wait_available by lia. cbn [fst snd].
    split; [done|]. unfold sem_post. simpl.
    rewrite int_wrap_small by (unfold INT_MIN, INT_MAX in *; lia).
    rewrite bool_decide_eq_false_2 by lia.
    replace (Sem.count s - 1 + 1)%Z with (Sem.count s) by lia. by destruct s.
Qed.

(** X18.  A unit that is posted goes to the oldest waiter.  On a semaphore
    with count 0 and nobody waiting, a [sem_wait] parks its caller, alone
    in the queue; the [sem_post] that follows takes that tid off the queue
    and looks up its thread to make it RUNNABLE, and leaves the count at
    0 with an empty queue: the unit is the woken thread's, which returns
    from [sem_wait] without testing the count again, and a [sem_wait] by
    any other thread parks. *)
Theorem sem_handoff (s : sem_t) (rtA rtB : runtime) :
  sem_inv s → Sem.count s = 0%Z → table_ok rtA →
  let s1 := (sem_wait s rtA).1.1 in
  let s2 := (sem_post s1 rtB).1 in
  ((sem_wait s rtA).2 = Parked
   ∧ Sem.count s1 = (-1)%Z
   ∧ waiters (Sem.wait_queue s1) (Sem.wait_count s1) = [tid (current rtA)]
   ∧ state (threads (sem_wait s rtA).1.2 !!! current_thread rtA) = T_SLEEPING)
  ∧ (Sem.count s2 = 0%Z
     ∧ waiters (Sem.wait_queue s2) (Sem.wait_count s2) = []
     ∧ threads (sem_post s1 rtB).2 = wake_thread (tid (current rtA)) (threads rtB)
     ∧ current_thread (sem_post s1 rtB).2 = current_thread rtB)
  ∧ (∀ rtC, (sem_wait s2 rtC).2 = Parked).
Proof.
  intros Hinv Hzero Hok s1 s2. pose proof Hinv as (Hq & Hmax & Hwc).
  assert (Sem.wait_count s = 0%Z) as Hw0 by lia.
  assert (waiters (Sem.wait_queue s) (Sem.wait_count s) = []) as Hws0.
  { unfold waiters. by rewrite Hw0. }
  destruct (queue_push_ok _ _ (tid (current rtA)) Hq) as (Hq1 & Hn1 & Hw1);
    [rewrite Hw0; slot_lia|].
  rewrite Hws0 in Hw1.
  destruct (queue_pop_ok _ _ Hq1) as (Hq2 & Hn2 & Hw2); [lia|].
  rewrite Hw1 in Hw2. injection Hw2 as Hhead Hrest.
  pose proof (block_current_sleeping rtA Hok) as Hsl.
  subst s1 s2. unfold sem_wait, sem_post, queue_push, queue_pop in *.
  simpl in *. rewrite Hzero.
  cbn [fst snd Sem.count Sem.wait_queue Sem.wait_count].
  rewrite (bool_decide_eq_true_2 (int_wrap (0 - 1) < 0)%Z) by done.
  cbn [fst snd Sem.count Sem.wait_queue Sem.wait_count].
  rewrite (bool_decide_eq_true_2 (0 < int_wrap (Sem.wait_count s + 1))%Z) by lia.
  change (int_wrap (0 - 1)) with (-1)%Z. change (int_wrap (-1 + 1)) with 0%Z.
  simpl. rewrite <- Hhead, <- Hrest.
  split; [done|]. split; [done|]. intros rtC. done.
Qed.

(** ** Condition variable: waiting and signalling *)

Lemma mutex_unlock_runtime (m : mutex_t) (rt : runtime) :
  current_thread (mutex_unlock m rt).2 = current_thread rt
  ∧ length (threads (mutex_unlock m rt).2) = length (threads rt)
  ∧ switch_log (mutex_unlock m rt).2 = switch_log rt.
Proof.
  unfold mutex_unlock. case_bool_decide; [done|].
  case_bool_decide; [|done]. unfold queue_pop. simpl.
  by rewrite length_wake_thread.
Qed.

(** X19.  [cond_wait] queues the caller behind the threads that already
    wait, releases the mutex as [mutex_unlock] does, and suspends the
    caller: its slot is SLEEPING when the scheduler has switched or
    returned, whether or not the caller held the mutex, which is left
    untouched if it did not.  The next [cond_signal] takes the oldest
    waiter off the queue and looks up its thread to make it RUNNABLE, the
    caller itself if it waited alone.  A [cond_signal] made while nobody
    waits does nothing and is not remembered. *)
Theorem cond_wait_then_signal (c : cond_t) (m : mutex_t) (rt rt2 : runtime) :
  cond_queue_ok c → (Cond.wait_count c < Z.of_nat MAX_THREADS)%Z →
  table_ok rt →
  let c1 := (cond_wait c m rt).1.1 in
  let m1 := (cond_wait c m rt).1.2 in
  let rt1 := (cond_wait c m rt).2 in
  let ws1 := waiters (Cond.wait_queue c) (Cond.wait_count c) ++ [tid (current rt)] in
  waiters (Cond.wait_queue c1) (Cond.wait_count c1) = ws1
  ∧ m1 = (mutex_unlock m rt).1
  ∧ (Mutex.owner_tid m = tid (current rt) → Mutex.locked m1 = 0%Z)
  ∧ (Mutex.owner_tid m ≠ tid (current rt) → m1 = m)
  ∧ rt1 = thread_schedule
            (update_current (set_state T_SLEEPING) (mutex_unlock m rt).2)
  ∧ state (threads rt1 !!! current_thread rt) = T_SLEEPING
  ∧ (∀ w, head ws1 = Some w →
       threads (cond_signal c1 rt2).2 = wake_thread w (threads rt2)
       ∧ waiters (Cond.wait_queue (cond_signal c1 rt2).1)
           (Cond.wait_count (cond_signal c1 rt2).1) = tail ws1)
  ∧ (Cond.wait_count c = 0%Z → cond_signal c rt2 = (c, rt2)).
Proof.
  intros Hq Hroom Hok c1 m1 rt1 ws1. subst c1 m1 rt1 ws1.
  destruct (queue_push_ok _ _ (tid (current rt)) Hq Hroom) as (Hq1 & Hn1 & Hw1).
  destruct (mutex_unlock_runtime m rt) as (Hcur & Hlen & _).
  assert (cond_wait c m rt =
          (Cond.mk (queue_push (Cond.wait_queue c) (Cond.wait_count c) (tid (current rt))).1
             (queue_push (Cond.wait_queue c) (Cond.wait_count c) (tid (current rt))).2,
           (mutex_unlock m rt).1,
           thread_schedule (update_current (set_state T_SLEEPING) (mutex_unlock m rt).2)))
    as ->.
  { unfold cond_wait, queue_push. by destruct (mutex_unlock m rt). }
  cbn [fst snd Cond.wait_queue Cond.wait_count].
  split; [done|]. split; [done|].
  split; [intros Ho; by apply mutex_unlock_owner|].
  split.
  { intros Hno. unfold mutex_unlock. by rewrite bool_decide_eq_true_2. }
  split; [done|]. split.
  { rewrite <- Hcur. apply block_current_sleeping.
    destruct Hok as [Hl Hc]. split; [by rewrite Hlen | by rewrite Hcur]. }
  split.
  - intros w Hhead.
    assert (0 < (queue_push (Cond.wait_queue c) (Cond.wait_count c) (tid (current rt))).2)%Z
      as Hpos by (destruct Hq as [_ ?]; lia).
    destruct (queue_pop_ok _ _ Hq1 Hpos) as (_ & _ & Hw2).
    rewrite Hw1 in Hw2. rewrite Hw2 in Hhead. injection Hhead as <-.
    rewrite Hw2. unfold cond_signal.
    cbn [Cond.wait_queue Cond.wait_count].
    rewrite bool_decide_eq_false_2 by lia.
    unfold queue_pop in *. done.
  - intros Hz. unfold cond_signal. by rewrite bool_decide_eq_true_2.
Qed.

(** X20.  [cond_broadcast] is [cond_signal] repeated.  On a condition
    variable whose [wait_count] is not negative, one broadcast leaves the
    condition variable and the thread table exactly as [wait_count]
    signals in a row do. *)
Theorem cond_broadcast_repeats_signal (c : cond_t) (rt : runtime) :
  cond_queue_ok c →
  cond_broadcast c rt
  = Nat.iter (Z.to_nat (Cond.wait_count c)) (λ p, cond_signal p.1 p.2) (c, rt).
Proof.
  unfold cond_broadcast. remember (Z.to_nat (Cond.wait_count c)) as fuel eqn:Hn.
  revert c rt Hn. induction fuel as [|fuel IH]; intros c rt Hn Hq; [done|].
  rewrite Nat.iter_succ_r. cbn [cond_broadcast_loop fst snd].
  rewrite bool_decide_eq_true_2 by lia.
  destruct (queue_pop_ok _ _ Hq ltac:(lia)) as (Hq' & Hn' & _).
  unfold cond_signal at 2. rewrite bool_decide_eq_false_2 by lia.
  destruct (queue_pop (Cond.wait_queue c) (Cond.wait_count c)) as [q n] eqn:Hpop.
  simpl in Hq', Hn'. apply IH; [simpl; lia | done].
Qed.

(** ** Channel: the ring as a queue *)

Lemma Zmod_twice (x c : Z) :
  (0 ≤ x < 2 * c)%Z →
  (x mod c = if decide (x < c)%Z then x else x - c)%Z.
Proof.
  intros Hx. destruct (decide (x < c)%Z).
  - apply Z.mod_small. lia.
  - symmetry. apply (Z.mod_unique_pos x c 1). all: lia.
Qed.

Lemma ring_items_push (buffer : list Z) (capacity read_pos count data : Z) :
  (0 ≤ read_pos < capacity)%Z → (0 ≤ count < capacity)%Z →
  length buffer = Z.to_nat capacity →
  ring_items (<[Z.to_nat ((read_pos + count) mod capacity) := data]> buffer)
    capacity read_pos (count + 1)
  = ring_items buffer capacity read_pos count ++ [data].
Proof.
  intros Hpos Hcount Hlen. unfold ring_items.
  replace (Z.to_nat (count + 1)) with (S (Z.to_nat count)) by lia.
  rewrite seq_S, fmap_app. simpl. f_equal.
  - apply list_fmap_ext. intros i k Hk. apply lookup_seq in Hk as [-> Hi]. simpl.
    apply list_lookup_total_insert_ne.
    rewrite !Zmod_twice by lia. repeat case_decide; lia.
  - f_equal. rewrite Z2Nat.id by lia.
    apply list_lookup_total_insert_eq.
    pose proof (Z.mod_pos_bound (read_pos + count) capacity). lia.
Qed.

Lemma cond_wait_unfold (c : cond_t) (m : mutex_t) (rt : runtime) :
  cond_wait c m rt =
  (Cond.mk (queue_push (Cond.wait_queue c) (Cond.wait_count c) (tid (current rt))).1
     (queue_push (Cond.wait_queue c) (Cond.wait_count c) (tid (current rt))).2,
   (mutex_unlock m rt).1,
   thread_schedule (update_current (set_state T_SLEEPING) (mutex_unlock m rt).2)).
Proof. unfold cond_wait, queue_push. by destruct (mutex_unlock m rt). Qed.

Lemma cond_wait_queue (c : cond_t) (m : mutex_t) (rt : runtime) :
  cond_queue_ok c → cond_room c →
  cond_queue_ok (cond_wait c m rt).1.1
  ∧ waiters (Cond.wait_queue (cond_wait c m rt).1.1)
      (Cond.wait_count (cond_wait c m rt).1.1)
    = waiters (Cond.wait_queue c) (Cond.wait_count c) ++ [tid (current rt)].
Proof.
  intros Hq Hroom. rewrite cond_wait_unfold. cbn [fst snd].
  destruct (queue_push_ok _ _ (tid (current rt)) Hq Hroom) as (Hq1 & _ & Hw1).
  done.
Qed.

Lemma cond_wait_sleeps (c : cond_t) (m : mutex_t) (rt : runtime) :
  table_ok rt →
  state (threads (cond_wait c m rt).2 !!! current_thread rt) = T_SLEEPING.
Proof.
  intros [Hl Hc]. rewrite cond_wait_unfold. cbn [snd].
  destruct (mutex_unlock_runtime m rt) as (Hcur & Hlen & _).
  rewrite <- Hcur. apply block_current_sleeping.
  split; [by rewrite Hlen | by rewrite Hcur].
Qed.

(** The caller of one of the three functions finds the lock held. *)
Lemma channel_lock_busy (ch : channel_t) (rt : runtime) :
  Mutex.locked (Chan.lock ch) ≠ 0%Z →
  let m := (mutex_lock (Chan.lock ch) rt).1.1 in
  (∀ data, channel_send ch data rt
           = (Chan.with_lock m ch, (mutex_lock (Chan.lock ch) rt).1.2, Suspended))
  ∧ channel_recv ch rt
    = (Chan.with_lock m ch, (mutex_lock (Chan.lock ch) rt).1.2, Suspended)
  ∧ channel_close ch rt
    = (Chan.with_lock m ch, (mutex_lock (Chan.lock ch) rt).1.2, Parked)
  ∧ Mutex.locked m ≠ 0%Z
  ∧ (mutex_queue_ok (Chan.lock ch) → lock_room ch →
     mutex_queue_ok m
     ∧ waiters (Mutex.wait_queue m) (Mutex.wait_count m)
       = waiters (Mutex.wait_queue (Chan.lock ch)) (Mutex.wait_count (Chan.lock ch))
         ++ [tid (current rt)]).
Proof.
  intros Hbusy m. subst m.
  unfold channel_send, channel_recv, channel_close.
  destruct (mutex_lock_busy (Chan.lock ch) rt Hbusy) as (Hp & Hl & _).
  assert (mutex_queue_ok (Chan.lock ch) → lock_room ch →
     mutex_queue_ok (mutex_lock (Chan.lock ch) rt).1.1
     ∧ waiters (Mutex.wait_queue (mutex_lock (Chan.lock ch) rt).1.1)
         (Mutex.wait_count (mutex_lock (Chan.lock ch) rt).1.1)
       = waiters (Mutex.wait_queue (Chan.lock ch)) (Mutex.wait_count (Chan.lock ch))
         ++ [tid (current rt)]) as Hq.
  { intros Hq Hroom. specialize (Hroom Hbusy).
    destruct (queue_push_ok _ _ (tid (current rt)) Hq Hroom) as (Hq1 & _ & Hw1).
    unfold mutex_lock. rewrite bool_decide_eq_true_2 by done.
    unfold queue_push in *. done. }
  destruct (mutex_lock (Chan.lock ch) rt) as [[m rt'] p]. simpl in *. subst p.
  split; [done|]. split; [done|]. split; [done|]. split; [congruence|]. done.
Qed.

(** A send that finds the lock free, the channel open and room in the
    ring. *)
Lemma channel_send_store (ch : channel_t) (data : Z) (rt : runtime) :
  chan_ring_ok ch → Mutex.locked (Chan.lock ch) = 0%Z →
  Chan.closed ch = 0%Z → (Chan.count ch < Chan.capacity ch)%Z →
  ∃ m c rt', channel_send ch data rt =
      (Chan.mk (<[Z.to_nat (Chan.write_pos ch) := data]> (Chan.buffer ch))
         (Chan.capacity ch) (Chan.count ch + 1) (Chan.read_pos ch)
         ((Chan.write_pos ch + 1) mod Chan.capacity ch) 0 m c (Chan.not_full ch),
       rt', Returned 0%Z)
    ∧ Mutex.locked m = 0%Z ∧ mutex_queue_ok m ∧ cond_queue_ok c
    ∧ c = (cond_signal (Chan.not_empty ch) rt).1
    ∧ current_thread rt' = current_thread rt
    ∧ switch_log rt' = switch_log rt
    ∧ rt' = (mutex_unlock
               (Mutex.mk 1 (tid (current rt)) (Mutex.wait_queue (Chan.lock ch))
                  (Mutex.wait_count (Chan.lock ch)))
               (cond_signal (Chan.not_empty ch) rt).2).2.
Proof.
  intros [(Hcap & Hlen & Hcount & Hpos & Hlq & Hneq & Hnfq) Hwp] Hfree Hopen Hroom.
  assert (0 ≤ Chan.write_pos ch < Chan.capacity ch)%Z as Hw.
  { rewrite Hwp. apply Z.mod_pos_bound. lia. }
  unfold channel_send. rewrite mutex_lock_free by done.
  unfold channel_send_locked. simpl.
  rewrite bool_decide_eq_false_2 by (rewrite Hopen; by intros []).
  rewrite bool_decide_eq_false_2 by lia.
  rewrite !int_wrap_small by (unfold INT_MIN, INT_MAX in *; lia).
  unfold c_rem. rewrite Z.rem_mod_nonneg by lia.
  unfold arr_store. rewrite bool_decide_eq_true_2 by lia.
  set (m1 := Mutex.mk 1 _ _ _).
  assert (mutex_queue_ok m1) as Hq1 by done.
  pose proof (cond_signal_current_tid (Chan.not_empty ch) rt) as Htid.
  pose proof (cond_signal_queue_ok (Chan.not_empty ch) rt Hneq) as Hcq.
  assert (current_thread (cond_signal (Chan.not_empty ch) rt).2 = current_thread rt
          ∧ switch_log (cond_signal (Chan.not_empty ch) rt).2 = switch_log rt)
    as [Hc1 Hlog1].
  { unfold cond_signal. case_bool_decide; [done|]. by unfold queue_pop. }
  destruct (cond_signal (Chan.not_empty ch) rt) as [c rt1] eqn:Hsig. simpl in *.
  pose proof (mutex_unlock_owner m1 rt1 (eq_sym Htid)) as Hu.
  pose proof (mutex_unlock_queue_ok m1 rt1 Hq1) as Hq.
  destruct (mutex_unlock_runtime m1 rt1) as (Hc2 & _ & Hlog2).
  destruct (mutex_unlock m1 rt1) as [m rt2]. simpl in *.
  exists m, c, rt2. rewrite Hopen. split; [done|].
  split; [done|]. split; [done|]. split; [done|]. split; [done|].
  split; [congruence|]. split; [congruence | done].
Qed.

(** A send that finds the lock free, the channel open and the ring full. *)
Lemma channel_send_full (ch : channel_t) (data : Z) (rt : runtime) :
  chan_ok ch → Mutex.locked (Chan.lock ch) = 0%Z →
  Chan.closed ch = 0%Z → Chan.count ch = Chan.capacity ch →
  cond_room (Chan.not_full ch) →
  ∃ m c rt', channel_send ch data rt =
      (Chan.mk (Chan.buffer ch) (Chan.capacity ch) (Chan.count ch) (Chan.read_pos ch)
         (Chan.write_pos ch) (Chan.closed ch) m (Chan.not_empty ch) c,
       rt', Suspended)
    ∧ Mutex.locked m = 0%Z ∧ mutex_queue_ok m ∧ cond_queue_ok c
    ∧ waiters (Cond.wait_queue c) (Cond.wait_count c)
      = waiters (Cond.wait_queue (Chan.not_full ch)) (Cond.wait_count (Chan.not_full ch))
        ++ [tid (current rt)]
    ∧ (table_ok rt → state (threads rt' !!! current_thread rt) = T_SLEEPING).
Proof.
  intros (Hcap & Hlen & Hcount & Hpos & Hlq & Hneq & Hnfq) Hfree Hopen Hfull Hroom.
  unfold channel_send. rewrite mutex_lock_free by done.
  unfold channel_send_locked. cbn [Chan.closed Chan.with_lock Chan.count Chan.capacity
    Chan.not_full Chan.lock].
  rewrite bool_decide_eq_false_2 by (rewrite Hopen; by intros []).
  rewrite bool_decide_eq_true_2 by done.
  set (m1 := Mutex.mk 1 _ _ _).
  assert (mutex_queue_ok m1) as Hq1 by done.
  destruct (cond_wait_queue (Chan.not_full ch) m1 rt Hnfq Hroom) as [Hcq Hw].
  pose proof (cond_wait_sleeps (Chan.not_full ch) m1 rt) as Hsl.
  pose proof (mutex_unlock_owner m1 rt eq_refl) as Hu.
  pose proof (mutex_unlock_queue_ok m1 rt Hq1) as Hq.
  rewrite cond_wait_unfold in *. cbn [fst snd] in *.
  eexists _, _, _. split; [reflexivity|]. done.
Qed.

(** A receive that finds the lock free and an item in the ring. *)
Lemma channel_recv_take (ch : channel_t) (rt : runtime) :
  chan_ok ch → Mutex.locked (Chan.lock ch) = 0%Z → Chan.count ch ≠ 0%Z →
  ∃ m c rt', channel_recv ch rt =
      (Chan.mk (Chan.buffer ch) (Chan.capacity ch) (Chan.count ch - 1)
         ((Chan.read_pos ch + 1) mod Chan.capacity ch) (Chan.write_pos ch)
         (Chan.closed ch) m (Chan.not_empty ch) c,
       rt', Returned (0%Z, Some (Chan.buffer ch !!! Z.to_nat (Chan.read_pos ch))))
    ∧ Mutex.locked m = 0%Z ∧ mutex_queue_ok m ∧ cond_queue_ok c
    ∧ c = (cond_signal (Chan.not_full ch) rt).1
    ∧ current_thread rt' = current_thread rt
    ∧ switch_log rt' = switch_log rt
    ∧ rt' = (mutex_unlock
               (Mutex.mk 1 (tid (current rt)) (Mutex.wait_queue (Chan.lock ch))
                  (Mutex.wait_count (Chan.lock ch)))
               (cond_signal (Chan.not_full ch) rt).2).2.
Proof.
  intros (Hcap & Hlen & Hcount & Hpos & Hlq & Hneq & Hnfq) Hfree Hitems.
  unfold channel_recv. rewrite mutex_lock_free by done.
  unfold channel_recv_locked. simpl.
  rewrite bool_decide_eq_false_2 by done.
  rewrite bool_decide_eq_true_2 by lia.
  rewrite !int_wrap_small by (unfold INT_MIN, INT_MAX in *; lia).
  unfold c_rem. rewrite Z.rem_mod_nonneg by lia.
  set (m1 := Mutex.mk 1 _ _ _).
  assert (mutex_queue_ok m1) as Hq1 by done.
  pose proof (cond_signal_current_tid (Chan.not_full ch) rt) as Htid.
  pose proof (cond_signal_queue_ok (Chan.not_full ch) rt Hnfq) as Hcq.
  assert (current_thread (cond_signal (Chan.not_full ch) rt).2 = current_thread rt
          ∧ switch_log (cond_signal (Chan.not_full ch) rt).2 = switch_log rt)
    as [Hc1 Hlog1].
  { unfold cond_signal. case_bool_decide; [done|]. by unfold queue_pop. }
  destruct (cond_signal (Chan.not_full ch) rt) as [c rt1] eqn:Hsig. simpl in *.
  pose proof (mutex_unlock_owner m1 rt1 (eq_sym Htid)) as Hu.
  pose proof (mutex_unlock_queue_ok m1 rt1 Hq1) as Hq.
  destruct (mutex_unlock_runtime m1 rt1) as (Hc2 & _ & Hlog2).
  destruct (mutex_unlock m1 rt1) as [m rt2]. simpl in *.
  exists m, c, rt2. split; [done|].
  split; [done|]. split; [done|]. split; [done|]. split; [done|].
  split; [congruence|]. split; [congruence | done].
Qed.

(** A receive that finds the lock free and the ring empty. *)
Lemma channel_recv_empty (ch : channel_t) (rt : runtime) :
  chan_ok ch → Mutex.locked (Chan.lock ch) = 0%Z → Chan.count ch = 0%Z →
  ∃ m c rt', channel_recv ch rt =
      (Chan.mk (Chan.buffer ch) (Chan.capacity ch) (Chan.count ch) (Chan.read_pos ch)
         (Chan.write_pos ch) (Chan.closed ch) m c (Chan.not_full ch),
       rt',
       if bool_decide (Chan.closed ch ≠ 0%Z) then Returned ((-1)%Z, None)
       else Suspended)
    ∧ Mutex.locked m = 0%Z ∧ mutex_queue_ok m
    ∧ (Chan.closed ch ≠ 0%Z → c = Chan.not_empty ch)
    ∧ (Chan.closed ch = 0%Z → cond_room (Chan.not_empty ch) →
       cond_queue_ok c
       ∧ waiters (Cond.wait_queue c) (Cond.wait_count c)
         = waiters (Cond.wait_queue (Chan.not_empty ch))
             (Cond.wait_count (Chan.not_empty ch)) ++ [tid (current rt)])
    ∧ (Chan.closed ch = 0%Z → table_ok rt →
       state (threads rt' !!! current_thread rt) = T_SLEEPING).
Proof.
  intros (Hcap & Hlen & Hcount & Hpos & Hlq & Hneq & Hnfq) Hfree Hempty.
  unfold channel_recv. rewrite mutex_lock_free by done.
  unfold channel_recv_locked. cbn [Chan.closed Chan.with_lock Chan.count Chan.capacity
    Chan.not_empty Chan.lock].
  rewrite bool_decide_eq_true_2 by done.
  set (m1 := Mutex.mk 1 _ _ _).
  assert (mutex_queue_ok m1) as Hq1 by done.
  pose proof (mutex_unlock_owner m1 rt eq_refl) as Hu.
  pose proof (mutex_unlock_queue_ok m1 rt Hq1) as Hq.
  case_bool_decide as Hclosed.
  - destruct (mutex_unlock m1 rt) as [m rt']. simpl in *.
    exists m, (Chan.not_empty ch), rt'. split; [done|].
    split; [done|]. split; [done|]. split; [done|]. split; intros; done.
  - pose proof (cond_wait_queue (Chan.not_empty ch) m1 rt Hneq) as Hcq.
    pose proof (cond_wait_sleeps (Chan.not_empty ch) m1 rt) as Hsl.
    rewrite cond_wait_unfold in *. cbn [fst snd] in *.
    eexists _, _, _. split; [reflexivity|].
    split; [done|]. split; [done|]. split; [done|]. split; [|done].
    intros _ Hroom. by apply Hcq.
Qed.

Lemma chan_ring_ok_with_lock (m : mutex_t) (ch : channel_t) :
  chan_ring_ok ch → mutex_queue_ok m → chan_ring_ok (Chan.with_lock m ch).
Proof.
  intros [(Hcap & Hlen & Hcount & Hpos & Hlq & Hneq & Hnfq) Hwp] Hq.
  split; [|done]. by unfold chan_ok.
Qed.

(** What a store leaves, and what a take leaves. *)
Lemma chan_ring_ok_store (ch : channel_t) (data : Z) (m : mutex_t) (c : cond_t) :
  chan_ring_ok ch → (Chan.count ch < Chan.capacity ch)%Z →
  mutex_queue_ok m → cond_queue_ok c →
  let ch' := Chan.mk (<[Z.to_nat (Chan.write_pos ch) := data]> (Chan.buffer ch))
               (Chan.capacity ch) (Chan.count ch + 1) (Chan.read_pos ch)
               ((Chan.write_pos ch + 1) mod Chan.capacity ch) 0 m c (Chan.not_full ch) in
  chan_ring_ok ch' ∧ chan_items ch' = chan_items ch ++ [data].
Proof.
  intros [(Hcap & Hlen & Hcount & Hpos & Hlq & Hneq & Hnfq) Hwp] Hroom Hq Hc ch'.
  subst ch'. split.
  - split.
    + unfold chan_ok. simpl. rewrite length_insert.
      split; [done|]. split; [done|]. split; [lia|]. done.
    + simpl. rewrite Hwp, Zplus_mod_idemp_l. f_equal. lia.
  - unfold chan_items. simpl. rewrite Hwp.
    apply ring_items_push; [done | lia | done].
Qed.

Lemma chan_ring_ok_take (ch : channel_t) (m : mutex_t) (c : cond_t) :
  chan_ring_ok ch → Chan.count ch ≠ 0%Z →
  mutex_queue_ok m → cond_queue_ok c →
  let ch' := Chan.mk (Chan.buffer ch) (Chan.capacity ch) (Chan.count ch - 1)
               ((Chan.read_pos ch + 1) mod Chan.capacity ch) (Chan.write_pos ch)
               (Chan.closed ch) m (Chan.not_empty ch) c in
  chan_ring_ok ch'
  ∧ chan_items ch = Chan.buffer ch !!! Z.to_nat (Chan.read_pos ch) :: chan_items ch'.
Proof.
  intros [(Hcap & Hlen & Hcount & Hpos & Hlq & Hneq & Hnfq) Hwp] Hitems Hq Hc ch'.
  subst ch'. split.
  - split.
    + unfold chan_ok. simpl.
      split; [done|]. split; [done|]. split; [lia|].
      split; [by apply Z.mod_pos_bound; lia | done].
    + simpl. rewrite Hwp, Zplus_mod_idemp_l. f_equal. lia.
  - unfold chan_items. simpl.
    by rewrite (ring_items_pop _ _ (Chan.read_pos ch)) by lia.
Qed.

(** X21.  What [channel_send] does, case by case, on a channel laid out as
    [channel_create] would have.  It suspends when the lock is held, and,
    past the lock, returns -1 on a closed channel, suspends on a full ring,
    queued last on [not_full] and SLEEPING, and otherwise stores the value
    and returns 0.  The value is appended behind the items of the ring,
    and only a send that returns 0 changes the items; the ring stays well
    formed, [closed] is not written, and a send that got the lock has
    released it when it returns or suspends. *)
Theorem channel_send_outcomes (ch : channel_t) (data : Z) (rt : runtime) :
  chan_ring_ok ch → lock_room ch → cond_room (Chan.not_full ch) →
  let ch' := (channel_send ch data rt).1.1 in
  let rt' := (channel_send ch data rt).1.2 in
  let res := (channel_send ch data rt).2 in
  chan_ring_ok ch'
  ∧ Chan.closed ch' = Chan.closed ch
  ∧ res = (if bool_decide (Mutex.locked (Chan.lock ch) ≠ 0%Z) then Suspended
           else if bool_decide (Chan.closed ch ≠ 0%Z) then Returned (-1)%Z
           else if bool_decide (Chan.count ch = Chan.capacity ch) then Suspended
           else Returned 0%Z)
  ∧ chan_items ch'
    = chan_items ch ++ match res with Returned 0%Z => [data] | _ => [] end
  ∧ (Mutex.locked (Chan.lock ch) = 0%Z → Mutex.locked (Chan.lock ch') = 0%Z)
  ∧ (Mutex.locked (Chan.lock ch) = 0%Z → Chan.closed ch = 0%Z →
     Chan.count ch = Chan.capacity ch →
     waiters (Cond.wait_queue (Chan.not_full ch')) (Cond.wait_count (Chan.not_full ch'))
     = waiters (Cond.wait_queue (Chan.not_full ch)) (Cond.wait_count (Chan.not_full ch))
       ++ [tid (current rt)]
     ∧ (table_ok rt → state (threads rt' !!! current_thread rt) = T_SLEEPING)).
Proof.
  intros Hring Hroom Hcroom ch' rt' res. subst ch' rt' res.
  pose proof Hring as [Hok Hwp].
  pose proof Hok as (Hcap & Hlen & Hcount & Hpos & Hlq & Hneq & Hnfq).
  case_bool_decide as Hbusy.
  { destruct (channel_lock_busy ch rt Hbusy) as (Hsend & _ & _ & _ & Hq).
    rewrite Hsend. cbn [fst snd]. destruct (Hq Hlq Hroom) as [Hqm _].
    split; [by apply chan_ring_ok_with_lock|]. split; [done|]. split; [done|].
    split; [by rewrite app_nil_r|]. split; intros; done. }
  assert (Mutex.locked (Chan.lock ch) = 0%Z) as Hfree.
  { destruct (decide (Mutex.locked (Chan.lock ch) = 0%Z)); [done|]. by destruct Hbusy. }
  case_bool_decide as Hclosed.
  { destruct (channel_send_closed ch data rt Hclosed) as (m & Hch & Hres & Hl & Hq).
    rewrite Hch, Hres. rewrite bool_decide_eq_true_2 by done.
    split; [apply chan_ring_ok_with_lock; [done | by apply Hq]|].
    split; [done|]. split; [done|]. split; [by rewrite app_nil_r|].
    split; [intros _; by apply Hl|]. intros _ Ho. by destruct Hclosed. }
  assert (Chan.closed ch = 0%Z) as Hopen.
  { destruct (decide (Chan.closed ch = 0%Z)); [done|]. by destruct Hclosed. }
  case_bool_decide as Hfull.
  - destruct (channel_send_full ch data rt Hok Hfree Hopen Hfull Hcroom)
      as (m & c & rt' & -> & Hl & Hq & Hcq & Hw & Hsl).
    cbn [fst snd]. split.
    { split; [|done]. by unfold chan_ok. }
    split; [done|]. split; [done|]. split; [by rewrite app_nil_r|].
    split; [done|]. done.
  - destruct (channel_send_store ch data rt Hring Hfree Hopen ltac:(lia))
      as (m & c & rt' & -> & Hl & Hq & Hcq & _).
    cbn [fst snd].
    destruct (chan_ring_ok_store ch data m c Hring ltac:(lia) Hq Hcq) as [Hr Hi].
    split; [done|]. split; [by rewrite Hopen|]. split; [done|].
    split; [done|]. split; [done|]. intros _ _ ?. done.
Qed.

(** X22.  What [channel_recv] does, case by case.  It suspends when the lock
    is held; past the lock, with an item in the ring it takes the oldest
    one, stores it through [data] and returns 0, whether the channel is
    closed or not; on an empty ring it returns -1 without storing if the
    channel is closed, and otherwise suspends, queued last on [not_empty]
    and SLEEPING.  Only a receive that returns 0 changes the items, by
    the one at the front; the ring stays well formed and the lock is
    released. *)
Theorem channel_recv_outcomes (ch : channel_t) (rt : runtime) :
  chan_ring_ok ch → lock_room ch → cond_room (Chan.not_empty ch) →
  let ch' := (channel_recv ch rt).1.1 in
  let rt' := (channel_recv ch rt).1.2 in
  let res := (channel_recv ch rt).2 in
  chan_ring_ok ch'
  ∧ Chan.closed ch' = Chan.closed ch
  ∧ res = (if bool_decide (Mutex.locked (Chan.lock ch) ≠ 0%Z) then Suspended
           else match chan_items ch with
                | v :: _ => Returned (0%Z, Some v)
                | [] => if bool_decide (Chan.closed ch ≠ 0%Z)
                        then Returned ((-1)%Z, None) else Suspended
                end)
  ∧ chan_items ch
    = match res with Returned (_, Some v) => [v] | _ => [] end ++ chan_items ch'
  ∧ (Mutex.locked (Chan.lock ch) = 0%Z → Mutex.locked (Chan.lock ch') = 0%Z)
  ∧ (Mutex.locked (Chan.lock ch) = 0%Z → Chan.closed ch = 0%Z →
     Chan.count ch = 0%Z →
     waiters (Cond.wait_queue (Chan.not_empty ch')) (Cond.wait_count (Chan.not_empty ch'))
     = waiters (Cond.wait_queue (Chan.not_empty ch))
         (Cond.wait_count (Chan.not_empty ch)) ++ [tid (current rt)]
     ∧ (table_ok rt → state (threads rt' !!! current_thread rt) = T_SLEEPING)).
Proof.
  intros Hring Hroom Hcroom ch' rt' res. subst ch' rt' res.
  pose proof Hring as [Hok Hwp].
  pose proof Hok as (Hcap & Hlen & Hcount & Hpos & Hlq & Hneq & Hnfq).
  case_bool_decide as Hbusy.
  { destruct (channel_lock_busy ch rt Hbusy) as (_ & Hrecv & _ & _ & Hq).
    rewrite Hrecv. cbn [fst snd]. destruct (Hq Hlq Hroom) as [Hqm _].
    split; [by apply chan_ring_ok_with_lock|]. split; [done|]. split; [done|].
    split; [done|]. split; intros; done. }
  assert (Mutex.locked (Chan.lock ch) = 0%Z) as Hfree.
  { destruct (decide (Mutex.locked (Chan.lock ch) = 0%Z)); [done|]. by destruct Hbusy. }
  destruct (decide (Chan.count ch = 0%Z)) as [Hempty|Hitems].
  - assert (chan_items ch = []) as Hnil.
    { unfold chan_items. apply ring_items_nil; [lia | done]. }
    rewrite Hnil.
    destruct (channel_recv_empty ch rt Hok Hfree Hempty)
      as (m & c & rt' & -> & Hl & Hq & Hcl & Hop & Hsl).
    cbn [fst snd].
    assert (cond_queue_ok c) as Hcq.
    { destruct (decide (Chan.closed ch = 0%Z)) as [Ho|Hc].
      - by destruct (Hop Ho Hcroom).
      - by rewrite (Hcl Hc). }
    split.
    { split; [|done]. by unfold chan_ok. }
    split; [done|]. split; [done|]. split.
    { unfold chan_items. simpl. fold (chan_items ch). rewrite Hnil.
      by case_bool_decide. }
    split; [done|]. intros _ Ho _. split; [by apply Hop | by apply Hsl].
  - destruct (channel_recv_take ch rt Hok Hfree Hitems)
      as (m & c & rt' & -> & Hl & Hq & Hcq & _).
    cbn [fst snd].
    destruct (chan_ring_ok_take ch m c Hring Hitems Hq Hcq) as [Hr Hi].
    rewrite Hi. split; [done|]. split; [done|]. split; [done|].
    split; [done|]. split; [done|]. intros _ _ ?. done.
Qed.

Lemma mutex_unlock_keeps_runnable (m : mutex_t) (rt : runtime) (i : nat) :
  state (threads rt !!! i) = T_RUNNABLE →
  state (threads (mutex_unlock m rt).2 !!! i) = T_RUNNABLE.
Proof.
  intros Hr. unfold mutex_unlock. case_bool_decide; [done|].
  case_bool_decide; [|done]. unfold queue_pop. simpl.
  by apply wake_thread_keeps_runnable.
Qed.


(** ** Channel: first in, first out *)

Lemma send_each_store (sends : list (Z * runtime)) (ch : channel_t) :
  chan_ring_ok ch → Mutex.locked (Chan.lock ch) = 0%Z → Chan.closed ch = 0%Z →
  (Chan.count ch + Z.of_nat (length sends) ≤ Chan.capacity ch)%Z →
  let ch' := (send_each sends ch).1 in
  (send_each sends ch).2 = (λ _, Returned 0%Z) <$> sends
  ∧ chan_ring_ok ch'
  ∧ Mutex.locked (Chan.lock ch') = 0%Z
  ∧ Chan.closed ch' = 0%Z
  ∧ Chan.count ch' = (Chan.count ch + Z.of_nat (length sends))%Z
  ∧ chan_items ch' = chan_items ch ++ sends.*1.
Proof.
  revert ch. induction sends as [|[data rt] sends IH]; intros ch Hring Hfree Hopen Hroom.
  - simpl. rewrite app_nil_r, Z.add_0_r. done.
  - cbn [send_each length fst snd] in *.
    destruct (channel_send_store ch data rt Hring Hfree Hopen ltac:(lia))
      as (m & c & rt' & Hsend & Hl & Hq & Hcq & _).
    destruct (chan_ring_ok_store ch data m c Hring ltac:(lia) Hq Hcq) as [Hr Hi].
    rewrite Hsend. cbn [fst snd].
    set (ch1 := Chan.mk _ _ _ _ _ _ _ _ _) in *.
    destruct (IH ch1 Hr Hl eq_refl) as (Hres & Hr' & Hl' & Ho' & Hc' & Hi').
    { subst ch1. simpl. lia. }
    split; [by rewrite Hres|]. split; [done|]. split; [done|]. split; [done|].
    split.
    + rewrite Hc'. subst ch1. simpl. lia.
    + rewrite Hi', Hi, <- app_assoc. done.
Qed.

Lemma recv_each_take (rts : list runtime) (ch : channel_t) :
  chan_ring_ok ch → Mutex.locked (Chan.lock ch) = 0%Z →
  (Z.of_nat (length rts) ≤ Chan.count ch)%Z →
  let ch' := (recv_each rts ch).1 in
  (recv_each rts ch).2
  = (λ v, Returned (0%Z, Some v)) <$> take (length rts) (chan_items ch)
  ∧ chan_ring_ok ch'
  ∧ Mutex.locked (Chan.lock ch') = 0%Z
  ∧ Chan.closed ch' = Chan.closed ch
  ∧ Chan.count ch' = (Chan.count ch - Z.of_nat (length rts))%Z
  ∧ chan_items ch' = drop (length rts) (chan_items ch).
Proof.
  revert ch. induction rts as [|rt rts IH]; intros ch Hring Hfree Hlen.
  - simpl. rewrite Z.sub_0_r. done.
  - cbn [recv_each length fst snd] in *.
    destruct Hring as [Hok Hwp].
    destruct (channel_recv_take ch rt Hok Hfree ltac:(lia))
      as (m & c & rt' & Hrecv & Hl & Hq & Hcq & _).
    destruct (chan_ring_ok_take ch m c (conj Hok Hwp) ltac:(lia) Hq Hcq) as [Hr Hi].
    rewrite Hrecv. cbn [fst snd].
    set (ch1 := Chan.mk _ _ _ _ _ _ _ _ _) in *.
    destruct (IH ch1 Hr Hl) as (Hres & Hr' & Hl' & Ho' & Hc' & Hi').
    { subst ch1. simpl. lia. }
    rewrite Hi. cbn [take drop fmap list_fmap].
    split; [by rewrite Hres|]. split; [done|]. split; [done|]. split; [done|].
    split; [|done]. rewrite Hc'. subst ch1. simpl. lia.
Qed.

(** X24.  A channel is first in, first out.  On an open channel whose lock
    is free, as many sends as the ring has free slots all return 0,
    whoever makes them; receives, as many as there are items then, all
    return 0 and deliver the items that were in the ring followed by the
    values sent, each once and in the order of the sends; the ring is
    empty afterwards.  None of these calls suspends. *)
Theorem channel_fifo_round_trip
    (ch : channel_t) (sends : list (Z * runtime)) (rts : list runtime) :
  chan_ring_ok ch → Mutex.locked (Chan.lock ch) = 0%Z → Chan.closed ch = 0%Z →
  (Chan.count ch + Z.of_nat (length sends) ≤ Chan.capacity ch)%Z →
  Z.of_nat (length rts) = (Chan.count ch + Z.of_nat (length sends))%Z →
  let sent := send_each sends ch in
  let received := recv_each rts sent.1 in
  sent.2 = (λ _, Returned 0%Z) <$> sends
  ∧ chan_items sent.1 = chan_items ch ++ sends.*1
  ∧ received.2 = (λ v, Returned (0%Z, Some v)) <$> (chan_items ch ++ sends.*1)
  ∧ chan_items received.1 = []
  ∧ Chan.count received.1 = 0%Z
  ∧ chan_ring_ok received.1.
Proof.
  intros Hring Hfree Hopen Hroom Hn sent received. subst sent received.
  destruct (send_each_store sends ch Hring Hfree Hopen Hroom)
    as (Hres & Hr & Hl & Ho & Hc & Hi).
  destruct (recv_each_take rts _ Hr Hl ltac:(lia))
    as (Hres' & Hr' & Hl' & Ho' & Hc' & Hi').
  assert (length rts = length (chan_items ch ++ sends.*1)) as Hlen.
  { rewrite <- Hi. unfold chan_items, ring_items.
    rewrite length_fmap, length_seq. lia. }
  split; [done|]. split; [done|]. split.
  { rewrite Hres', Hi, Hlen. by rewrite firstn_all. }
  split.
  { rewrite Hi', Hi, Hlen. by rewrite drop_all. }
  split; [lia | done].
Qed.

(** ** Channel: a suspended caller is woken and completes *)

Lemma cond_signal_wakes_head (c : cond_t) (rt : runtime) (w : Z) (ws : list Z) :
  cond_queue_ok c →
  waiters (Cond.wait_queue c) (Cond.wait_count c) = w :: ws →
  threads (cond_signal c rt).2 = wake_thread w (threads rt)
  ∧ waiters (Cond.wait_queue (cond_signal c rt).1) (Cond.wait_count (cond_signal c rt).1)
    = ws.
Proof.
  intros Hq Hws.
  assert (0 < Cond.wait_count c)%Z as Hpos.
  { destruct (decide (0 < Cond.wait_count c)%Z); [done|].
    unfold waiters in Hws. destruct Hq as [_ ?].
    replace (Cond.wait_count c) with 0%Z in Hws by lia. done. }
  destruct (queue_pop_ok _ _ Hq Hpos) as (_ & _ & Hw).
  rewrite Hws in Hw. injection Hw as Hhead Hrest.
  unfold cond_signal. rewrite bool_decide_eq_false_2 by lia.
  unfold queue_pop in *. simpl in *. by rewrite Hhead, Hrest.
Qed.

(** X25.  A sender that found the ring full completes once a receiver has
    made room.  On an open channel that is full, with the lock free and
    nobody queued on [not_full], [channel_send] suspends its caller,
    SLEEPING; the next [channel_recv] takes the oldest item and makes the
    thread that carries the sender's tid RUNNABLE; the sender, running
    [channel_send] again from the lock, stores its value and returns 0,
    and the ring then holds the items that were left followed by that
    value. *)
Theorem channel_full_send_completes
    (ch : channel_t) (data : Z) (rtS rtR rtS' : runtime) (i : nat) :
  chan_ring_ok ch → Mutex.locked (Chan.lock ch) = 0%Z → Chan.closed ch = 0%Z →
  Chan.count ch = Chan.capacity ch →
  Cond.wait_count (Chan.not_full ch) = 0%Z →
  table_ok rtS → length (threads rtR) = MAX_THREADS →
  i < MAX_THREADS → tid (threads rtR !!! i) = tid (current rtS) →
  (∀ j, j < i → tid (threads rtR !!! j) ≠ tid (current rtS)) →
  let s1 := channel_send ch data rtS in
  let r := channel_recv s1.1.1 rtR in
  let s2 := channel_send r.1.1 data rtS' in
  (s1.2 = Suspended
   ∧ state (threads s1.1.2 !!! current_thread rtS) = T_SLEEPING
   ∧ chan_items s1.1.1 = chan_items ch)
  ∧ ((∃ v, r.2 = Returned (0%Z, Some v) ∧ chan_items ch = v :: chan_items r.1.1)
     ∧ state (threads r.1.2 !!! i) = T_RUNNABLE)
  ∧ (s2.2 = Returned 0%Z
     ∧ chan_items s2.1.1 = tail (chan_items ch) ++ [data]).
Proof.
  intros Hring Hfree Hopen Hfull Hnowait HokS HlenR Hi Htid Hfirst s1 r s2.
  pose proof Hring as [Hok Hwp].
  pose proof Hok as (Hcap & Hlen & Hcount & Hpos & Hlq & Hneq & Hnfq).
  assert (cond_room (Chan.not_full ch)) as Hroom.
  { unfold cond_room. rewrite Hnowait. slot_lia. }
  destruct (channel_send_full ch data rtS Hok Hfree Hopen Hfull Hroom)
    as (m1 & c1 & rt1 & Hs1 & Hl1 & Hq1 & Hcq1 & Hw1 & Hsl1).
  subst s2 r s1. rewrite Hs1. cbn [fst snd].
  set (ch1 := Chan.mk _ _ _ _ _ _ m1 _ c1).
  assert (waiters (Cond.wait_queue c1) (Cond.wait_count c1) = [tid (current rtS)])
    as Hws1.
  { rewrite Hw1. unfold waiters. by rewrite Hnowait. }
  assert (chan_ring_ok ch1) as Hring1.
  { split; [|done]. by unfold chan_ok. }
  destruct (channel_recv_take ch1 rtR (proj1 Hring1) Hl1 ltac:(subst ch1; simpl; lia))
    as (m2 & c2 & rt2 & Hr & Hl2 & Hq2 & Hcq2 & Hc2 & _ & _ & Hrt2).
  rewrite Hr. cbn [fst snd].
  destruct (chan_ring_ok_take ch1 m2 c2 Hring1 ltac:(subst ch1; simpl; lia) Hq2 Hcq2)
    as [Hring2 Hitems2].
  set (ch2 := Chan.mk _ _ _ _ _ _ m2 _ c2) in *.
  change (chan_items ch1) with (chan_items ch) in Hitems2.
  split; [split; [done|]; split; [by apply Hsl1 | done]|].
  split.
  { split; [by eexists|].
    rewrite Hrt2. apply mutex_unlock_keeps_runnable.
    destruct (cond_signal_wakes_head c1 rtR _ _ Hcq1 Hws1) as [Hth _].
    change (Chan.not_full ch1) with c1. rewrite Hth.
    by apply wake_thread_first_runnable. }
  destruct (channel_send_store ch2 data rtS' Hring2 Hl2 Hopen
              ltac:(subst ch2 ch1; simpl; lia))
    as (m3 & c3 & rt3 & Hs2 & Hl3 & Hq3 & Hcq3 & _).
  rewrite Hs2. cbn [fst snd]. split; [done|].
  destruct (chan_ring_ok_store ch2 data m3 c3 Hring2
              ltac:(subst ch2 ch1; simpl; lia) Hq3 Hcq3) as [_ Hitems3].
  rewrite Hitems3, Hitems2. done.
Qed.

(** X26.  A receiver that found the ring empty completes once a sender has
    stored a value.  On an open channel that is empty, with the lock free
    and nobody queued on [not_empty], [channel_recv] suspends its caller,
    SLEEPING; the next [channel_send] stores its value, returns 0 and
    makes the thread that carries the receiver's tid RUNNABLE; the
    receiver, running [channel_recv] again from the lock, returns 0 with
    that value, and the ring is empty again. *)
Theorem channel_empty_recv_completes
    (ch : channel_t) (data : Z) (rtR rtS rtR' : runtime) (i : nat) :
  chan_ring_ok ch → Mutex.locked (Chan.lock ch) = 0%Z → Chan.closed ch = 0%Z →
  Chan.count ch = 0%Z →
  Cond.wait_count (Chan.not_empty ch) = 0%Z →
  table_ok rtR → length (threads rtS) = MAX_THREADS →
  i < MAX_THREADS → tid (threads rtS !!! i) = tid (current rtR) →
  (∀ j, j < i → tid (threads rtS !!! j) ≠ tid (current rtR)) →
  let r1 := channel_recv ch rtR in
  let s := channel_send r1.1.1 data rtS in
  let r2 := channel_recv s.1.1 rtR' in
  (r1.2 = Suspended
   ∧ state (threads r1.1.2 !!! current_thread rtR) = T_SLEEPING)
  ∧ (s.2 = Returned 0%Z
     ∧ chan_items s.1.1 = [data]
     ∧ state (threads s.1.2 !!! i) = T_RUNNABLE)
  ∧ (r2.2 = Returned (0%Z, Some data)
     ∧ chan_items r2.1.1 = []).
Proof.
  intros Hring Hfree Hopen Hempty Hnowait HokR HlenS Hi Htid Hfirst r1 s r2.
  pose proof Hring as [Hok Hwp].
  pose proof Hok as (Hcap & Hlen & Hcount & Hpos & Hlq & Hneq & Hnfq).
  assert (cond_room (Chan.not_empty ch)) as Hroom.
  { unfold cond_room. rewrite Hnowait. slot_lia. }
  assert (chan_items ch = []) as Hnil.
  { unfold chan_items. apply ring_items_nil; [lia | done]. }
  destruct (channel_recv_empty ch rtR Hok Hfree Hempty)
    as (m1 & c1 & rt1 & Hr1 & Hl1 & Hq1 & _ & Hop & Hsl1).
  destruct (Hop Hopen Hroom) as [Hcq1 Hw1].
  rewrite bool_decide_eq_false_2 in Hr1 by (rewrite Hopen; by intros []).
  subst r2 s r1. rewrite Hr1. cbn [fst snd].
  set (ch1 := Chan.mk _ _ _ _ _ _ m1 c1 _).
  assert (waiters (Cond.wait_queue c1) (Cond.wait_count c1) = [tid (current rtR)])
    as Hws1.
  { rewrite Hw1. unfold waiters. by rewrite Hnowait. }
  assert (chan_ring_ok ch1) as Hring1.
  { split; [|done]. by unfold chan_ok. }
  destruct (channel_send_store ch1 data rtS Hring1 Hl1 Hopen
              ltac:(subst ch1; simpl; lia))
    as (m2 & c2 & rt2 & Hs & Hl2 & Hq2 & Hcq2 & Hc2 & _ & _ & Hrt2).
  rewrite Hs. cbn [fst snd].
  destruct (chan_ring_ok_store ch1 data m2 c2 Hring1 ltac:(subst ch1; simpl; lia)
              Hq2 Hcq2) as [Hring2 Hitems2].
  set (ch2 := Chan.mk _ _ _ _ _ _ m2 c2 _) in *.
  change (chan_items ch1) with (chan_items ch) in Hitems2. rewrite Hnil in Hitems2.
  split; [split; [done | by apply Hsl1]|].
  split.
  { split; [done|]. split; [done|].
    rewrite Hrt2. apply mutex_unlock_keeps_runnable.
    destruct (cond_signal_wakes_head c1 rtS _ _ Hcq1 Hws1) as [Hth _].
    change (Chan.not_empty ch1) with c1. rewrite Hth.
    by apply wake_thread_first_runnable. }
  destruct (channel_recv_take ch2 rtR' (proj1 Hring2) Hl2
              ltac:(subst ch2 ch1; simpl; lia))
    as (m3 & c3 & rt3 & Hr2 & Hl3 & Hq3 & Hcq3 & _).
  rewrite Hr2. cbn [fst snd].
  destruct (chan_ring_ok_take ch2 m3 c3 Hring2 ltac:(subst ch2 ch1; simpl; lia)
              Hq3 Hcq3) as [_ Hitems3].
  rewrite Hitems2 in Hitems3.
  assert (Some data = Some (Chan.buffer ch2 !!! Z.to_nat (Chan.read_pos ch2))) as Hv
    by exact (f_equal head Hitems3).
  split; [congruence | exact (eq_sym (f_equal tail Hitems3))].
Qed.

(** ** The concrete runs are runs of the thread API *)

Lemma one_created_reachable : thread_api_reachable one_created.
Proof.
  unfold thread_api_reachable, one_created.
  eapply rtc_r; [apply rtc_refl|]. split; [vm_compute; discriminate|].
  apply call_create. vm_compute. reflexivity.
Qed.

Lemma joiner_runs_reachable : thread_api_reachable joiner_runs.
Proof.
  unfold thread_api_reachable, joiner_runs.
  eapply rtc_r; [apply one_created_reachable|]. split; [vm_compute; discriminate|].
  apply call_yield.
Qed.

Lemma zombie_waits_reachable : thread_api_reachable zombie_waits.
Proof.
  unfold thread_api_reachable, zombie_waits.
  eapply rtc_r; [apply joiner_runs_reachable|]. split; [vm_compute; discriminate|].
  apply call_exit.
Qed.

Lemma tid_inv_tids_unique (rt : runtime) : tid_inv rt → tids_unique rt.
Proof. by intros (_ & _ & _ & _ & ?). Qed.

(** * Scenarios

    Concrete runs of the library, each checked against the statement it
    instantiates. *)

Lemma thread_schedule_round_robin_witness :
  table_ok two_threads
  ∧ find_runnable_thread two_threads = Some 1
  ∧ current_thread (thread_schedule two_threads) = 1
  ∧ state (current (thread_schedule two_threads)) = T_RUNNING.
Proof.
  assert (table_ok two_threads) as Hok
    by (split; [reflexivity | unfold MAX_THREADS; simpl; lia]).
  split; [exact Hok|].
  destruct (thread_schedule_round_robin two_threads Hok) as (Hpick & Hsome & _).
  split; [rewrite Hpick; reflexivity|].
  destruct (Hsome 1 eq_refl) as (H1 & H2 & _). split; [exact H1 | exact H2].
Defined.

Lemma one_running_after_schedule_witness :
  lib_reachable bootstrap_blocks
  ∧ find_runnable_thread bootstrap_blocks = Some 1
  ∧ one_running (thread_schedule bootstrap_blocks).
Proof.
  assert (lib_reachable bootstrap_blocks) as Hreach.
  { unfold lib_reachable, bootstrap_blocks, two_threads.
    eapply rtc_r; [|apply prim_current].
    eapply rtc_r; [|apply prim_create].
    eapply rtc_r; [|apply prim_create]. apply rtc_refl. }
  split; [exact Hreach|]. split; [reflexivity|].
  destruct (one_running_after_schedule bootstrap_blocks Hreach) as (_ & Hsome & _).
  exact (proj2 (Hsome 1 eq_refl)).
Defined.

Lemma mutex_inv_preserved_witness :
  mutex_inv held_by_bootstrap
  ∧ tid (current first_thread_runs) = 1%Z
  ∧ (mutex_lock held_by_bootstrap first_thread_runs).2 = Parked
  ∧ mutex_spec_inv (mutex_lock held_by_bootstrap first_thread_runs).1.1
  ∧ mutex_spec_inv (mutex_unlock held_by_bootstrap two_threads).1.
Proof.
  assert (mutex_inv held_by_bootstrap) as Hinv.
  { unfold mutex_inv, mutex_spec_inv, queue_ok, waiters, MAX_THREADS. simpl.
    repeat split; try done; try lia. apply not_elem_of_nil. }
  split; [exact Hinv|]. split; [reflexivity|]. split; [reflexivity|].
  split.
  - destruct (mutex_inv_preserved held_by_bootstrap first_thread_runs Hinv)
      as (_ & _ & _ & Hlock).
    destruct (Hlock ltac:(vm_compute; discriminate)) as [_ Hl].
    apply Hl.
    + vm_compute. discriminate.
    + simpl. apply not_elem_of_nil.
    + intros _. vm_compute. reflexivity.
  - destruct (mutex_inv_preserved held_by_bootstrap two_threads Hinv)
      as (_ & _ & Hu & _).
    exact Hu.
Defined.

Lemma mutex_unlock_not_owner_witness :
  Mutex.owner_tid held_by_bootstrap ≠ tid (current first_thread_runs)
  ∧ mutex_unlock held_by_bootstrap first_thread_runs
    = (held_by_bootstrap, first_thread_runs).
Proof.
  assert (Mutex.owner_tid held_by_bootstrap ≠ tid (current first_thread_runs))
    as Hne by (vm_compute; discriminate).
  split; [exact Hne|].
  exact (mutex_unlock_not_owner held_by_bootstrap first_thread_runs Hne).
Defined.

Lemma sem_wait_count_invariant_witness :
  sem_inv (sem_init 1)
  ∧ Sem.count sem_awaited = (-1)%Z
  ∧ Sem.wait_count sem_awaited = Z.max 0 (- Sem.count sem_awaited)
  ∧ waiters (Sem.wait_queue sem_awaited) (Sem.wait_count sem_awaited) = [1%Z]
  ∧ Sem.wait_count sem_given_back = Z.max 0 (- Sem.count sem_given_back).
Proof.
  assert (sem_inv (sem_init 1)) as Hinv
    by (apply sem_init_inv; unfold INT_MAX; lia).
  assert (sem_reach (sem_init 1) sem_awaited [1%Z]) as Hreach.
  { apply (reach_wait (sem_init 1) sem_taken [] first_thread_runs).
    - apply (reach_wait (sem_init 1) (sem_init 1) [] two_threads).
      + apply reach_start.
      + intros _. vm_compute. reflexivity.
    - intros _. vm_compute. reflexivity. }
  assert (sem_reach (sem_init 1) sem_given_back []) as Hreach'.
  { apply (reach_post (sem_init 1) sem_awaited [1%Z] two_threads Hreach).
    vm_compute. reflexivity. }
  split; [exact Hinv|]. split; [reflexivity|].
  destruct (sem_wait_count_invariant _ _ _ Hinv Hreach) as (H1 & _ & H2 & _ & _).
  destruct (sem_wait_count_invariant _ _ _ Hinv Hreach') as (H3 & _).
  split; [exact H1|]. split; [exact H2 | exact H3].
Defined.

Lemma close_monotonicity_witness :
  chan_ok closed_channel
  ∧ Chan.closed closed_channel ≠ 0%Z
  ∧ Mutex.locked (Chan.lock closed_channel) = 0%Z
  ∧ chan_items closed_channel = [20; 30]%Z
  ∧ chan_reach closed_channel after_recv [20%Z]
  ∧ (channel_send closed_channel 99 first_thread_runs).2 = Returned (-1)%Z
  ∧ [20%Z] ++ chan_items after_recv = chan_items closed_channel
  ∧ Mutex.locked (Chan.lock after_recv) = 0%Z
  ∧ (channel_send after_recv 7 two_threads).2 = Returned (-1)%Z
  ∧ (channel_recv after_recv two_threads).2 = Returned (0%Z, Some 30%Z)
  ∧ (recv_each [two_threads; first_thread_runs] closed_channel).2
    = [Returned (0%Z, Some 20%Z); Returned (0%Z, Some 30%Z)].
Proof.
  assert (chan_ok open_channel) as Hopen.
  { unfold chan_ok, mutex_queue_ok, cond_queue_ok, queue_ok, INT_MAX, MAX_THREADS.
    simpl. lia. }
  destruct (channel_close_sets_closed open_channel two_threads Hopen eq_refl)
    as (Hc & Hok & _ & _).
  fold closed_channel in Hc, Hok.
  assert (Chan.closed closed_channel ≠ 0%Z) as Hclosed by (rewrite Hc; discriminate).
  assert (Mutex.locked (Chan.lock closed_channel) = 0%Z) as Hfree by reflexivity.
  assert (chan_reach closed_channel after_recv [20%Z]) as Hreach.
  { apply (chan_after_recv closed_channel after_send [] first_thread_runs).
    - apply (chan_after_send closed_channel closed_channel [] 99 first_thread_runs).
      + apply chan_start.
      + intros _. vm_compute. reflexivity.
    - intros _. vm_compute. reflexivity. }
  split; [exact Hok|]. split; [exact Hclosed|]. split; [exact Hfree|].
  split; [reflexivity|]. split; [exact Hreach|].
  destruct (close_monotonicity _ _ _ Hok Hclosed Hreach)
    as (_ & _ & Hitems & _ & _ & _ & _ & Hlater & _).
  destruct (close_monotonicity _ _ _ Hok Hclosed (chan_start closed_channel))
    as (_ & _ & _ & Hsend & _ & _ & Hdrain & _).
  destruct (Hlater Hfree) as (Hfree' & Hsend' & Hrecv' & _).
  split; [exact (proj1 (Hsend 99%Z first_thread_runs))|].
  split; [exact Hitems|]. split; [exact Hfree'|].
  split; [exact (proj1 (Hsend' 7%Z two_threads))|].
  split; [exact (proj1 (Hrecv' two_threads))|].
  exact (proj1 (Hdrain [two_threads; first_thread_runs] eq_refl eq_refl)).
Defined.

Lemma cond_broadcast_wakes_all_fifo_witness :
  cond_queue_ok two_waiters
  ∧ length (threads both_sleeping) = MAX_THREADS
  ∧ waiters (Cond.wait_queue two_waiters) (Cond.wait_count two_waiters) = [2; 1]%Z
  ∧ state (threads both_sleeping !!! 1) = T_SLEEPING
  ∧ state (threads both_sleeping !!! 2) = T_SLEEPING
  ∧ waiters (Cond.wait_queue (cond_broadcast_loop 1 two_waiters both_sleeping).1)
      (Cond.wait_count (cond_broadcast_loop 1 two_waiters both_sleeping).1)
    = [1%Z]
  ∧ state (threads (cond_broadcast_loop 1 two_waiters both_sleeping).2 !!! 2)
    = T_RUNNABLE
  ∧ threads (cond_broadcast_loop 1 two_waiters both_sleeping).2 !!! 1
    = threads both_sleeping !!! 1
  ∧ (cond_broadcast_loop 2 two_waiters both_sleeping).2
    = with_threads
        (wake_thread 1 (threads (cond_broadcast_loop 1 two_waiters both_sleeping).2))
        (cond_broadcast_loop 1 two_waiters both_sleeping).2
  ∧ cond_broadcast two_waiters both_sleeping
    = cond_broadcast_loop 2 two_waiters both_sleeping
  ∧ Cond.wait_count (cond_broadcast two_waiters both_sleeping).1 = 0%Z
  ∧ state (threads (cond_broadcast two_waiters both_sleeping).2 !!! 1) = T_RUNNABLE
  ∧ state (threads (cond_broadcast two_waiters both_sleeping).2 !!! 2) = T_RUNNABLE.
Proof.
  assert (queue_ok (Cond.wait_queue two_waiters) (Cond.wait_count two_waiters))
    as Hq by (unfold queue_ok, MAX_THREADS; simpl; lia).
  assert (length (threads both_sleeping) = MAX_THREADS) as Hlen by reflexivity.
  split; [exact Hq|]. split; [exact Hlen|]. split; [reflexivity|].
  split; [reflexivity|]. split; [reflexivity|].
  destruct (cond_broadcast_wakes_all_fifo two_waiters both_sleeping Hq Hlen)
    as (Hcount & _ & _ & Hwoken & Hall & Hrounds & Hround).
  destruct (Hrounds 1 ltac:(simpl; lia)) as (Hleft & Hrt1 & Hother).
  destruct (Hround 1 1%Z eq_refl) as (_ & _ & Hstep).
  split; [exact Hleft|]. split; [rewrite Hrt1; reflexivity|].
  split.
  { apply Hother. intros Hin. vm_compute in Hin.
    apply elem_of_cons in Hin as [Hin|Hin]; [discriminate|].
    by apply elem_of_nil in Hin. }
  split; [exact Hstep|]. split; [exact Hall|].
  split; [exact Hcount|]. split.
  - apply (Hwoken 1%Z 1).
    + simpl. apply list_elem_of_further, list_elem_of_here.
    + unfold MAX_THREADS. lia.
    + reflexivity.
    + intros j Hj. assert (j = 0) as -> by lia. vm_compute. discriminate.
  - apply (Hwoken 2%Z 2).
    + simpl. apply list_elem_of_here.
    + unfold MAX_THREADS. lia.
    + reflexivity.
    + intros j Hj.
      destruct j as [|[|j]]; [vm_compute; discriminate.. | lia].
Defined.

Lemma thread_join_bootstrap_witness :
  table_ok joiner_runs
  ∧ current_thread joiner_runs = 1
  ∧ state (threads joiner_runs !!! 0) = T_RUNNABLE
  ∧ thread_join_lookup 0 joiner_runs = Some 0
  ∧ (thread_join 0 joiner_runs).2 = Suspended
  ∧ joined_tid (threads (thread_join 0 joiner_runs).1 !!! 1) = 0%Z
  ∧ state (threads (thread_join 0 joiner_runs).1 !!! 1) = T_SLEEPING.
Proof.
  assert (table_ok joiner_runs) as Hok
    by (split; [reflexivity | unfold MAX_THREADS; simpl; lia]).
  split; [exact Hok|]. split; [reflexivity|]. split; [reflexivity|].
  destruct (thread_join_bootstrap joiner_runs Hok eq_refl
              ltac:(vm_compute; discriminate) ltac:(vm_compute; discriminate))
    as (Hlookup & Hwait & _).
  split; [exact Hlookup|].
  destruct (Hwait ltac:(vm_compute; discriminate)) as (Heq & Hj & Hs).
  split; [rewrite Heq; reflexivity|]. split; [exact Hj | exact Hs].
Defined.





Lemma thread_schedule_frame_witness :
  table_ok two_threads
  ∧ 0 < MAX_THREADS
  ∧ sp (threads two_threads !!! 0) = SpNull
  ∧ state (threads (thread_schedule two_threads) !!! 0) = T_RUNNABLE
  ∧ sp (threads (thread_schedule two_threads) !!! 0) = SpSaved 0
  ∧ switch_log (thread_schedule two_threads) = [(0, 1)]
  ∧ next_tid (thread_schedule two_threads) = next_tid two_threads.
Proof.
  assert (table_ok two_threads) as Hok
    by (split; [reflexivity | unfold MAX_THREADS; simpl; lia]).
  assert (0 < MAX_THREADS) as Hlt by (unfold MAX_THREADS; lia).
  split; [exact Hok|]. split; [exact Hlt|]. split; [reflexivity|].
  destruct (thread_schedule_frame two_threads 0 Hok Hlt)
    as (_ & _ & Hsp & _ & _ & _ & _ & Hn & _).
  assert (0 = current_thread two_threads
          ∧ current_thread (thread_schedule two_threads) ≠ 0) as Hsw
    by (split; [reflexivity | vm_compute; lia]).
  destruct (Hsp Hsw) as [Hsaved Hlog].
  split; [reflexivity|]. split; [exact Hsaved|]. split; [exact Hlog | exact Hn].
Defined.

Lemma thread_yield_alone_witness :
  table_ok thread_init
  ∧ state (current thread_init) = T_RUNNING
  ∧ thread_yield thread_init = thread_init.
Proof.
  assert (table_ok thread_init) as Hok
    by (split; [reflexivity | unfold MAX_THREADS; simpl; lia]).
  split; [exact Hok|]. split; [reflexivity|].
  apply (thread_yield_alone thread_init Hok eq_refl).
  unfold MAX_THREADS. intros i Hi Hne.
  do 16 (destruct i as [|i]; [vm_compute; try done|]). lia.
Defined.

Lemma thread_yield_switches_witness :
  table_ok two_threads
  ∧ state (threads two_threads !!! 2) = T_RUNNABLE
  ∧ ∃ k, 1 ≤ k < MAX_THREADS
         ∧ current_thread (thread_yield two_threads) = (0 + k) mod MAX_THREADS
         ∧ current_thread (thread_yield two_threads) ≠ 0.
Proof.
  assert (table_ok two_threads) as Hok
    by (split; [reflexivity | unfold MAX_THREADS; simpl; lia]).
  split; [exact Hok|]. split; [reflexivity|].
  destruct (thread_yield_switches two_threads 2 Hok
              ltac:(unfold MAX_THREADS; lia) ltac:(simpl; lia) eq_refl)
    as (k & Hk & Hc & Hne & _).
  exists k. split; [exact Hk|]. split; [exact Hc | exact Hne].
Defined.

Lemma thread_yield_reaches_runnable_witness :
  table_ok two_threads
  ∧ state (threads two_threads !!! 2) = T_RUNNABLE
  ∧ ∃ n, 0 < n < MAX_THREADS
         ∧ current_thread (Nat.iter n thread_yield two_threads) = 2
         ∧ thread_self (Nat.iter n thread_yield two_threads) = 2%Z.
Proof.
  assert (table_ok two_threads) as Hok
    by (split; [reflexivity | unfold MAX_THREADS; simpl; lia]).
  split; [exact Hok|]. split; [reflexivity|].
  destruct (thread_yield_reaches_runnable two_threads 2 Hok
              ltac:(unfold MAX_THREADS; lia) ltac:(simpl; lia) eq_refl)
    as (n & Hn & Hc & _ & Hself).
  exists n. split; [exact Hn|]. split; [exact Hc | exact Hself].
Defined.

Lemma thread_create_table_full_witness :
  next_tid full_table ≠ (-1)%Z
  ∧ (∀ j, j < MAX_THREADS → state (threads full_table !!! j) ≠ T_UNUSED)
  ∧ (thread_create 0 0 full_table).2 = (-1)%Z
  ∧ (thread_create 0 0 full_table).1 = full_table.
Proof.
  assert (next_tid full_table ≠ (-1)%Z) as Hnext by (vm_compute; discriminate).
  assert (∀ j, j < MAX_THREADS → state (threads full_table !!! j) ≠ T_UNUSED) as Hfull.
  { unfold MAX_THREADS. intros j Hj.
    do 16 (destruct j as [|j]; [vm_compute; discriminate|]). lia. }
  split; [exact Hnext|]. split; [exact Hfull|].
  destruct (thread_create_table_full 0 0 full_table Hnext) as [Hiff Hsame].
  split; [exact (proj2 Hiff Hfull) | exact (Hsame (proj2 Hiff Hfull))].
Defined.

Lemma thread_create_allocates_witness :
  length (threads thread_init) = MAX_THREADS
  ∧ state (threads thread_init !!! 1) = T_UNUSED
  ∧ (thread_create 7 9 thread_init).2 = 1%Z
  ∧ threads (thread_create 7 9 thread_init).1 !!! 1
    = mkThread 1 T_RUNNABLE (SpStack (STACK_SIZE - 5 * SIZEOF_PTR)) 7 9 0 (-1)
  ∧ next_tid (thread_create 7 9 thread_init).1 = 2%Z.
Proof.
  split; [reflexivity|]. split; [reflexivity|].
  destruct (thread_create_allocates 7 9 thread_init 1 eq_refl
              ltac:(unfold MAX_THREADS; lia) eq_refl) as (Hr & Hslot & _ & _ & _ & _ & Hn & _).
  { intros j Hj. assert (j = 0) as -> by lia. vm_compute. discriminate. }
  split; [exact Hr|]. split; [exact Hslot | exact Hn].
Defined.

Lemma thread_api_tids_unique_witness :
  thread_api_reachable zombie_waits
  ∧ table_ok zombie_waits
  ∧ state (current zombie_waits) ≠ T_UNUSED
  ∧ ∀ i, i < MAX_THREADS → state (threads zombie_waits !!! i) ≠ T_UNUSED →
         tid (threads zombie_waits !!! i) = thread_self zombie_waits →
         i = current_thread zombie_waits.
Proof.
  assert (thread_api_reachable zombie_waits) as Hreach.
  { unfold thread_api_reachable, zombie_waits, joiner_runs.
    eapply rtc_r; [|split; [|apply call_exit]; vm_compute; discriminate].
    eapply rtc_r; [|split; [|apply call_yield]; vm_compute; discriminate].
    eapply rtc_r; [|split; [|apply call_create; vm_compute; reflexivity];
                    vm_compute; discriminate].
    apply rtc_refl. }
  split; [exact Hreach|].
  destruct (thread_api_tids_unique zombie_waits Hreach) as (Hok & Hcur & _ & _ & Hself).
  split; [exact Hok|]. split; [exact Hcur | exact Hself].
Defined.

Lemma thread_join_unknown_tid_witness :
  (∀ j, j < MAX_THREADS → state (threads two_threads !!! j) ≠ T_UNUSED →
        tid (threads two_threads !!! j) ≠ 7%Z)
  ∧ thread_join 7 two_threads = (two_threads, Returned 0%Z).
Proof.
  assert (∀ j, j < MAX_THREADS → state (threads two_threads !!! j) ≠ T_UNUSED →
               tid (threads two_threads !!! j) ≠ 7%Z) as Hnone.
  { unfold MAX_THREADS. intros j Hj _.
    do 16 (destruct j as [|j]; [vm_compute; discriminate|]). lia. }
  split; [exact Hnone|]. exact (thread_join_unknown_tid 7 two_threads Hnone).
Defined.

Lemma thread_join_reaps_once_witness :
  table_ok zombie_waits
  ∧ tids_unique zombie_waits
  ∧ state (threads zombie_waits !!! 1) = T_ZOMBIE
  ∧ (thread_join 1 zombie_waits).2 = Returned 5%Z
  ∧ state (threads (thread_join 1 zombie_waits).1 !!! 1) = T_UNUSED
  ∧ thread_join 1 (thread_join 1 zombie_waits).1
    = ((thread_join 1 zombie_waits).1, Returned 0%Z).
Proof.
  assert (table_ok zombie_waits) as Hok
    by (split; [reflexivity | unfold MAX_THREADS; simpl; lia]).
  assert (tids_unique zombie_waits) as Huniq
    by (apply tid_inv_tids_unique, thread_api_reachable_tid_inv, zombie_waits_reachable).
  split; [exact Hok|]. split; [exact Huniq|]. split; [reflexivity|].
  destruct (thread_join_reaps_once zombie_waits 1 Hok Huniq
              ltac:(unfold MAX_THREADS; lia) eq_refl)
    as (Hres & Hfree & _ & _ & _ & _ & _ & Hagain).
  split; [exact Hres|]. split; [exact Hfree | exact Hagain].
Defined.

Lemma thread_exit_wakes_joiners_witness :
  table_ok joined_first
  ∧ current_thread joined_first = 1
  ∧ state (threads joined_first !!! 0) = T_SLEEPING
  ∧ joined_tid (threads joined_first !!! 0) = tid (current joined_first)
  ∧ switch_log joined_first = [(0, 1)]
  ∧ threads (thread_exit 5 joined_first) !!! 1
    = set_sp (SpSaved 1) (set_state T_ZOMBIE (set_retval 5 (current joined_first)))
  ∧ current_thread (thread_exit 5 joined_first) ≠ 1
  ∧ state (current (thread_exit 5 joined_first)) = T_RUNNING
  ∧ switch_log (thread_exit 5 joined_first) = [(0, 1); (1, 0)].
Proof.
  assert (table_ok joined_first) as Hok
    by (split; [reflexivity | unfold MAX_THREADS; simpl; lia]).
  split; [exact Hok|]. split; [reflexivity|]. split; [reflexivity|].
  split; [reflexivity|]. split; [reflexivity|].
  destruct (thread_exit_wakes_joiners 5 joined_first Hok) as (Hz & _ & _ & Hsw & _).
  destruct Hsw as (Hne & Hrun & Hlog).
  { exists 0. split; [unfold MAX_THREADS; lia|]. split; [simpl; lia|].
    right. split; reflexivity. }
  destruct (decide _) as [He|_] in Hz; [destruct (Hne He)|].
  split; [exact Hz|]. split; [exact Hne|]. split; [exact Hrun|].
  rewrite Hlog. reflexivity.
Defined.

Lemma thread_exit_then_join_witness :
  table_ok joiner_runs
  ∧ tids_unique joiner_runs
  ∧ state (current joiner_runs) ≠ T_UNUSED
  ∧ tid (current joiner_runs) = 1%Z
  ∧ (thread_join 1 (thread_exit 5 joiner_runs)).2 = Returned 5%Z
  ∧ state (threads (thread_join 1 (thread_exit 5 joiner_runs)).1 !!! 1) = T_UNUSED.
Proof.
  assert (table_ok joiner_runs) as Hok
    by (split; [reflexivity | unfold MAX_THREADS; simpl; lia]).
  assert (tids_unique joiner_runs) as Huniq
    by (apply tid_inv_tids_unique, thread_api_reachable_tid_inv, joiner_runs_reachable).
  assert (state (current joiner_runs) ≠ T_UNUSED) as Hu by (vm_compute; discriminate).
  split; [exact Hok|]. split; [exact Huniq|]. split; [exact Hu|].
  split; [reflexivity|].
  destruct (thread_exit_then_join 5 joiner_runs Hok Huniq Hu) as (_ & Hres & Hfree & _).
  split; [exact Hres | exact Hfree].
Defined.

Lemma thread_join_blocks_witness :
  table_ok one_created
  ∧ tids_unique one_created
  ∧ tid (threads one_created !!! 1) = 1%Z
  ∧ state (threads one_created !!! 1) = T_RUNNABLE
  ∧ (thread_join 1 one_created).2 = Suspended
  ∧ current_thread (thread_join 1 one_created).1 = 1
  ∧ threads (thread_join 1 one_created).1 !!! 0
    = set_sp (SpSaved 0)
        (set_joined_tid 1 (set_state T_SLEEPING (threads one_created !!! 0)))
  ∧ state (threads (thread_join 1 one_created).1 !!! 0) = T_SLEEPING
  ∧ joined_tid (threads (thread_join 1 one_created).1 !!! 0) = 1%Z.
Proof.
  assert (table_ok one_created) as Hok
    by (split; [reflexivity | unfold MAX_THREADS; simpl; lia]).
  assert (tids_unique one_created) as Huniq
    by (apply tid_inv_tids_unique, thread_api_reachable_tid_inv, one_created_reachable).
  split; [exact Hok|]. split; [exact Huniq|]. split; [reflexivity|].
  split; [reflexivity|].
  destruct (thread_join_blocks 1 one_created 1 Hok Huniq
              ltac:(unfold MAX_THREADS; lia) eq_refl
              ltac:(vm_compute; discriminate) ltac:(vm_compute; discriminate))
    as (Hres & _ & Hslot & Hst & Hj & _).
  cbv zeta in Hslot.
  destruct (decide _) as [He|_] in Hslot; [vm_compute in He; discriminate|].
  split; [exact Hres|]. split; [reflexivity|]. split; [exact Hslot|].
  split; [exact Hst | exact Hj].
Defined.

Lemma mutex_lock_contended_witness :
  Mutex.locked held_by_bootstrap ≠ 0%Z
  ∧ mutex_queue_ok held_by_bootstrap
  ∧ table_ok first_thread_runs
  ∧ (mutex_lock held_by_bootstrap first_thread_runs).2 = Parked
  ∧ Mutex.owner_tid (mutex_lock held_by_bootstrap first_thread_runs).1.1 = 0%Z
  ∧ waiters (Mutex.wait_queue (mutex_lock held_by_bootstrap first_thread_runs).1.1)
      (Mutex.wait_count (mutex_lock held_by_bootstrap first_thread_runs).1.1)
    = [1%Z]
  ∧ state (threads (mutex_lock held_by_bootstrap first_thread_runs).1.2 !!! 1)
    = T_SLEEPING.
Proof.
  assert (Mutex.locked held_by_bootstrap ≠ 0%Z) as Hl by (vm_compute; discriminate).
  assert (mutex_queue_ok held_by_bootstrap) as Hq
    by (unfold mutex_queue_ok, queue_ok, MAX_THREADS; simpl; lia).
  assert (table_ok first_thread_runs) as Hok
    by (split; [reflexivity | unfold MAX_THREADS; simpl; lia]).
  split; [exact Hl|]. split; [exact Hq|]. split; [exact Hok|].
  destruct (mutex_lock_contended held_by_bootstrap first_thread_runs Hl Hq
              ltac:(vm_compute; reflexivity) Hok)
    as (Hp & _ & Ho & Hw & _ & _ & Hs).
  split; [exact Hp|]. split; [exact Ho|]. split; [exact Hw | exact Hs].
Defined.

Lemma mutex_unlock_releases_witness :
  mutex_queue_ok held_by_bootstrap
  ∧ Mutex.owner_tid held_by_bootstrap = tid (current two_threads)
  ∧ Mutex.locked (mutex_unlock held_by_bootstrap two_threads).1 = 0%Z
  ∧ Mutex.owner_tid (mutex_unlock held_by_bootstrap two_threads).1 = (-1)%Z
  ∧ (mutex_lock (mutex_unlock held_by_bootstrap two_threads).1 first_thread_runs).2
    = Done.
Proof.
  assert (mutex_queue_ok held_by_bootstrap) as Hq
    by (unfold mutex_queue_ok, queue_ok, MAX_THREADS; simpl; lia).
  split; [exact Hq|]. split; [reflexivity|].
  destruct (mutex_unlock_releases held_by_bootstrap two_threads Hq eq_refl)
    as (Hl & Ho & _ & _ & _ & Hnext).
  split; [exact Hl|]. split; [exact Ho|].
  exact (proj1 (Hnext first_thread_runs)).
Defined.

Lemma mutex_handoff_witness :
  mutex_queue_ok mutex_init
  ∧ table_ok first_thread_runs
  ∧ (mutex_lock held_by_bootstrap first_thread_runs).2 = Parked
  ∧ threads (mutex_unlock (mutex_lock held_by_bootstrap first_thread_runs).1.1
               two_threads).2
    = wake_thread 1 (threads two_threads)
  ∧ Mutex.owner_tid
      (mutex_lock
         (mutex_unlock (mutex_lock held_by_bootstrap first_thread_runs).1.1
            two_threads).1
         first_thread_runs).1.1 = 1%Z.
Proof.
  assert (mutex_queue_ok mutex_init) as Hq
    by (unfold mutex_queue_ok, queue_ok, MAX_THREADS; simpl; lia).
  assert (table_ok first_thread_runs) as Hok
    by (split; [reflexivity | unfold MAX_THREADS; simpl; lia]).
  split; [exact Hq|]. split; [exact Hok|].
  destruct (mutex_handoff mutex_init two_threads first_thread_runs two_threads
              first_thread_runs Hq eq_refl eq_refl Hok eq_refl)
    as (_ & (Hp & _) & (_ & _ & Hw) & (_ & _ & Ho)).
  split; [exact Hp|]. split; [exact Hw | exact Ho].
Defined.

Lemma sem_counts_units_witness :
  (0 ≤ 2 ≤ INT_MAX)%Z
  ∧ (sem_wait_each [two_threads; first_thread_runs] (sem_init 2)).2
    = [(two_threads, Done); (first_thread_runs, Done)]
  ∧ (sem_wait (sem_wait_each [two_threads; first_thread_runs] (sem_init 2)).1
       two_threads).2 = Parked.
Proof.
  assert (0 ≤ 2 ≤ INT_MAX)%Z as Hv by (unfold INT_MAX; lia).
  split; [exact Hv|].
  destruct (sem_counts_units 2 [two_threads; first_thread_runs] two_threads Hv eq_refl)
    as (Hres & _ & Hp & _).
  split; [exact Hres | exact Hp].
Defined.

Lemma sem_post_wait_round_trip_witness :
  (0 ≤ Sem.count (sem_init 1) < INT_MAX)%Z
  ∧ sem_wait (sem_post (sem_init 1) two_threads).1 first_thread_runs
    = (sem_init 1, first_thread_runs, Done)
  ∧ sem_post (sem_wait (sem_init 1) two_threads).1.1 first_thread_runs
    = (sem_init 1, first_thread_runs).
Proof.
  assert (0 ≤ Sem.count (sem_init 1) < INT_MAX)%Z as Hc
    by (unfold INT_MAX; simpl; lia).
  split; [exact Hc|].
  destruct (sem_post_wait_round_trip (sem_init 1) two_threads first_thread_runs
              Hc eq_refl) as (_ & Hpw & Hwp).
  split; [exact Hpw|]. exact (proj2 (Hwp ltac:(simpl; lia))).
Defined.

Lemma cond_wait_then_signal_witness :
  cond_queue_ok cond_init
  ∧ table_ok two_threads
  ∧ Mutex.locked (cond_wait cond_init held_by_bootstrap two_threads).1.2 = 0%Z
  ∧ state (threads (cond_wait cond_init held_by_bootstrap two_threads).2 !!! 0)
    = T_SLEEPING
  ∧ threads (cond_signal (cond_wait cond_init held_by_bootstrap two_threads).1.1
               first_thread_runs).2
    = wake_thread 0 (threads first_thread_runs)
  ∧ cond_signal cond_init first_thread_runs = (cond_init, first_thread_runs).
Proof.
  assert (cond_queue_ok cond_init) as Hq
    by (unfold cond_queue_ok, queue_ok, MAX_THREADS; simpl; lia).
  assert (table_ok two_threads) as Hok
    by (split; [reflexivity | unfold MAX_THREADS; simpl; lia]).
  split; [exact Hq|]. split; [exact Hok|].
  destruct (cond_wait_then_signal cond_init held_by_bootstrap two_threads
              first_thread_runs Hq ltac:(vm_compute; reflexivity) Hok)
    as (_ & _ & Hl & _ & _ & Hs & Hsig & Hlost).
  split; [exact (Hl eq_refl)|]. split; [exact Hs|].
  split; [exact (proj1 (Hsig 0%Z eq_refl)) | exact (Hlost eq_refl)].
Defined.

Lemma channel_send_outcomes_witness :
  chan_ring_ok open_channel
  ∧ lock_room open_channel
  ∧ cond_room (Chan.not_full open_channel)
  ∧ (channel_send open_channel 40 two_threads).2 = Returned 0%Z
  ∧ chan_items (channel_send open_channel 40 two_threads).1.1 = [20; 30; 40]%Z.
Proof.
  assert (chan_ring_ok open_channel) as Hring.
  { split; [|reflexivity].
    unfold chan_ok, mutex_queue_ok, cond_queue_ok, queue_ok, INT_MAX, MAX_THREADS.
    simpl. lia. }
  assert (lock_room open_channel) as Hroom by (intros _; vm_compute; reflexivity).
  assert (cond_room (Chan.not_full open_channel)) as Hcroom
    by (vm_compute; reflexivity).
  split; [exact Hring|]. split; [exact Hroom|]. split; [exact Hcroom|].
  destruct (channel_send_outcomes open_channel 40 two_threads Hring Hroom Hcroom)
    as (_ & _ & Hres & Hitems & _).
  split; [exact Hres | exact Hitems].
Defined.

Lemma channel_recv_outcomes_witness :
  chan_ring_ok open_channel
  ∧ lock_room open_channel
  ∧ cond_room (Chan.not_empty open_channel)
  ∧ (channel_recv open_channel two_threads).2 = Returned (0%Z, Some 20%Z)
  ∧ chan_items open_channel
    = [20%Z] ++ chan_items (channel_recv open_channel two_threads).1.1.
Proof.
  assert (chan_ring_ok open_channel) as Hring.
  { split; [|reflexivity].
    unfold chan_ok, mutex_queue_ok, cond_queue_ok, queue_ok, INT_MAX, MAX_THREADS.
    simpl. lia. }
  assert (lock_room open_channel) as Hroom by (intros _; vm_compute; reflexivity).
  assert (cond_room (Chan.not_empty open_channel)) as Hcroom
    by (vm_compute; reflexivity).
  split; [exact Hring|]. split; [exact Hroom|]. split; [exact Hcroom|].
  destruct (channel_recv_outcomes open_channel two_threads Hring Hroom Hcroom)
    as (_ & _ & Hres & Hitems & _).
  split; [exact Hres | exact Hitems].
Defined.


Lemma channel_fifo_round_trip_witness :
  chan_ring_ok open_channel
  ∧ chan_items open_channel = [20; 30]%Z
  ∧ (recv_each [first_thread_runs; two_threads; first_thread_runs]
       (send_each [(40%Z, two_threads)] open_channel).1).2
    = [Returned (0%Z, Some 20%Z); Returned (0%Z, Some 30%Z);
       Returned (0%Z, Some 40%Z)].
Proof.
  assert (chan_ring_ok open_channel) as Hring.
  { split; [|reflexivity].
    unfold chan_ok, mutex_queue_ok, cond_queue_ok, queue_ok, INT_MAX, MAX_THREADS.
    simpl. lia. }
  split; [exact Hring|]. split; [reflexivity|].
  destruct (channel_fifo_round_trip open_channel [(40%Z, two_threads)]
              [first_thread_runs; two_threads; first_thread_runs]
              Hring eq_refl eq_refl ltac:(simpl; lia) eq_refl)
    as (_ & _ & Hrecv & _).
  exact Hrecv.
Defined.

Lemma cond_broadcast_repeats_signal_witness :
  cond_queue_ok two_waiters
  ∧ cond_broadcast two_waiters both_sleeping
    = cond_signal (cond_signal two_waiters both_sleeping).1
        (cond_signal two_waiters both_sleeping).2.
Proof.
  assert (cond_queue_ok two_waiters) as Hq
    by (unfold cond_queue_ok, queue_ok, MAX_THREADS; simpl; lia).
  split; [exact Hq|].
  exact (cond_broadcast_repeats_signal two_waiters both_sleeping Hq).
Defined.

Lemma sem_handoff_witness :
  sem_inv (sem_init 0)
  ∧ table_ok first_thread_runs
  ∧ (sem_wait (sem_init 0) first_thread_runs).2 = Parked
  ∧ threads (sem_post (sem_wait (sem_init 0) first_thread_runs).1.1 two_threads).2
    = wake_thread 1 (threads two_threads)
  ∧ (sem_wait (sem_post (sem_wait (sem_init 0) first_thread_runs).1.1 two_threads).1
       two_threads).2 = Parked.
Proof.
  assert (sem_inv (sem_init 0)) as Hinv
    by (apply sem_init_inv; unfold INT_MAX; lia).
  assert (table_ok first_thread_runs) as Hok
    by (split; [reflexivity | unfold MAX_THREADS; simpl; lia]).
  split; [exact Hinv|]. split; [exact Hok|].
  destruct (sem_handoff (sem_init 0) first_thread_runs two_threads Hinv eq_refl Hok)
    as ((Hp & _) & (_ & _ & Hw & _) & Hnext).
  split; [exact Hp|]. split; [exact Hw | exact (Hnext two_threads)].
Defined.

Lemma channel_full_send_completes_witness :
  chan_ring_ok full_channel
  ∧ table_ok first_thread_runs
  ∧ tid (threads two_threads !!! 1) = tid (current first_thread_runs)
  ∧ (channel_send full_channel 40 first_thread_runs).2 = Suspended
  ∧ state (threads (channel_recv (channel_send full_channel 40 first_thread_runs).1.1
                      two_threads).1.2 !!! 1) = T_RUNNABLE
  ∧ chan_items
      (channel_send
         (channel_recv (channel_send full_channel 40 first_thread_runs).1.1
            two_threads).1.1 40 first_thread_runs).1.1
    = [30; 10; 40]%Z.
Proof.
  assert (chan_ring_ok full_channel) as Hring.
  { split; [|reflexivity].
    unfold chan_ok, mutex_queue_ok, cond_queue_ok, queue_ok, INT_MAX, MAX_THREADS.
    simpl. lia. }
  assert (table_ok first_thread_runs) as Hok
    by (split; [reflexivity | unfold MAX_THREADS; simpl; lia]).
  split; [exact Hring|]. split; [exact Hok|]. split; [reflexivity|].
  destruct (channel_full_send_completes full_channel 40 first_thread_runs two_threads
              first_thread_runs 1 Hring eq_refl eq_refl eq_refl eq_refl Hok eq_refl
              ltac:(unfold MAX_THREADS; lia) eq_refl)
    as ((Hs & _) & (_ & Hwoken) & (_ & Hitems)).
  { intros j Hj. assert (j = 0) as -> by lia. vm_compute. discriminate. }
  split; [exact Hs|]. split; [exact Hwoken | exact Hitems].
Defined.

Lemma channel_empty_recv_completes_witness :
  chan_ring_ok empty_channel
  ∧ table_ok first_thread_runs
  ∧ tid (threads two_threads !!! 1) = tid (current first_thread_runs)
  ∧ (channel_recv empty_channel first_thread_runs).2 = Suspended
  ∧ (channel_send (channel_recv empty_channel first_thread_runs).1.1 40
       two_threads).2 = Returned 0%Z
  ∧ (channel_recv
       (channel_send (channel_recv empty_channel first_thread_runs).1.1 40
          two_threads).1.1 first_thread_runs).2 = Returned (0%Z, Some 40%Z).
Proof.
  assert (chan_ring_ok empty_channel) as Hring.
  { split; [|reflexivity].
    unfold chan_ok, mutex_queue_ok, cond_queue_ok, queue_ok, INT_MAX, MAX_THREADS.
    simpl. lia. }
  assert (table_ok first_thread_runs) as Hok
    by (split; [reflexivity | unfold MAX_THREADS; simpl; lia]).
  split; [exact Hring|]. split; [exact Hok|]. split; [reflexivity|].
  destruct (channel_empty_recv_completes empty_channel 40 first_thread_runs two_threads
              first_thread_runs 1 Hring eq_refl eq_refl eq_refl eq_refl Hok eq_refl
              ltac:(unfold MAX_THREADS; lia) eq_refl)
    as ((Hr & _) & (Hs & _) & (Hr2 & _)).
  { intros j Hj. assert (j = 0) as -> by lia. vm_compute. discriminate. }
  split; [exact Hr|]. split; [exact Hs | exact Hr2].
Defined.
